(** * Document ingestion and insight extraction: a verified model

    A shallow embedding of the core of the RAG pipeline
    ([backend_rag_pipeline]): the fixed-window, speaker-turn and paragraph
    chunkers and the adaptive strategy selection of
    [common/text_processor.py], the quality filter, de-duplication and
    ranking of [insights/enhanced/business_insights_engine.py], and the
    change-detecting [process_file] of [Supabase_Storage/storage_watcher.py].

    Conventions.  A Python [str] is a [list ascii]; the model is exact on
    ASCII text (every character below code point 128).  A Python [int] is a
    [Z].  A Python [float] is modelled by the rational it denotes and a
    float literal by its decimal value; only comparisons between such
    values are used, and the one product of floats, the ranking key of
    the insights, is a parameter of what is stated about the ranking.
    A [dict] used as a map is a [gmap], a [set] a [gset].
    Exceptions are values of [exn], carried by [result]. *)

From Stdlib Require Import ZArith QArith Ascii String List Lia Bool Sorted.
From stdpp Require Import gmap strings list fin_maps.

Local Open Scope Z_scope.
#[local] Set Warnings "-register-all".

(** ** Python primitives *)

Module Py.

Definition str := list ascii.

Definition lit (s : string) : str := list_ascii_of_string s.
Coercion lit : string >-> str.

Inductive exn :=
| ValueError
| TypeError
| AttributeError
| RecursionError
| JSONDecodeError
| OtherError.

Inductive result (A : Type) :=
| Ok (a : A)
| Raise (e : exn).
Arguments Ok {A} a.
Arguments Raise {A} e.

Definition ascii_eqb (a b : ascii) : bool := Ascii.eqb a b.

Fixpoint str_eqb (s t : str) : bool :=
  match s, t with
  | [], [] => true
  | a :: s', b :: t' => ascii_eqb a b && str_eqb s' t'
  | _, _ => false
  end.

Definition LF : ascii := ascii_of_nat 10.
Definition CR : ascii := ascii_of_nat 13.

(** [len(s)] *)
Definition len (s : str) : Z := Z.of_nat (length s).

(** [s.replace(c, '')] for a one-character [c]. *)
Definition remove_char (c : ascii) (s : str) : str :=
  List.filter (fun a => negb (ascii_eqb a c)) s.

(** Index normalisation of a slice bound, as CPython's
    [PySlice_AdjustIndices] does for step 1: a negative bound counts from
    the end, and every bound is clamped to [0 .. len]. *)
Definition slice_bound (n k : Z) : Z :=
  if k <? 0 then Z.max 0 (k + n) else Z.min k n.

(** [s[i:j]] *)
Definition slice (s : str) (i j : Z) : str :=
  let n := len s in
  let i' := slice_bound n i in
  let j' := slice_bound n j in
  firstn (Z.to_nat (j' - i')) (skipn (Z.to_nat i') s).

(** Number of elements of [range(start, stop, step)] for a non-zero step,
    by the formula of CPython's [compute_range_length]. *)
Definition range_length (start stop step : Z) : Z :=
  if (0 <? step) && (start <? stop) then 1 + (stop - 1 - start) / step
  else if (step <? 0) && (stop <? start) then 1 + (start - 1 - stop) / (- step)
  else 0.

(** [range(start, stop, step)]; a zero step raises [ValueError]. *)
Definition range (start stop step : Z) : result (list Z) :=
  if step =? 0 then Raise ValueError
  else Ok (List.map (fun k => start + Z.of_nat k * step)
             (seq 0 (Z.to_nat (range_length start stop step)))).

(** ASCII part of [str.isspace]: TAB, LF, VT, FF, CR, the separators
    FS, GS, RS, US and the space.  [str.strip], [str.split] and the
    [\s] class of [re] all use this set. *)
Definition isspace (a : ascii) : bool :=
  let n := nat_of_ascii a in
  ((9 <=? n) && (n <=? 13) || (28 <=? n) && (n <=? 32))%nat.

Definition isupper (a : ascii) : bool :=
  let n := nat_of_ascii a in ((65 <=? n) && (n <=? 90))%nat.

Definition islower (a : ascii) : bool :=
  let n := nat_of_ascii a in ((97 <=? n) && (n <=? 122))%nat.

Definition isalpha (a : ascii) : bool := isupper a || islower a.

Definition isdigit (a : ascii) : bool :=
  let n := nat_of_ascii a in ((48 <=? n) && (n <=? 57))%nat.

(** The [\w] class on ASCII. *)
Definition isword (a : ascii) : bool :=
  isalpha a || isdigit a || ascii_eqb a "_"%char.

(** [s.lower()] *)
Definition lower_char (a : ascii) : ascii :=
  if isupper a then ascii_of_nat (nat_of_ascii a + 32) else a.

Definition lower (s : str) : str := List.map lower_char s.

(** [s.lstrip()], [s.rstrip()], [s.strip()] *)
Fixpoint lstrip (s : str) : str :=
  match s with
  | a :: s' => if isspace a then lstrip s' else s
  | [] => []
  end.

Definition rstrip (s : str) : str := rev (lstrip (rev s)).

Definition strip (s : str) : str := rstrip (lstrip s).

(** [s.split()]: the maximal runs of non-space characters. *)
Fixpoint split_ws_go (cur : str) (s : str) : list str :=
  match s with
  | [] => match cur with [] => [] | _ => [rev cur] end
  | a :: s' =>
    if isspace a
    then match cur with [] => split_ws_go [] s' | _ => rev cur :: split_ws_go [] s' end
    else split_ws_go (a :: cur) s'
  end.

Definition split_ws (s : str) : list str := split_ws_go [] s.

(** [s.split(c)] for a one-character separator. *)
Fixpoint split_char_go (c : ascii) (cur : str) (s : str) : list str :=
  match s with
  | [] => [rev cur]
  | a :: s' =>
    if ascii_eqb a c then rev cur :: split_char_go c [] s'
    else split_char_go c (a :: cur) s'
  end.

Definition split_char (c : ascii) (s : str) : list str := split_char_go c [] s.

(** [sep.join(parts)] *)
Fixpoint join (sep : str) (parts : list str) : str :=
  match parts with
  | [] => []
  | [p] => p
  | p :: ps => p ++ sep ++ join sep ps
  end.

(** [s.startswith(p)] *)
Fixpoint startswith (p s : str) : bool :=
  match p, s with
  | [], _ => true
  | a :: p', b :: s' => ascii_eqb a b && startswith p' s'
  | _ :: _, [] => false
  end.

(** [sub in s] *)
Fixpoint contains (sub s : str) : bool :=
  startswith sub s ||
  match s with
  | [] => false
  | _ :: s' => contains sub s'
  end.

(** [x in l] for a list of strings. *)
Definition str_in (x : str) (l : list str) : bool :=
  existsb (str_eqb x) l.

Definition Qlt_bool (a b : Q) : bool := negb (Qle_bool b a).

(** [==] on optional values and on lists. *)
Definition option_eqb {A} (eqb : A -> A -> bool) (x y : option A) : bool :=
  match x, y with
  | Some a, Some b => eqb a b
  | None, None => true
  | _, _ => false
  end.

Fixpoint list_eqb {A} (eqb : A -> A -> bool) (x y : list A) : bool :=
  match x, y with
  | [], [] => true
  | a :: x', b :: y' => eqb a b && list_eqb eqb x' y'
  | _, _ => false
  end.

(** [s.split(sep)] for a separator of any positive length: occurrences
    are taken left to right and do not overlap. *)
Fixpoint split_str_go (sep : str) (skip : nat) (cur : str) (s : str) : list str :=
  match s with
  | [] => [rev cur]
  | a :: s' =>
    match skip with
    | S n => split_str_go sep n cur s'
    | O =>
      if startswith sep s
      then rev cur :: split_str_go sep (length sep - 1) [] s'
      else split_str_go sep 0 (a :: cur) s'
    end
  end.

Definition split_str (sep : str) (s : str) : list str := split_str_go sep 0 [] s.

(** Truth value of a string and of a list. *)
Definition nonempty {A} (l : list A) : bool :=
  match l with [] => false | _ => true end.

(** The first element on which [f] answers. *)
Fixpoint find_map {A B} (f : A -> option B) (l : list A) : option B :=
  match l with
  | [] => None
  | x :: l' => match f x with Some y => Some y | None => find_map f l' end
  end.

(** [s.strip(chars)] *)
Fixpoint lstrip_chars (chars : str) (s : str) : str :=
  match s with
  | a :: s' => if existsb (ascii_eqb a) chars then lstrip_chars chars s' else s
  | [] => []
  end.

Definition strip_chars (chars : str) (s : str) : str :=
  rev (lstrip_chars chars (rev (lstrip_chars chars s))).

(** [s.replace(c, d)] for one-character [c] and [d]. *)
Definition replace_char (c d : ascii) (s : str) : str :=
  List.map (fun a => if ascii_eqb a c then d else a) s.

(** [s.split(c, 1)] when [c] occurs in [s]: the parts before and after
    its first occurrence. *)
Fixpoint partition_char (c : ascii) (s : str) : option (str * str) :=
  match s with
  | [] => None
  | a :: s' =>
    if ascii_eqb a c then Some ([], s')
    else match partition_char c s' with
         | Some (k, v) => Some (a :: k, v)
         | None => None
         end
  end.

End Py.

Import Py.

(** ** The fragment of Python's [re] that the pipeline uses

    A backtracking matcher in continuation-passing style, with the
    priorities of [re]: alternatives left to right, greedy repetition
    longest first, lazy repetition shortest first. *)

Module Regex.

Inductive re :=
| Eps
| Chr (p : ascii -> bool)      (* a literal, a class, or [.] *)
| Seq (r1 r2 : re)
| Alt (r1 r2 : re)
| Star (r : re)                (* [r*] *)
| LazyStar (r : re)            (* [r*?] *)
| Group (n : nat) (r : re)     (* the [n]-th capturing group *)
| Bol                          (* [^] *)
| Eol                          (* [$] *)
| BolM                         (* [^] under [re.MULTILINE] *)
| EolM                         (* [$] under [re.MULTILINE] *)
| WordB.                       (* [\b] *)

Definition Plus (r : re) : re := Seq r (Star r).
Definition Opt (r : re) : re := Alt r Eps.

(** [r{1,n+1}], greedy. *)
Fixpoint UpTo (n : nat) (r : re) : re :=
  match n with
  | O => r
  | S n' => Seq r (Opt (UpTo n' r))
  end.

Fixpoint seq_of (rs : list re) : re :=
  match rs with
  | [] => Eps
  | [r] => r
  | r :: rs' => Seq r (seq_of rs')
  end.

Fixpoint alt_of (rs : list re) : re :=
  match rs with
  | [] => Eps
  | [r] => r
  | r :: rs' => Alt r (alt_of rs')
  end.

Definition char (c : ascii) : re := Chr (fun a => ascii_eqb a c).
Definition not_char (c : ascii) : re := Chr (fun a => negb (ascii_eqb a c)).
Definition literal (s : str) : re := seq_of (List.map char s).
(** A literal under [re.IGNORECASE]. *)
Definition literal_i (s : str) : re :=
  seq_of (List.map (fun c => Chr (fun a => ascii_eqb (lower_char a) (lower_char c))) s).
(** [.] without [re.DOTALL]. *)
Definition dot : re := not_char LF.
Definition space : re := Chr isspace.
Definition digit : re := Chr isdigit.

(** The position in the subject: the characters already passed, last
    first, and the characters ahead. *)
Record cursor := { seen : str; rest : str }.

Definition at_start (s : str) : cursor := {| seen := []; rest := s |}.
Definition advance (c : cursor) : option cursor :=
  match rest c with
  | a :: t => Some {| seen := a :: seen c; rest := t |}
  | [] => None
  end.

Definition captures := list (nat * str).
Definition answer : Type := cursor * captures.
Definition cont := cursor -> captures -> option answer.

Definition at_word_boundary (c : cursor) : bool :=
  let before := match seen c with a :: _ => isword a | [] => false end in
  let ahead := match rest c with a :: _ => isword a | [] => false end in
  xorb before ahead.

(** The text passed between two positions of one scan. *)
Definition passed (c c' : cursor) : str :=
  rev (firstn (length (seen c') - length (seen c)) (seen c')).

Definition progress (c c' : cursor) : bool :=
  (length (rest c') <? length (rest c))%nat.

(** Greedy repetition of [once]: one more round first, the continuation
    when that fails.  A round must consume a character. *)
Fixpoint star_loop (once : cursor -> captures -> cont -> option answer)
    (fuel : nat) (c : cursor) (g : captures) (k : cont) : option answer :=
  match fuel with
  | O => k c g
  | S fuel' =>
    match once c g (fun c' g' =>
                      if progress c c' then star_loop once fuel' c' g' k else None) with
    | Some x => Some x
    | None => k c g
    end
  end.

(** Lazy repetition: the continuation first. *)
Fixpoint lazy_loop (once : cursor -> captures -> cont -> option answer)
    (fuel : nat) (c : cursor) (g : captures) (k : cont) : option answer :=
  match fuel with
  | O => k c g
  | S fuel' =>
    match k c g with
    | Some x => Some x
    | None =>
      once c g (fun c' g' =>
                  if progress c c' then lazy_loop once fuel' c' g' k else None)
    end
  end.

Fixpoint run_re (r : re) (c : cursor) (g : captures) (k : cont) : option answer :=
  match r with
  | Eps => k c g
  | Chr p =>
    match rest c with
    | a :: t => if p a then k {| seen := a :: seen c; rest := t |} g else None
    | [] => None
    end
  | Seq r1 r2 => run_re r1 c g (fun c' g' => run_re r2 c' g' k)
  | Alt r1 r2 =>
    match run_re r1 c g k with
    | Some x => Some x
    | None => run_re r2 c g k
    end
  | Star r' => star_loop (run_re r') (length (rest c)) c g k
  | LazyStar r' => lazy_loop (run_re r') (length (rest c)) c g k
  | Group n r' => run_re r' c g (fun c' g' => k c' ((n, passed c c') :: g'))
  | Bol => match seen c with [] => k c g | _ => None end
  | Eol =>
    match rest c with
    | [] => k c g
    | [a] => if ascii_eqb a LF then k c g else None
    | _ => None
    end
  | BolM =>
    match seen c with
    | [] => k c g
    | a :: _ => if ascii_eqb a LF then k c g else None
    end
  | EolM =>
    match rest c with
    | [] => k c g
    | a :: _ => if ascii_eqb a LF then k c g else None
    end
  | WordB => if at_word_boundary c then k c g else None
  end.

Definition accept : cont := fun c g => Some (c, g).

(** A match of [r] beginning at the position [c]. *)
Definition match_at (r : re) (c : cursor) : option answer := run_re r c [] accept.

(** [match.group(n)] *)
Definition group (n : nat) (g : captures) : str :=
  match List.find (fun e => (fst e =? n)%nat) g with
  | Some e => snd e
  | None => []
  end.

(** [re.match(r, s)] *)
Definition re_match (r : re) (s : str) : option answer := match_at r (at_start s).

(** [re.search(r, s)]: the leftmost position with a match.  The result
    holds the positions where the match begins and ends. *)
Fixpoint search_from (r : re) (fuel : nat) (c : cursor) : option (cursor * answer) :=
  match match_at r c with
  | Some a => Some (c, a)
  | None =>
    match fuel, advance c with
    | S fuel', Some c' => search_from r fuel' c'
    | _, _ => None
    end
  end.

Definition re_search (r : re) (s : str) : option (cursor * answer) :=
  search_from r (length s) (at_start s).

(** [len(re.findall(r, s))]: matches are taken left to right without
    overlap; after an empty match the scan moves on by one character. *)
Fixpoint count_from (r : re) (fuel : nat) (c : cursor) : nat :=
  match fuel with
  | O => 0
  | S fuel' =>
    match match_at r c with
    | Some (c', _) =>
      if progress c c' then S (count_from r fuel' c')
      else match advance c with
           | Some c1 => S (count_from r fuel' c1)
           | None => 1
           end
    | None =>
      match advance c with
      | Some c1 => count_from r fuel' c1
      | None => 0
      end
    end
  end.

Definition findall_count (r : re) (s : str) : nat :=
  count_from r (S (length s)) (at_start s).

(** [len(match.groups())]: the number of capturing groups. *)
Fixpoint group_count (r : re) : nat :=
  match r with
  | Seq r1 r2 | Alt r1 r2 => group_count r1 + group_count r2
  | Star r' | LazyStar r' => group_count r'
  | Group _ r' => S (group_count r')
  | _ => 0
  end.

(** [match.group(0)] *)
Definition whole_match (mt : cursor * answer) : str := passed (fst mt) (fst (snd mt)).

End Regex.

Import Regex.

(** ** [common/text_processor.py]: fixed-window chunking *)

Module TextProcessor.

(** [chunk_text(text, chunk_size=400, overlap=0)] *)
Definition chunk_text (text : str) (chunk_size overlap : Z) : result (list str) :=
  match text with
  | [] => Ok []
  | _ =>
    let text := remove_char CR text in
    match range 0 (len text) (chunk_size - overlap) with
    | Raise e => Raise e
    | Ok idx =>
      Ok (List.filter (fun chunk => negb (str_eqb chunk []))
            (List.map (fun i => slice text i (i + chunk_size)) idx))
    end
  end.

(** The text read back from overlapping chunks: the first chunk whole,
    every later chunk without its first [overlap] characters. *)
Definition drop_overlap (overlap : Z) (chunks : list str) : str :=
  match chunks with
  | [] => []
  | c :: cs => c ++ concat (List.map (skipn (Z.to_nat overlap)) cs)
  end.

(** *** Chunks *)

(** Values stored under the [metadata] key of a chunk. *)
Inductive mval :=
| MInt (z : Z)
| MBool (b : bool)
| MStr (s : str)
| MSpeakers (l : gset str)
| MRange (lo hi : Z).

(** A chunk dictionary.  [speakers] and [turn_range] are present for
    speaker-turn chunks only.  [list(chunk_speakers)] has no specified
    order, so the speakers stay a set. *)
Record chunk := {
  content : str;
  chunk_type : str;
  speakers : option (gset str);
  turn_range : option (Z * Z);
  metadata : list (str * mval)
}.

Definition plain_chunk (c ty : str) (md : list (str * mval)) : chunk :=
  {| content := c; chunk_type := ty; speakers := None; turn_range := None;
     metadata := md |}.

(** *** Speaker-turn chunking *)

Definition alpha_or_space (a : ascii) : bool := isalpha a || isspace a.
Definition upper_or_underscore (a : ascii) : bool := isupper a || ascii_eqb a "_"%char.

(** The four [speaker_patterns] of [chunk_by_speaker].  Each pattern is
    quoted above its definition with its tokens spaced out. *)
(** ^ ( [A-Z] [a-zA-Z\s]+ [a-zA-Z] ) : \s* ( .+ ) $ *)
Definition speaker_name_colon : re :=
  seq_of [ Bol;
           Group 1 (seq_of [Chr isupper; Plus (Chr alpha_or_space); Chr isalpha]);
           char ":"; Star space; Group 2 (Plus dot); Eol ].
(** ^ \[? ( [A-Z_]+ \s? \d* ) \]? : \s* ( .+ ) $ *)
Definition speaker_label_colon : re :=
  seq_of [ Bol; Opt (char "[");
           Group 1 (seq_of [Plus (Chr upper_or_underscore); Opt space; Star digit]);
           Opt (char "]"); char ":"; Star space; Group 2 (Plus dot); Eol ].
(** ^ \[ ( [^\]]+ ) \] \s* ( [A-Za-z] .+ ) $ *)
Definition speaker_bracketed : re :=
  seq_of [ Bol; char "["; Group 1 (Plus (not_char "]")); char "]"; Star space;
           Group 2 (seq_of [Chr isalpha; Plus dot]); Eol ].
(** ^ ( [A-Za-z\s]+ ) \s* - \s* ( .+ ) $ *)
Definition speaker_name_dash : re :=
  seq_of [ Bol; Group 1 (Plus (Chr alpha_or_space)); Star space; char "-";
           Star space; Group 2 (Plus dot); Eol ].

Definition speaker_patterns : list re :=
  [speaker_name_colon; speaker_label_colon; speaker_bracketed; speaker_name_dash].

(** The first pattern that matches the line, with [group(1).strip()] and
    [group(2).strip()]. *)
Definition match_speaker (line : str) : option (str * str) :=
  match find_map (fun pattern => re_match pattern line) speaker_patterns with
  | Some (_, g) => Some (strip (group 1 g), strip (group 2 g))
  | None => None
  end.

Record turn := { speaker : str; text : str; turn_index : nat }.

Record turn_state := {
  turns : list turn;
  current_speaker : option str;
  current_text : list str
}.

Definition truthy_str (o : option str) : bool :=
  match o with Some (_ :: _) => true | _ => false end.

(** [if current_speaker and current_text: turns.append(...)] *)
Definition save_turn (st : turn_state) : list turn :=
  match current_speaker st with
  | Some sp =>
    if nonempty sp && nonempty (current_text st)
    then turns st ++ [ {| speaker := sp;
                          text := strip (join (lit " ") (current_text st));
                          turn_index := length (turns st) |} ]
    else turns st
  | None => turns st
  end.

(** One line of the turn-extraction loop. *)
Definition turn_step (st : turn_state) (line : str) : turn_state :=
  let line := strip line in
  match line with
  | [] => st
  | _ =>
    match match_speaker line with
    | Some (sp, tx) =>
      {| turns := save_turn st; current_speaker := Some sp; current_text := [tx] |}
    | None =>
      match current_text st with
      | _ :: _ =>
        {| turns := turns st; current_speaker := current_speaker st;
           current_text := current_text st ++ [line] |}
      | [] =>
        {| turns := turns st;
           current_speaker := if truthy_str (current_speaker st)
                              then current_speaker st
                              else Some (lit "Unknown Speaker");
           current_text := [line] |}
      end
    end
  end.

Definition extract_turns (text : str) : list turn :=
  save_turn (fold_left turn_step (split_char LF text)
               {| turns := []; current_speaker := None; current_text := [] |}).

Definition turn_text (t : turn) : str := speaker t ++ lit ": " ++ text t.

Definition dummy_turn : turn := {| speaker := []; text := []; turn_index := 0 |}.

(** The context lines put in front of the chunk that starts at
    [start_turn]. *)
Definition context_turns (all_turns : list turn) (speaker_overlap : Z)
    (start_turn : nat) : list str :=
  if (0 <? speaker_overlap) && (0 <? start_turn)%nat
  then
    let context_start := Z.to_nat (Z.max 0 (Z.of_nat start_turn - speaker_overlap)) in
    List.map (fun j =>
                let context_turn := nth j all_turns dummy_turn in
                lit "[Context] " ++ speaker context_turn ++ lit ": "
                ++ slice (text context_turn) 0 100 ++ lit "...")
             (seq context_start (start_turn - context_start))
  else [].

Record chunk_state := {
  chunks : list chunk;
  current_chunk : list str;
  current_size : Z;
  chunk_speakers : gset str;
  start_turn : nat
}.

Definition speaker_chunk (all_turns : list turn) (speaker_overlap : Z)
    (st : chunk_state) (last_turn : Z) : chunk :=
  let ctx := context_turns all_turns speaker_overlap (start_turn st) in
  let chunk_content := join [LF] (ctx ++ current_chunk st) in
  {| content := chunk_content;
     chunk_type := lit "speaker_based";
     speakers := Some (chunk_speakers st);
     turn_range := Some (Z.of_nat (start_turn st), last_turn);
     metadata :=
       [ (lit "turn_count", MInt (Z.of_nat (length (current_chunk st))));
         (lit "has_context", MBool (nonempty ctx));
         (lit "primary_speakers", MSpeakers (chunk_speakers st));
         (lit "size", MInt (len chunk_content)) ] |}.

(** One turn of the chunking loop; [i] is the index of the turn. *)
Definition chunk_step (all_turns : list turn) (max_chunk_size speaker_overlap : Z)
    (st : chunk_state) (it : nat * turn) : chunk_state :=
  let (i, t) := it in
  let turn_size := len (turn_text t) in
  let st :=
    if (max_chunk_size <? current_size st + turn_size) && nonempty (current_chunk st)
    then {| chunks := chunks st
                      ++ [speaker_chunk all_turns speaker_overlap st (Z.of_nat i - 1)];
            current_chunk := []; current_size := 0; chunk_speakers := ∅;
            start_turn := i |}
    else st in
  {| chunks := chunks st;
     current_chunk := current_chunk st ++ [turn_text t];
     current_size := current_size st + turn_size + 1;
     chunk_speakers := chunk_speakers st ∪ {[ speaker t ]};
     start_turn := start_turn st |}.

Definition enumerate {A} (l : list A) : list (nat * A) :=
  combine (seq 0 (length l)) l.

(** The chunks built from the extracted turns. *)
Definition chunk_turns (all_turns : list turn) (max_chunk_size speaker_overlap : Z)
  : list chunk :=
  let st := fold_left (chunk_step all_turns max_chunk_size speaker_overlap)
              (enumerate all_turns)
              {| chunks := []; current_chunk := []; current_size := 0;
                 chunk_speakers := ∅; start_turn := 0 |} in
  match current_chunk st with
  | [] => chunks st
  | _ => chunks st ++ [speaker_chunk all_turns speaker_overlap st
                         (Z.of_nat (length all_turns) - 1)]
  end.

(** [chunk_by_speaker(text, max_chunk_size=1000, speaker_overlap=1)] *)
Definition chunk_by_speaker (text : str) (max_chunk_size speaker_overlap : Z)
  : result (list chunk) :=
  match text with
  | [] => Ok []
  | _ =>
    match extract_turns text with
    | [] =>
      match chunk_text text max_chunk_size 0 with
      | Raise e => Raise e
      | Ok regular_chunks =>
        Ok (List.map (fun c =>
                        {| content := c;
                           chunk_type := lit "fallback";
                           speakers := Some {[ lit "Unknown" ]};
                           turn_range := Some (0, 0);
                           metadata := [ (lit "original_size", MInt (len c)) ] |})
                     regular_chunks)
      end
    | all_turns => Ok (chunk_turns all_turns max_chunk_size speaker_overlap)
    end
  end.

(** *** Enhanced paragraph-based chunking *)

Record adaptive_config := {
  max_chunk_size : Z;
  speaker_overlap : Z;
  semantic_threshold : Q;
  min_chunk_size : Z
}.

Definition default_config : adaptive_config :=
  {| max_chunk_size := 800; speaker_overlap := 1;
     semantic_threshold := 7 # 10; min_chunk_size := 100 |}.

Record para_state := {
  p_chunks : list chunk;
  p_current_chunk : list str;
  p_current_size : Z
}.

Definition paragraph_chunk (pars : list str) (size lo hi : Z) : chunk :=
  plain_chunk (join [LF; LF] pars) (lit "paragraph_based")
    [ (lit "paragraph_count", MInt (Z.of_nat (length pars)));
      (lit "size", MInt size);
      (lit "paragraph_range", MRange lo hi) ].

Definition para_step (config : adaptive_config) (st : para_state)
    (ip : nat * str) : para_state :=
  let (i, paragraph) := ip in
  let para_size := len paragraph in
  if (max_chunk_size config <? p_current_size st + para_size)
     && nonempty (p_current_chunk st)
  then
    let emitted :=
      paragraph_chunk (p_current_chunk st) (p_current_size st)
        (Z.of_nat i - Z.of_nat (length (p_current_chunk st))) (Z.of_nat i - 1) in
    match p_current_chunk st with
    | _ :: _ :: _ =>
      let carried := List.last (p_current_chunk st) [] in
      {| p_chunks := p_chunks st ++ [emitted];
         p_current_chunk := [carried; paragraph];
         p_current_size := len carried + para_size + 2 |}
    | _ =>
      {| p_chunks := p_chunks st ++ [emitted];
         p_current_chunk := [paragraph];
         p_current_size := para_size |}
    end
  else
    {| p_chunks := p_chunks st;
       p_current_chunk := p_current_chunk st ++ [paragraph];
       p_current_size := p_current_size st + para_size + 2 |}.

(** [[p.strip() for p in text.split('\n\n') if p.strip()]] *)
Definition paragraphs_of (text : str) : list str :=
  List.filter nonempty (List.map strip (split_str [LF; LF] text)).

(** The chunks built from the paragraphs. *)
Definition chunk_paragraphs (config : adaptive_config) (paragraphs : list str)
  : list chunk :=
  let st := fold_left (para_step config) (enumerate paragraphs)
              {| p_chunks := []; p_current_chunk := []; p_current_size := 0 |} in
  match p_current_chunk st with
  | [] => p_chunks st
  | cur =>
    p_chunks st
    ++ [paragraph_chunk cur (len (join [LF; LF] cur))
          (Z.of_nat (length paragraphs) - Z.of_nat (length cur))
          (Z.of_nat (length paragraphs) - 1)]
  end.

(** [_chunk_by_paragraphs_enhanced(text, config)] *)
Definition _chunk_by_paragraphs_enhanced (text : str) (config : adaptive_config)
  : list chunk :=
  match paragraphs_of text with
  | [] => [plain_chunk text (lit "single_paragraph") [(lit "size", MInt (len text))]]
  | paragraphs => chunk_paragraphs config paragraphs
  end.

(** *** Structured-section chunking *)

Definition one_of (s : str) (a : ascii) : bool := existsb (ascii_eqb a) s.
Definition upper_or_space (a : ascii) : bool := isupper a || isspace a.

(** ^ ( #{1,6} \s+ .+ | [A-Z] [A-Z\s]+ | \d+ \. \s+ .+ | [-*+] \s+ .+ ) $ *)
Definition header_pattern : re :=
  seq_of [ Bol;
           Group 1 (alt_of
             [ seq_of [UpTo 5 (char "#"); Plus space; Plus dot];
               seq_of [Chr isupper; Plus (Chr upper_or_space)];
               seq_of [Plus digit; char "."; Plus space; Plus dot];
               seq_of [Chr (one_of (lit "-*+")); Plus space; Plus dot] ]);
           Eol ].

Record section_state := {
  s_chunks : list chunk;
  current_section : list str;
  s_current_size : Z;
  current_header : str
}.

Definition section_chunk (st : section_state) (size : Z) (truncated : bool) : chunk :=
  plain_chunk (join [LF] (current_section st)) (lit "structured_section")
    ([ (lit "header", MStr (current_header st));
       (lit "size", MInt size);
       (lit "line_count", MInt (Z.of_nat (length (current_section st)))) ]
     ++ if truncated then [(lit "truncated", MBool true)] else []).

Definition section_step (config : adaptive_config) (st : section_state)
    (line : str) : section_state :=
  let line_stripped := strip line in
  if match re_match header_pattern line_stripped with Some _ => true | None => false end
     && (len line_stripped <? 100)
  then
    {| s_chunks :=
         if nonempty (current_section st) && (min_chunk_size config <=? s_current_size st)
         then s_chunks st ++ [section_chunk st (s_current_size st) false]
         else s_chunks st;
       current_section := [line];
       s_current_size := len line;
       current_header := line_stripped |}
  else
    let st := {| s_chunks := s_chunks st;
                 current_section := current_section st ++ [line];
                 s_current_size := s_current_size st + len line + 1;
                 current_header := current_header st |} in
    if max_chunk_size config <? s_current_size st
    then {| s_chunks := s_chunks st ++ [section_chunk st (s_current_size st) true];
            current_section := []; s_current_size := 0; current_header := [] |}
    else st.

(** [_chunk_structured_document(text, config)] *)
Definition _chunk_structured_document (text : str) (config : adaptive_config)
  : list chunk :=
  let st := fold_left (section_step config) (split_char LF text)
              {| s_chunks := []; current_section := []; s_current_size := 0;
                 current_header := [] |} in
  let all :=
    match current_section st with
    | [] => s_chunks st
    | _ => s_chunks st
           ++ [section_chunk st (len (join [LF] (current_section st))) false]
    end in
  match all with
  | [] => [plain_chunk text (lit "structured_fallback") [(lit "size", MInt (len text))]]
  | _ => all
  end.

(** *** Detection of the document shape *)

Definition transcript_keywords : list str :=
  [ lit "transcript"; lit "meeting"; lit "call"; lit "interview";
    lit "session"; lit "recording" ].

(** The four patterns counted by [_detect_meeting_transcript]. *)
(** \b [A-Z] [a-zA-Z\s]+ : \s *)
Definition name_colon : re :=
  seq_of [WordB; Chr isupper; Plus (Chr alpha_or_space); char ":"; space].
(** \b [A-Z_]+ \d* : \s *)
Definition label_colon : re :=
  seq_of [WordB; Plus (Chr upper_or_underscore); Star digit; char ":"; space].
(** \[ [^\]]+ \] \s* [A-Z] *)
Definition bracketed_then_upper : re :=
  seq_of [char "["; Plus (not_char "]"); char "]"; Star space; Chr isupper].
(** > \s* [A-Z] [a-zA-Z\s]+ : *)
Definition quoted_name_colon : re :=
  seq_of [char ">"; Star space; Chr isupper; Plus (Chr alpha_or_space); char ":"].

Definition detect_speaker_patterns : list re :=
  [name_colon; label_colon; bracketed_then_upper; quoted_name_colon].

(** [sum(len(re.findall(pattern, text)) for pattern in patterns)] *)
Definition count_matches (patterns : list re) (text : str) : nat :=
  list_sum (List.map (fun pattern => findall_count pattern text) patterns).

(** [len([line for line in text.split('\n') if line.strip()])] *)
Definition total_lines (text : str) : nat :=
  length (List.filter (fun line => nonempty (strip line)) (split_char LF text)).

(** [total > 0 and (matches / total) > threshold] *)
Definition ratio_exceeds (matches total : nat) (threshold : Q) : bool :=
  (0 <? total)%nat
  && Qlt_bool threshold (Z.of_nat matches # Pos.of_nat total).

(** [_detect_meeting_transcript(text, file_name)] *)
Definition _detect_meeting_transcript (text file_name : str) : bool :=
  if nonempty file_name
     && existsb (fun keyword => contains keyword (lower file_name)) transcript_keywords
  then true
  else ratio_exceeds (count_matches detect_speaker_patterns text) (total_lines text)
         (2 # 10).

(** The five patterns of [_detect_structured_document], under
    [re.MULTILINE]. *)
Definition structure_patterns : list re :=
  [ (* ^ #{1,6} \s+ .+ $ *)
    seq_of [BolM; UpTo 5 (char "#"); Plus space; Plus dot; EolM];
    (* ^ \d+ \. \s+ .+ $ *)
    seq_of [BolM; Plus digit; char "."; Plus space; Plus dot; EolM];
    (* ^ [-*+] \s+ .+ $ *)
    seq_of [BolM; Chr (one_of (lit "-*+")); Plus space; Plus dot; EolM];
    (* ^ [A-Z] [A-Z\s]+ $ *)
    seq_of [BolM; Chr isupper; Plus (Chr upper_or_space); EolM];
    (* ^ \s* \| .+ \| \s* $ *)
    seq_of [BolM; Star space; char "|"; Plus dot; char "|"; Star space; EolM] ].

(** [_detect_structured_document(text)] *)
Definition _detect_structured_document (text : str) : bool :=
  ratio_exceeds (count_matches structure_patterns text) (total_lines text) (15 # 100).

(** The four patterns of [_detect_conversational_content], under
    [re.IGNORECASE]. *)
Definition conversation_patterns : list re :=
  [ (* \? \s* $ *)
    seq_of [char "?"; Star space; Eol];
    (* \b ( Q: | A: | Question: | Answer: ) *)
    seq_of [WordB; Group 1 (alt_of [literal_i (lit "Q:"); literal_i (lit "A:");
                                    literal_i (lit "Question:"); literal_i (lit "Answer:")])];
    (* \b ( well | so | actually | basically | you know ) \b *)
    seq_of [WordB; Group 1 (alt_of [literal_i (lit "well"); literal_i (lit "so");
                                    literal_i (lit "actually"); literal_i (lit "basically");
                                    literal_i (lit "you know")]); WordB];
    (* \b ( I think | I believe | In my opinion ) \b *)
    seq_of [WordB; Group 1 (alt_of [literal_i (lit "I think"); literal_i (lit "I believe");
                                    literal_i (lit "In my opinion")]); WordB] ].

(** [_detect_conversational_content(text)] *)
Definition _detect_conversational_content (text : str) : bool :=
  ratio_exceeds (count_matches conversation_patterns text) (length (split_ws text))
    (5 # 100).

(** *** Adaptive strategy selection *)

Section Adaptive.
(** [chunk_by_semantic_similarity] groups sentences by the cosine
    similarity of vectors returned by the embedding service; it is a
    parameter of the selection. *)
Variable chunk_by_semantic_similarity : str -> Q -> Z -> result (list chunk).

(** [adaptive_chunk_text(text, file_name, mime_type, config)];
    [config] is [default_config] after the caller's update. *)
Definition adaptive_chunk_text (text file_name mime_type : str)
    (config : adaptive_config) : result (list chunk) :=
  match text with
  | [] => Ok []
  | _ =>
    let is_meeting_transcript := _detect_meeting_transcript text file_name in
    let is_structured_document := _detect_structured_document text in
    let is_conversational := _detect_conversational_content text in
    if is_meeting_transcript
    then chunk_by_speaker text (max_chunk_size config) (speaker_overlap config)
    else if is_structured_document
    then Ok (_chunk_structured_document text config)
    else if is_conversational
    then chunk_by_semantic_similarity text (semantic_threshold config)
           (max_chunk_size config)
    else Ok (_chunk_by_paragraphs_enhanced text config)
  end.
End Adaptive.

End TextProcessor.

(** ** [insights/enhanced/business_insights_engine.py]: quality control *)

Module Insights.

(** The values of the enumeration [BusinessInsightType], in declaration
    order. *)
Definition BusinessInsightType_values : list str :=
  [ lit "action_item"; lit "decision"; lit "risk"; lit "opportunity";
    lit "milestone"; lit "blocker"; lit "dependency"; lit "budget_impact";
    lit "timeline_change"; lit "stakeholder_concern"; lit "technical_debt";
    lit "resource_need"; lit "compliance_issue"; lit "strategic_pivot";
    lit "performance_metric" ].

(** The fields of the dataclass [EnhancedBusinessInsight] that the quality
    stage reads.  The remaining fields (assignee, dates, quotes, ...) are
    carried along unchanged and never inspected by it. *)
Record EnhancedBusinessInsight := {
  document_id : str;
  insight_type : str;
  title : str;
  description : str;
  confidence_score : Q;
  severity : str;
  financial_impact : option Q;
  urgency_indicators : option (list str);
  critical_path_impact : bool
}.

(** Truth value of an [Optional[Decimal]]: [None] and zero are false. *)
Definition truthy_decimal (d : option Q) : bool :=
  match d with
  | Some q => negb (Qeq_bool q 0%Q)
  | None => false
  end.

(** Truth value of an [Optional[List[str]]]: [None] and [[]] are false. *)
Definition truthy_list (l : option (list str)) : bool :=
  match l with
  | Some (_ :: _) => true
  | _ => false
  end.

Definition obvious_routine : list str :=
  [ lit "meeting held"; lit "meeting scheduled"; lit "attendees present";
    lit "agenda reviewed"; lit "minutes taken"; lit "next meeting";
    lit "will follow up"; lit "will check back" ].

(** [_is_obviously_routine]: the loop returns at the first indicator that
    occurs in the text. *)
Definition _is_obviously_routine (insight : EnhancedBusinessInsight) : bool :=
  let text_to_check := lower (title insight ++ lit " " ++ description insight) in
  match List.find (fun indicator => contains indicator text_to_check) obvious_routine with
  | Some _ =>
    if truthy_decimal (financial_impact insight)
       || critical_path_impact insight
       || str_eqb (severity insight) (lit "critical")
       || truthy_list (urgency_indicators insight)
    then false
    else true
  | None => false
  end.

(** [_calculate_similarity]: Jaccard index of the two word sets. *)
Definition words_of (text : str) : gset str :=
  list_to_set (split_ws (lower text)).

Definition _calculate_similarity (text1 text2 : str) : Q :=
  match text1, text2 with
  | [], _ | _, [] => 0%Q
  | _, _ =>
    let words1 := words_of text1 in
    let words2 := words_of text2 in
    if (size words1 =? 0)%nat || (size words2 =? 0)%nat then 0%Q
    else
      let intersection := words1 ∩ words2 in
      let union := words1 ∪ words2 in
      if (size union =? 0)%nat then 0%Q
      else Z.of_nat (size intersection) # Pos.of_nat (size union)
  end.

(** Field-wise equality, as the [__eq__] generated for a dataclass. *)
Definition insight_eqb (a b : EnhancedBusinessInsight) : bool :=
  str_eqb (document_id a) (document_id b)
  && str_eqb (insight_type a) (insight_type b)
  && str_eqb (title a) (title b)
  && str_eqb (description a) (description b)
  && Qeq_bool (confidence_score a) (confidence_score b)
  && str_eqb (severity a) (severity b)
  && option_eqb Qeq_bool (financial_impact a) (financial_impact b)
  && option_eqb (list_eqb str_eqb) (urgency_indicators a) (urgency_indicators b)
  && Bool.eqb (critical_path_impact a) (critical_path_impact b).

(** [l.remove(x)]: drops the first element equal to [x].  The only call
    passes an element of the list, so the [ValueError] of a missing
    element cannot occur. *)
Fixpoint list_remove (x : EnhancedBusinessInsight) (l : list EnhancedBusinessInsight)
  : list EnhancedBusinessInsight :=
  match l with
  | [] => []
  | y :: l' => if insight_eqb y x then l' else y :: list_remove x l'
  end.

(** The duplicate test of [_remove_duplicate_insights]. *)
Definition is_similar (insight existing : EnhancedBusinessInsight) : bool :=
  let title_similarity := _calculate_similarity (title insight) (title existing) in
  let desc_similarity := _calculate_similarity (description insight) (description existing) in
  Qlt_bool (7 # 10) title_similarity || Qlt_bool (8 # 10) desc_similarity.

(** One iteration of the outer loop: the inner loop stops at the first
    similar element of [unique_insights]. *)
Definition dedup_step (unique_insights : list EnhancedBusinessInsight)
    (insight : EnhancedBusinessInsight) : list EnhancedBusinessInsight :=
  match List.find (is_similar insight) unique_insights with
  | Some existing =>
    if Qlt_bool (confidence_score existing) (confidence_score insight)
    then list_remove existing unique_insights ++ [insight]
    else unique_insights
  | None => unique_insights ++ [insight]
  end.

(** [_remove_duplicate_insights] *)
Definition _remove_duplicate_insights (insights : list EnhancedBusinessInsight)
  : list EnhancedBusinessInsight :=
  if (length insights <=? 1)%nat then insights
  else fold_left dedup_step insights [].

(** The quality test of the filtering loop of [_filter_and_rank_insights]. *)
Definition passes_quality (insight : EnhancedBusinessInsight) : bool :=
  Qle_bool (7 # 10) (confidence_score insight)
  && (10 <=? len (title insight))
  && (20 <=? len (description insight))
  && str_in (insight_type insight) BusinessInsightType_values
  && (str_in (severity insight) [lit "critical"; lit "high"; lit "medium"]
      || truthy_decimal (financial_impact insight)
      || critical_path_impact insight)
  && negb (_is_obviously_routine insight).

(** [severity_order.get(severity, 1)] *)
Definition severity_order (sev : str) : Q :=
  (if str_eqb sev (lit "critical") then 4
   else if str_eqb sev (lit "high") then 3
   else if str_eqb sev (lit "medium") then 2
   else 1)%Q.

(** The ranking key [insight_score], as the product of the exact values
    of its factors.  Python evaluates the product in binary64, and the
    rounding can order two insights otherwise than their exact products
    do: what is stated about the order of the output is therefore stated
    of [filter_and_rank_by], for every key. *)
Definition insight_score (insight : EnhancedBusinessInsight) : Q :=
  let severity_score := severity_order (severity insight) in
  let urgency_score := (if truthy_list (urgency_indicators insight) then 13 # 10 else 1)%Q in
  let financial_score := (if truthy_decimal (financial_impact insight) then 3 # 2 else 1)%Q in
  let critical_path_score := (if critical_path_impact insight then 2 else 1)%Q in
  (severity_score * confidence_score insight * urgency_score * financial_score
   * critical_path_score)%Q.

(** [sorted(l, key=key, reverse=True)]: a stable sort into descending key
    order, so elements with equal keys keep their original order. *)
Section Sorted.
Context {A : Type} (key : A -> Q).

Fixpoint insert_desc (x : A) (l : list A) : list A :=
  match l with
  | [] => [x]
  | y :: l' =>
    if Qlt_bool (key x) (key y) then y :: insert_desc x l' else x :: y :: l'
  end.

Definition sorted_desc (l : list A) : list A := fold_right insert_desc [] l.
End Sorted.

Definition max_insights : nat := 5.

(** The body of [_filter_and_rank_insights], with the ranking key as a
    parameter. *)
Definition filter_and_rank_by (score : EnhancedBusinessInsight -> Q)
    (insights : list EnhancedBusinessInsight) : list EnhancedBusinessInsight :=
  match insights with
  | [] => []
  | _ =>
    let high_quality_insights := List.filter passes_quality insights in
    let deduplicated_insights := _remove_duplicate_insights high_quality_insights in
    let ranked_insights := sorted_desc score deduplicated_insights in
    firstn max_insights ranked_insights
  end.

(** [_filter_and_rank_insights] *)
Definition _filter_and_rank_insights
  : list EnhancedBusinessInsight -> list EnhancedBusinessInsight :=
  filter_and_rank_by insight_score.

(** [save_insights_to_database]: one insert per insight; a failed or
    raising insert is logged and skipped.  [insert_ok] is the outcome of
    the store for each row; the result is the list of rows written. *)
Definition save_insights_to_database (insert_ok : EnhancedBusinessInsight -> bool)
    (insights : list EnhancedBusinessInsight) : list EnhancedBusinessInsight :=
  List.filter insert_ok insights.

(** *** Parsing the model's answer *)

(** Python values as [json.loads] builds them.  An object is an
    association list with distinct keys. *)
Inductive json :=
| JNull
| JBool (b : bool)
| JNum (q : Q)
| JStr (s : str)
| JArr (items : list json)
| JObj (fields : list (str * json)).

Definition is_dict (v : json) : bool :=
  match v with JObj _ => true | _ => false end.

(** Whether [len(v)] is defined. *)
Definition has_len (v : json) : bool :=
  match v with JStr _ | JArr _ | JObj _ => true | _ => false end.

(** [d.get(key)] and [d[key] = v] *)
Fixpoint dict_get (key : str) (fields : list (str * json)) : option json :=
  match fields with
  | [] => None
  | (k, v) :: rest => if str_eqb k key then Some v else dict_get key rest
  end.

Fixpoint dict_set (key : str) (v : json) (fields : list (str * json))
  : list (str * json) :=
  match fields with
  | [] => [(key, v)]
  | (k, w) :: rest =>
    if str_eqb k key then (k, v) :: rest else (k, w) :: dict_set key v rest
  end.

(** [_create_fallback_insights] *)
Definition stub (ty ti de sev : string) (conf : Q) : json :=
  JObj [ (lit "insight_type", JStr (lit ty)); (lit "title", JStr (lit ti));
         (lit "description", JStr (lit de)); (lit "severity", JStr (lit sev));
         (lit "confidence_score", JNum conf) ].

Definition budget_stub : json :=
  stub "budget_impact" "Financial Impact Identified"
    "Document contains financial implications that require review." "medium" (6 # 10).
Definition urgent_stub : json :=
  stub "risk" "Urgent Issue Identified"
    "Document contains urgent or critical issues requiring attention." "high" (7 # 10).
Definition action_stub : json :=
  stub "action_item" "Action Items Identified"
    "Document contains action items or tasks that need to be completed." "medium" (6 # 10).

Definition _create_fallback_insights (response_text : str) : list json :=
  let text_lower := lower response_text in
  (if contains (lit "$") response_text || contains (lit "budget") text_lower
      || contains (lit "cost") text_lower
   then [budget_stub] else [])
  ++ (if existsb (fun word => contains word text_lower)
           [lit "urgent"; lit "critical"; lit "emergency"; lit "immediate"]
      then [urgent_stub] else [])
  ++ (if existsb (fun word => contains word text_lower)
           [lit "action"; lit "todo"; lit "task"; lit "deadline"]
      then [action_stub] else []).

(** The first run of digits of [s] and its value: the first element of
    [re.findall] for the class of digits and commas, on a text without
    commas. *)
Fixpoint digits_value (acc : Z) (s : str) : Z * str :=
  match s with
  | a :: s' =>
    if isdigit a then digits_value (10 * acc + Z.of_nat (nat_of_ascii a - 48)) s'
    else (acc, s)
  | [] => (acc, [])
  end.

Fixpoint first_number (s : str) : option Z :=
  match s with
  | [] => None
  | a :: s' => if isdigit a then Some (fst (digits_value 0 s)) else first_number s'
  end.

Definition quote_chars : str := [ascii_of_nat 34; ascii_of_nat 39].

Section Parser.
(** [json.loads]: on a text that is not JSON it raises
    [json.JSONDecodeError]; it can raise other exceptions as well, such
    as [RecursionError] on deeply nested brackets, and these the
    handlers of the parser, which name [json.JSONDecodeError], do not
    catch. *)
Variable json_loads : str -> result json.
(** [float] on a string; [None] stands for [ValueError]. *)
Variable py_float : str -> option Q.

Record text_state := {
  insights : list json;
  current_insight : list (str * json)
}.

(** One line of the loop of [_parse_insights_from_text]. *)
Definition text_step (st : text_state) (line : str) : text_state :=
  let line := strip line in
  match line, partition_char ":"%char line with
  | _ :: _, Some (key, value) =>
    let key := replace_char " "%char "_"%char (lower (strip key)) in
    let value := strip_chars quote_chars (strip value) in
    let set k v := {| insights := insights st;
                      current_insight := dict_set (lit k) v (current_insight st) |} in
    if str_in key [lit "type"; lit "insight_type"]
    then {| insights := match current_insight st with
                        | [] => insights st
                        | cur => insights st ++ [JObj cur]
                        end;
            current_insight := [(lit "insight_type", JStr value)] |}
    else if str_in key [lit "title"] then set "title" (JStr value)
    else if str_in key [lit "description"] then set "description" (JStr value)
    else if str_in key [lit "severity"; lit "priority"] then set "severity" (JStr value)
    else if str_in key [lit "confidence"; lit "confidence_score"]
    then set "confidence_score"
           (JNum match py_float value with Some q => q | None => 7 # 10 end)
    else if str_in key [lit "assignee"; lit "assigned_to"] then set "assignee" (JStr value)
    else if str_in key [lit "financial_impact"]
    then match first_number (remove_char ","%char (remove_char "$"%char value)) with
         | Some n => set "financial_impact" (JNum (inject_Z n))
         | None => st
         end
    else st
  | _, _ => st
  end.

(** [_parse_insights_from_text] *)
Definition _parse_insights_from_text (response_text : str) : list json :=
  let st := fold_left text_step (split_char LF response_text)
              {| insights := []; current_insight := [] |} in
  let found :=
    match current_insight st, dict_get (lit "title") (current_insight st) with
    | _ :: _, Some _ => insights st ++ [JObj (current_insight st)]
    | _, _ => insights st
    end in
  match found with
  | [] => _create_fallback_insights response_text
  | _ => found
  end.

Definition any_char : re := Chr (fun _ => true).
Definition backticks : re := literal (lit "```").

(** The three [json_patterns], searched under [re.DOTALL]. *)
(** ```json \s* ( [\s\S]*? ) \s* ``` *)
Definition fenced_json : re :=
  seq_of [ literal (lit "```json"); Star space; Group 1 (LazyStar any_char);
           Star space; backticks ].
(** ``` \s* ( [\s\S]*? ) \s* ``` *)
Definition fenced : re :=
  seq_of [ backticks; Star space; Group 1 (LazyStar any_char); Star space;
           backticks ].
(** \[ \s* \{ [\s\S]*? \} \s* \] *)
Definition array_of_objects : re :=
  seq_of [ char "["; Star space; char "{"; LazyStar any_char; char "}";
           Star space; char "]" ].

Definition json_patterns : list re := [fenced_json; fenced; array_of_objects].

(** One round of the loop over [json_patterns]: the valid insights the
    pattern yields, or [None] when the loop goes on to the next one.
    The handler of the round catches [json.JSONDecodeError] only. *)
Definition try_pattern (response_text : str) (pattern : re)
  : result (option (list json)) :=
  match re_search pattern response_text with
  | None => Ok None
  | Some json_match =>
    let json_text :=
      if (0 <? group_count pattern)%nat
      then strip (group 1 (snd (snd json_match)))
      else strip (whole_match json_match) in
    match json_loads json_text with
    | Ok (JArr (x :: l)) =>
      match List.filter is_dict (x :: l) with
      | [] => Ok None
      | valid_insights => Ok (Some valid_insights)
      end
    | Ok _ => Ok None
    | Raise JSONDecodeError => Ok None
    | Raise e => Raise e
    end
  end.

(** The loop over the patterns: it ends at the first pattern that
    yields insights, or with the exception of a round. *)
Fixpoint first_valid (response_text : str) (patterns : list re)
  : result (option (list json)) :=
  match patterns with
  | [] => Ok None
  | pattern :: rest =>
    match try_pattern response_text pattern with
    | Ok None => first_valid response_text rest
    | answer => answer
    end
  end.

(** [_parse_insights_json]; the value returned is a Python object. *)
Definition _parse_insights_json (response_text : str) : result json :=
  match json_loads response_text with
  | Ok (JArr l) => Ok (JArr l)
  | Ok (JObj fields) =>
    match dict_get (lit "insights") fields with
    | Some v => if has_len v then Ok v else Raise TypeError
    | None => Ok (JArr [])
    end
  | Ok _ => Ok (JArr [])
  | Raise JSONDecodeError =>
    match first_valid response_text json_patterns with
    | Ok (Some valid_insights) => Ok (JArr valid_insights)
    | Ok None => Ok (JArr (_parse_insights_from_text response_text))
    | Raise e => Raise e
    end
  | Raise e => Raise e
  end.

(** The end of [_extract_insights_with_gpt]: the answer of the model
    is stripped and parsed inside [try]; any exception gives [[]]. *)
Definition parse_model_answer (completion : result str) : json :=
  match completion with
  | Raise _ => JArr []
  | Ok content =>
    match _parse_insights_json (strip content) with
    | Ok v => v
    | Raise _ => JArr []
    end
  end.
End Parser.

End Insights.

(** ** [Supabase_Storage/storage_watcher.py]: change detection *)

Module Watcher.

Definition bytes := list Byte.byte.

(** The member [metadata] of a listing entry when it is a JSON object;
    the members that [process_file] reads are strings or absent. *)
Record file_metadata := {
  mimetype : option str;
  project_id : option str;
  meeting_id : option str
}.

Definition no_metadata : file_metadata :=
  {| mimetype := None; project_id := None; meeting_id := None |}.

(** One entry of a bucket listing, as built by [list_bucket_files].
    [metadata] is [item.get('metadata', {})]: the empty object when the
    storage item has no such member, and whatever the member holds
    otherwise.  [None] stands for a value that is not an object, such as
    the JSON null, which [list_bucket_files] hands through. *)
Record file_info := {
  bucket : str;
  name : str;
  created_at : option str;
  updated_at : option str;
  metadata : option file_metadata
}.

(** Calls to the collaborators, each logged with the answer it received. *)
Inductive event :=
| Download (bucket_name file_path : str) (answer : result bytes)
| DeleteDocument (file_id : str) (answer : result unit)
| ExtractText (file_path mime_type : str) (answer : result str)
| ProcessForRag (file_id file_hash : str) (answer : result bool)
| SaveState (last_check_time : Z) (known_files : gmap str str) (answer : bool)
| SaveLastCheckTime (last_check_time : Z) (answer : bool).

Definition trace := list event.

(** The collaborators: storage bucket, document store, text extraction,
    the RAG writer [process_file_for_rag] and the state manager.  Each
    answer may depend on everything that happened before. *)
Record services := {
  storage_download : trace -> str -> str -> result bytes;
  delete_document_by_file_id : trace -> str -> result unit;
  extract_text_from_file : trace -> bytes -> str -> str -> result str;
  process_file_for_rag : trace -> bytes -> str -> str -> str -> str -> result bool;
  state_manager_save_state : trace -> Z -> gmap str str -> bool;
  state_manager_update_last_check_time : trace -> Z -> bool;
  save_state_to_config : trace -> Z -> bool;
  (** [hashlib.sha256(content).hexdigest()] *)
  sha256_hexdigest : bytes -> str;
  (** [storage.from_(bucket).get_public_url(path)]: builds a string. *)
  get_public_url : str -> str -> str
}.

(** The watcher object: its configuration and its mutable fields, with
    the log of the calls made so far. *)
Record watcher := {
  dry_run : bool;
  has_state_manager : bool;
  supported_mime_types : list str;
  last_check_time : Z;
  known_files : gmap str str;
  calls : trace
}.

Definition set_known_files (k : gmap str str) (w : watcher) : watcher :=
  {| dry_run := dry_run w; has_state_manager := has_state_manager w;
     supported_mime_types := supported_mime_types w;
     last_check_time := last_check_time w;
     known_files := k; calls := calls w |}.

Definition log (e : event) (w : watcher) : watcher :=
  {| dry_run := dry_run w; has_state_manager := has_state_manager w;
     supported_mime_types := supported_mime_types w;
     last_check_time := last_check_time w;
     known_files := known_files w; calls := calls w ++ [e] |}.

(** Methods run in a state monad over the watcher; a raised exception
    propagates until a [try_except] catches it. *)
Definition M (A : Type) : Type := watcher -> result A * watcher.

Definition ret {A} (a : A) : M A := fun w => (Ok a, w).

Definition bind {A B} (m : M A) (f : A -> M B) : M B :=
  fun w =>
    match m w with
    | (Ok a, w') => f a w'
    | (Raise e, w') => (Raise e, w')
    end.

Definition try_except {A} (body : M A) (handler : exn -> M A) : M A :=
  fun w =>
    match body w with
    | (Ok a, w') => (Ok a, w')
    | (Raise e, w') => handler e w'
    end.

Definition raise {A} (e : exn) : M A := fun w => (Raise e, w).

Definition get : M watcher := fun w => (Ok w, w).

Definition modify (f : watcher -> watcher) : M unit := fun w => (Ok tt, f w).

(** Call a collaborator: the answer is logged, and an exception it
    raises is raised in the caller. *)
Definition call {A} (answer : trace -> result A) (ev : result A -> event) : M A :=
  fun w => let r := answer (calls w) in (r, log (ev r) w).

Notation "x <- m ;; k" := (bind m (fun x => k))
  (at level 100, m at next level, right associativity).
Notation "m ;;; k" := (bind m (fun _ => k))
  (at level 100, right associativity).

Section Methods.
Variable svc : services.

(** [compute_file_hash] *)
Definition compute_file_hash (file_content : bytes) : str :=
  sha256_hexdigest svc file_content.

(** [is_mime_type_supported] *)
Definition is_mime_type_supported (w : watcher) (mime_type : str) : bool :=
  str_in mime_type (supported_mime_types w).

(** [download_file]: an exception or an empty response gives [None]. *)
Definition download_file (bucket_name file_path : str) : M (option bytes) :=
  try_except
    (response <- call (fun t => storage_download svc t bucket_name file_path)
                      (Download bucket_name file_path) ;;
     match response with
     | [] => ret None
     | _ => ret (Some response)
     end)
    (fun _ => ret None).

(** [Path(file_path).name] on a POSIX system: the path is cut at its
    slashes, empty components and components that are a single dot are
    dropped, and the name is the last component left, or the empty
    string. *)
Definition path_parts (file_path : str) : list str :=
  List.filter (fun part => negb (str_eqb part []) && negb (str_eqb part (lit ".")))
    (split_char "/"%char file_path).

Definition path_name (file_path : str) : str :=
  List.last (path_parts file_path) [].

(** [s[s.rfind('.'):]] when [s] holds a dot. *)
Fixpoint from_last_dot (s : str) : option str :=
  match s with
  | [] => None
  | a :: s' =>
    match from_last_dot s' with
    | Some r => Some r
    | None => if ascii_eqb a "."%char then Some s else None
    end
  end.

(** [Path(file_path).suffix.lower()]: the suffix is the name from its
    last dot on, when that dot is neither the first nor the last
    character of the name (pathlib of CPython 3.11 to 3.13). *)
Definition path_suffix (file_path : str) : str :=
  match path_name file_path with
  | [] => []
  | _ :: behind_first =>
    match from_last_dot behind_first with
    | Some (dot :: a :: s) => lower (dot :: a :: s)
    | _ => []
    end
  end.

Definition mime_map : list (str * str) :=
  [ (lit ".pdf", lit "application/pdf");
    (lit ".txt", lit "text/plain");
    (lit ".md", lit "text/markdown");
    (lit ".csv", lit "text/csv");
    (lit ".json", lit "application/json");
    (lit ".html", lit "text/html");
    (lit ".docx", lit "application/vnd.openxmlformats-officedocument.wordprocessingml.document");
    (lit ".xlsx", lit "application/vnd.openxmlformats-officedocument.spreadsheetml.sheet");
    (lit ".mp3", lit "audio/mpeg");
    (lit ".wav", lit "audio/wav") ].

(** [mime_map.get(ext, 'application/octet-stream')] *)
Definition inferred_mime_type (file_path : str) : str :=
  match List.find (fun kv => str_eqb (fst kv) (path_suffix file_path)) mime_map with
  | Some kv => snd kv
  | None => lit "application/octet-stream"
  end.

(** [file_info.get('metadata', {}).get('mimetype')], and the type
    inferred from the extension when that is missing or empty.  On a
    [metadata] that is not an object the method call [.get] raises
    [AttributeError]. *)
Definition mime_type_of (fi : file_info) : result str :=
  match metadata fi with
  | None => Raise AttributeError
  | Some m =>
    Ok match mimetype m with
       | Some (a :: mt) => a :: mt
       | _ => inferred_mime_type (name fi)
       end
  end.

Definition file_id_of (fi : file_info) : str :=
  bucket fi ++ lit "/" ++ name fi.

(** [process_file].  The MIME type is determined before the [try]
    block, so the [AttributeError] of [mime_type_of] leaves the method. *)
Definition process_file (fi : file_info) : M bool :=
  let bucket_name := bucket fi in
  let file_path := name fi in
  let file_id := file_id_of fi in
  file_content <- download_file bucket_name file_path ;;
  match file_content with
  | None => ret false
  | Some file_content =>
    let file_hash := compute_file_hash file_content in
    w <- get ;;
    if option_eqb str_eqb (known_files w !! file_id) (Some file_hash)
    then ret true
    else
      match mime_type_of fi with
      | Raise e => raise e
      | Ok mime_type =>
      if negb (is_mime_type_supported w mime_type) then ret false
      else
        let file_url := get_public_url svc bucket_name file_path in
        if dry_run w then ret true
        else
          try_except
            ((match known_files w !! file_id with
              | Some _ =>
                call (fun t => delete_document_by_file_id svc t file_id)
                     (DeleteDocument file_id)
              | None => ret tt
              end) ;;;
             text <- call (fun t => extract_text_from_file svc t file_content mime_type file_path)
                          (ExtractText file_path mime_type) ;;
             match text with
             | [] => ret false
             | _ =>
               success <- call (fun t => process_file_for_rag svc t file_content text
                                           file_id file_url mime_type)
                               (ProcessForRag file_id file_hash) ;;
               if success
               then modify (fun w => set_known_files (<[file_id := file_hash]> (known_files w)) w) ;;;
                    ret true
               else ret false
             end)
            (fun _ => ret false)
      end
  end.

(** [save_last_check_time] *)
Definition save_last_check_time : M unit :=
  w <- get ;;
  if dry_run w then ret tt
  else if has_state_manager w
  then modify (fun w => log (SaveLastCheckTime (last_check_time w)
                               (state_manager_update_last_check_time svc (calls w) (last_check_time w))) w)
  else modify (fun w => log (SaveLastCheckTime (last_check_time w)
                               (save_state_to_config svc (calls w) (last_check_time w))) w).

(** [save_state] *)
Definition save_state : M unit :=
  w <- get ;;
  if dry_run w then ret tt
  else if has_state_manager w
  then modify (fun w => log (SaveState (last_check_time w) (known_files w)
                               (state_manager_save_state svc (calls w) (last_check_time w) (known_files w))) w)
  else save_last_check_time.

(** The processing loop shared by [backfill] and [watch_for_changes]:
    [for file_info in files: self.process_file(file_info)].  The loop
    has no handler: an exception of [process_file] ends it. *)
Fixpoint process_batch (files : list file_info) : M unit :=
  match files with
  | [] => ret tt
  | fi :: rest => process_file fi ;;; process_batch rest
  end.

(** [if max_files: all_files = all_files[:max_files]]: [None] and [0]
    leave the listing as it is, and a negative number cuts it from the
    end, as a slice does. *)
Definition limited (all_files : list file_info) (max_files : option Z) : list file_info :=
  match max_files with
  | Some k =>
    if k =? 0 then all_files
    else firstn (Z.to_nat (slice_bound (Z.of_nat (length all_files)) k)) all_files
  | None => all_files
  end.

(** [backfill(max_files)] on a listing [all_files]: the loop, then
    [save_state], which an exception in the loop leaves out. *)
Definition backfill (all_files : list file_info) (max_files : option Z) : M unit :=
  process_batch (limited all_files max_files) ;;; save_state.

End Methods.

(** The identity and fingerprint written by a run of [process_file]
    whose last call, [process_file_for_rag], reported success. *)
Definition rag_written (evs : trace) : option (str * str) :=
  match List.last evs (SaveLastCheckTime 0 false) with
  | ProcessForRag file_id file_hash (Ok true) => Some (file_id, file_hash)
  | _ => None
  end.

(** A fingerprint is stored for the file. *)
Definition has_fingerprint (w : watcher) (fi : file_info) : bool :=
  match known_files w !! file_id_of fi with Some _ => true | None => false end.

(** Reprocessing has started: for a file with a stored fingerprint
    ([known]) the first call is the deletion of the old version,
    followed, when it succeeded, by the text extraction; for any other
    file the first call is the text extraction. *)
Definition reprocessing_started (known : bool) (evs : trace) : bool :=
  match evs with
  | DeleteDocument _ (Raise _) :: _ => known
  | DeleteDocument _ (Ok _) :: ExtractText _ _ _ :: _ => known
  | ExtractText _ _ _ :: _ => negb known
  | _ => false
  end.

(** The same listing entry with other reported timestamps. *)
Definition set_timestamps (created updated : option str) (fi : file_info) : file_info :=
  {| bucket := bucket fi; name := name fi;
     created_at := created; updated_at := updated;
     metadata := metadata fi |}.

(** The watcher with another fingerprint map and more logged calls. *)
Definition after (w : watcher) (k : gmap str str) (evs : trace) : watcher :=
  {| dry_run := dry_run w; has_state_manager := has_state_manager w;
     supported_mime_types := supported_mime_types w;
     last_check_time := last_check_time w;
     known_files := k; calls := calls w ++ evs |}.

End Watcher.

(** ** Predicates and invariants used in the statements *)

Module Properties.

Import TextProcessor.

(** The [k]-th window of fixed-window chunking. *)
Definition window (text : str) (chunk_size step k : nat) : str :=
  firstn chunk_size (skipn (k * step) text).

(** Total size as the chunking loops count it: every piece and one
    separator of [k] characters behind it. *)
Definition counted (k : Z) (l : list str) : Z :=
  fold_right (fun x acc => len x + k + acc) 0 l.

(** What a finished speaker-turn chunk is: the turns [s .. s+n-1] behind
    the context lines of [s], tagged [speaker_based]; and it is one turn
    or within the limit once the context lines are left out. *)
Definition holds_turns (all_turns : list turn) (max_size overlap : Z) (c : chunk) : Prop :=
  exists s n : nat,
    (1 <= n)%nat /\ (s + n <= length all_turns)%nat /\
    turn_range c = Some (Z.of_nat s, Z.of_nat (s + n) - 1) /\
    chunk_type c = lit "speaker_based" /\
    let body := List.map turn_text (firstn n (skipn s all_turns)) in
    content c = join [LF] (context_turns all_turns overlap s ++ body) /\
    (n = 1%nat \/ len (join [LF] body) <= max_size).

(** The state of the speaker-turn loop before the turn of index [i]. *)
Definition speaker_inv (all_turns : list turn) (max_size overlap : Z)
    (i : nat) (st : chunk_state) : Prop :=
  (start_turn st <= i)%nat /\
  current_chunk st =
    List.map turn_text (firstn (i - start_turn st) (skipn (start_turn st) all_turns)) /\
  (0 < i -> start_turn st < i)%nat /\
  current_size st = counted 1 (current_chunk st) /\
  ((2 <= length (current_chunk st))%nat -> len (join [LF] (current_chunk st)) <= max_size) /\
  Forall (holds_turns all_turns max_size overlap) (chunks st).

(** What a finished paragraph chunk is: the paragraphs [lo .. lo+n-1];
    it is one paragraph, or two paragraphs of which the first may be the
    one carried over, or within the limit plus one separator. *)
Definition holds_paragraphs (config : adaptive_config) (pars : list str) (c : chunk) : Prop :=
  exists lo n : nat,
    (1 <= n)%nat /\ (lo + n <= length pars)%nat /\
    chunk_type c = lit "paragraph_based" /\
    content c = join [LF; LF] (firstn n (skipn lo pars)) /\
    (n = 1%nat \/ (n = 2%nat /\ (0 < lo)%nat)
     \/ len (content c) <= max_chunk_size config + 2).

(** The state of the paragraph loop before the paragraph of index [i]. *)
Definition para_inv (config : adaptive_config) (pars : list str)
    (i : nat) (st : para_state) : Prop :=
  let cur := p_current_chunk st in
  let lo := (i - length cur)%nat in
  (length cur <= i)%nat /\
  cur = firstn (length cur) (skipn lo pars) /\
  (0 < i -> cur <> [])%nat /\
  (cur = [] -> p_current_size st = 0) /\
  (cur <> [] -> len (join [LF; LF] cur) <= p_current_size st) /\
  (((3 <= length cur)%nat \/ (length cur = 2%nat /\ lo = 0%nat)) ->
     len (join [LF; LF] cur) <= max_chunk_size config + 2) /\
  Forall (holds_paragraphs config pars) (p_chunks st).

(** The position behind the longest run of [p] characters. *)
Fixpoint skip_while (p : ascii -> bool) (sn rs : str) : cursor :=
  match rs with
  | a :: t => if p a then skip_while p (a :: sn) t else {| seen := sn; rest := rs |}
  | [] => {| seen := sn; rest := [] |}
  end.

Definition head_is (p : ascii -> bool) (c : cursor) : bool :=
  match rest c with a :: _ => p a | [] => false end.

Definition not_p_head (p : ascii -> bool) (r : str) : Prop :=
  match r with a :: _ => p a = false | [] => True end.

(** The end of [name_colon]: a colon and a space. *)
Definition colon_space (c : cursor) : option cursor :=
  match rest c with
  | x :: y :: t =>
    if ascii_eqb x ":" && isspace y
    then Some {| seen := y :: x :: seen c; rest := t |}
    else None
  | _ => None
  end.

(** [name_colon] at a position, computed without backtracking. *)
Definition name_colon_at (c : cursor) : option cursor :=
  if at_word_boundary c then
    match rest c with
    | a :: b :: t =>
      if isupper a && alpha_or_space b
      then colon_space (skip_while alpha_or_space (b :: a :: seen c) t)
      else None
    | _ => None
    end
  else None.

(** A line that begins with a capitalised name, a colon and a space: a
    line on which [re.match] of the detector's first speaker pattern
    succeeds. *)
Definition is_name_line (line : str) : bool :=
  match re_match name_colon line with Some _ => true | None => false end.

Fixpoint first_line (s : str) : str :=
  match s with
  | [] => []
  | a :: t => if ascii_eqb a LF then [] else a :: first_line t
  end.

Fixpoint after_first_line (s : str) : str :=
  match s with
  | [] => []
  | a :: t => if ascii_eqb a LF then s else after_first_line t
  end.

(** The lines beginning with a name, counted at the positions where a
    line starts; [ls] tells whether [s] itself starts a line. *)
Fixpoint name_lines_from (ls : bool) (s : str) : nat :=
  match s with
  | [] => 0
  | a :: t =>
    (if ls && is_name_line (first_line s) then 1 else 0)%nat
    + name_lines_from (ascii_eqb a LF) t
  end.

Definition line_start (c : cursor) : bool :=
  match seen c with [] => true | a :: _ => ascii_eqb a LF end.

(** The number of lines on which [f] holds. *)
Definition count_lines (f : str -> bool) (ls : list str) : nat :=
  length (List.filter f ls).

(** A turn is on record, or one is being collected under a name. *)
Definition turn_pending (st : turn_state) : Prop :=
  turns st <> [] \/
  (truthy_str (current_speaker st) = true /\ current_text st <> []).

Definition has_type (ty : string) (c : chunk) : Prop := chunk_type c = lit ty.

End Properties.

(** ** Concrete inputs *)

Module Examples.

Import TextProcessor Insights Watcher.

(** A string literal in which [|] stands for a line feed. *)
Definition lines (s : string) : str :=
  List.map (fun a => if ascii_eqb a "|"%char then LF else a) (lit s).

(** *** Insight candidates *)

Definition candidate (conf : Q) (sev : string) (fi : option Q) : EnhancedBusinessInsight :=
  {| document_id := lit "doc-1";
     insight_type := lit "budget_impact";
     title := lit "Vendor contract renewal";
     description := lit "The vendor contract must be renewed before the quarter ends.";
     confidence_score := conf;
     severity := lit sev;
     financial_impact := fi;
     urgency_indicators := None;
     critical_path_impact := false |}.

(** Confidence 0.6 with a financial impact of 10000. *)
Definition unsure_with_impact : EnhancedBusinessInsight :=
  candidate (6 # 10) "high" (Some (10000 # 1)).
(** Confidence 0.9, severity low, with a financial impact. *)
Definition minor_with_impact : EnhancedBusinessInsight :=
  candidate (9 # 10) "low" (Some (10000 # 1)).

Definition described (ti de : string) (conf : Q) : EnhancedBusinessInsight :=
  {| document_id := lit "doc-1"; insight_type := lit "risk";
     title := lit ti; description := lit de; confidence_score := conf;
     severity := lit "high"; financial_impact := None;
     urgency_indicators := None; critical_path_impact := false |}.

(** Four of the five words of the descriptions agree: similarity 0.8. *)
Definition overrun_first : EnhancedBusinessInsight :=
  described "Costs rising" "budget exceeds plan today" (8 # 10).
Definition overrun_second : EnhancedBusinessInsight :=
  described "Spending alert raised" "budget exceeds plan today again" (9 # 10).
(** The same description twice. *)
Definition overrun_copy : EnhancedBusinessInsight :=
  described "Spending alert raised" "budget exceeds plan today" (9 # 10).

(** Three candidates: the third has the title of the first and the
    description of the second. *)
Definition renewal : EnhancedBusinessInsight :=
  described "Vendor contract renewal due" "the vendor contract must be renewed soon" (7 # 10).
Definition capacity : EnhancedBusinessInsight :=
  described "Server capacity exhausted now" "storage nodes need replacement before winter"
    (8 # 10).
Definition renewal_of_capacity : EnhancedBusinessInsight :=
  described "Vendor contract renewal due" "storage nodes need replacement before winter"
    (9 # 10).

(** *** Texts *)

Definition small_config : adaptive_config :=
  {| max_chunk_size := 10; speaker_overlap := 1; semantic_threshold := 7 # 10;
     min_chunk_size := 1 |}.

Definition four_turns : str := lines "Alice: hello|Bob: hi there|Carol: ok|Dan: yes".
Definition four_paragraphs : str := lines "aaaa||bbbbbb||cc||dddddddddddddddd".

(** Ten lines, three of which begin with a name. *)
Definition transcript : str :=
  lines "John: hello there|Mary: hi|Some other words|and more|and more|and yet more|seven|eight|nine|Ten: x".
(** A check box, then a line that begins with a name. *)
Definition check_list : str := lines "[ ] Todo|Al: hi".


Definition types (r : result (list chunk)) : result (list str) :=
  match r with
  | Ok l => Ok (List.map chunk_type l)
  | Raise e => Raise e
  end.



(** A stand-in for the semantic chunker, which is never reached. *)
Definition no_semantic (text : str) (threshold : Q) (max_size : Z)
  : result (list chunk) := Ok [].

(** *** Answers of the model *)



Definition no_float (s : str) : option Q := None.

(** [json.loads] giving up on brackets nested too deep. *)
Definition deep_brackets : str := lit "[[[[[[[[[[[[[[[[".
Definition loads_shallow (s : str) : result json :=
  if str_eqb s deep_brackets then Raise RecursionError else Raise JSONDecodeError.

(** *** A watcher and its collaborators *)

Definition demo_content : bytes := [Byte.x48; Byte.x69].

(** Downloads succeed except for [gone.txt]; every write succeeds.  The
    digest is a stand-in: the statements hold for any function. *)
Definition demo_services : services :=
  {| storage_download := fun _ _ path =>
       if str_eqb path (lit "gone.txt") then Raise OtherError else Ok demo_content;
     delete_document_by_file_id := fun _ _ => Ok tt;
     extract_text_from_file := fun _ _ _ _ => Ok (lit "Hi");
     process_file_for_rag := fun _ _ _ _ _ _ => Ok true;
     state_manager_save_state := fun _ _ _ => true;
     state_manager_update_last_check_time := fun _ _ => true;
     save_state_to_config := fun _ _ => true;
     sha256_hexdigest := fun content =>
       List.map (fun b => ascii_of_nat (Byte.to_nat b)) content;
     get_public_url := fun b p => lit "https://storage/" ++ b ++ lit "/" ++ p |}.

Definition demo_watcher (dry : bool) (known : gmap str str) : watcher :=
  {| dry_run := dry; has_state_manager := true;
     supported_mime_types := [lit "text/plain"; lit "application/pdf"];
     last_check_time := 0; known_files := known; calls := [] |}.

Definition demo_file (n : string) : file_info :=
  {| bucket := lit "documents"; name := lit n;
     created_at := None; updated_at := None;
     metadata := Some no_metadata |}.

Definition demo_digest : str := sha256_hexdigest demo_services demo_content.

(** A text file, a file of an unsupported type, a watcher that knows no
    file and one that knows the text file at its current content. *)
Definition notes : file_info := demo_file "notes.txt".
Definition blob : file_info := demo_file "notes.bin".
(** A text file that the storage lists with [metadata] null. *)
Definition orphan : file_info :=
  {| bucket := lit "documents"; name := lit "orphan.txt";
     created_at := None; updated_at := None; metadata := None |}.
Definition fresh (dry : bool) : watcher := demo_watcher dry ∅.
Definition synced : watcher :=
  demo_watcher false (<[file_id_of notes := demo_digest]> ∅).

End Examples.

(** ** [insights/enhanced/business_insights_engine.py]: analytics *)

Module InsightsStats.

Import Insights.

(** The loop shared by the two counting methods:
    [counts[key] = counts.get(key, 0) + 1] for the [key] of each insight. *)
Definition count_by (field : EnhancedBusinessInsight -> str)
    (insights : list EnhancedBusinessInsight) : gmap str nat :=
  fold_left (fun counts insight =>
               <[field insight := (default 0 (counts !! field insight) + 1)%nat]> counts)
            insights ∅.

(** [_count_insights_by_type] *)
Definition _count_insights_by_type
  : list EnhancedBusinessInsight -> gmap str nat := count_by insight_type.

(** [_count_insights_by_severity] *)
Definition _count_insights_by_severity
  : list EnhancedBusinessInsight -> gmap str nat := count_by severity.

End InsightsStats.

(** ** Predicates used in the statements about the remaining code *)

Module MoreProperties.

Import TextProcessor Insights InsightsStats Watcher.

(** *** Insights *)

(** Every insight seen so far is matched in confidence by a kept one. *)
Definition dominated (seen kept : list EnhancedBusinessInsight) : Prop :=
  forall x, In x seen ->
    exists y, In y kept /\ (confidence_score x <= confidence_score y)%Q.

(** An insight that resembles no other one of the list, in either
    direction of the duplicate test. *)
Definition unlike_the_others (x : EnhancedBusinessInsight)
    (insights : list EnhancedBusinessInsight) : Prop :=
  forall y, In y insights -> y <> x ->
    is_similar x y = false /\ is_similar y x = false.

(** The insights that pass the quality test and the deduplication. *)
Definition survivors (insights : list EnhancedBusinessInsight)
  : list EnhancedBusinessInsight :=
  _remove_duplicate_insights (List.filter passes_quality insights).

(** [a] may stand before [b] in a list ranked by [key], highest first. *)
Definition ranks_before {A : Type} (key : A -> Q) (a b : A) : Prop :=
  (key b <= key a)%Q.

(** The number of insights whose [field] is [k]. *)
Definition occurrences (field : EnhancedBusinessInsight -> str) (k : str)
    (insights : list EnhancedBusinessInsight) : nat :=
  length (List.filter (fun insight => str_eqb (field insight) k) insights).

(** The sum of the counts of a table. *)
Definition total (counts : gmap str nat) : nat :=
  map_fold (fun _ n acc => (n + acc)%nat) 0%nat counts.

(** *** The storage watcher *)

Definition is_download (e : event) : bool :=
  match e with Download _ _ _ => true | _ => false end.

Definition is_delete (e : event) : bool :=
  match e with DeleteDocument _ _ => true | _ => false end.

Definition is_rag_write (e : event) : bool :=
  match e with ProcessForRag _ _ _ => true | _ => false end.

Definition is_state_save (e : event) : bool :=
  match e with SaveState _ _ _ | SaveLastCheckTime _ _ => true | _ => false end.

(** A text extraction that returned a non-empty text. *)
Definition has_text (e : event) : bool :=
  match e with ExtractText _ _ (Ok (_ :: _)) => true | _ => false end.

(** The end of a run of [process_file]: the text extraction and, when
    it returned a non-empty text, the RAG write. *)
Definition after_extraction (evs : trace) : bool :=
  match evs with
  | [ExtractText _ _ (Raise _)] => true
  | [ExtractText _ _ (Ok [])] => true
  | [ExtractText _ _ (Ok (_ :: _)); ProcessForRag _ _ _] => true
  | _ => false
  end.

(** The calls of one run of [process_file] on [fi], in order: the
    download; for a file with a stored fingerprint ([known]) the
    deletion of its old version; the text extraction; the RAG write.
    A call is made only when the one before it succeeded. *)
Definition follows_protocol (fi : file_info) (known : bool) (evs : trace) : bool :=
  match evs with
  | Download b p r :: tail =>
    str_eqb b (bucket fi) && str_eqb p (name fi)
    && match r, tail with
       | _, [] => true
       | Ok (_ :: _), DeleteDocument f d :: tail' =>
         known && str_eqb f (file_id_of fi)
         && match d, tail' with
            | Raise _, [] => true
            | Raise _, _ => false
            | Ok _, _ => after_extraction tail'
            end
       | Ok (_ :: _), _ => negb known && after_extraction tail
       | _, _ => false
       end
  | _ => false
  end.

(** The bucket and path of a listing entry, and those of the downloads
    of a trace, in order. *)
Definition target (fi : file_info) : str * str := (bucket fi, name fi).

Definition downloaded (evs : trace) : list (str * str) :=
  flat_map (fun e => match e with
                     | Download b p _ => [(b, p)]
                     | _ => []
                     end) evs.

(** The [metadata] of the listing entry is an object. *)
Definition metadata_is_object (fi : file_info) : bool :=
  match metadata fi with Some _ => true | None => false end.

(** *** Chunking *)

(** [ceil(n / step)] *)
Definition ceil_div (n step : nat) : nat := ((n + step - 1) / step)%nat.

(** The turns are numbered by their position and carry a name. *)
Definition well_indexed (ts : list turn) : Prop :=
  forall i t, nth_error ts i = Some t -> turn_index t = i /\ speaker t <> [].

(** The speakers of the turns [from .. from+n-1]. *)
Definition speakers_of (all_turns : list turn) (from n : nat) : gset str :=
  list_to_set (List.map speaker (firstn n (skipn from all_turns))).

(** The chunks hold consecutive blocks of turns from [from] up to
    [upto] (excluded): each records its own range and the speakers of
    its turns. *)
Fixpoint tiles (all_turns : list turn) (from : nat) (cs : list chunk) (upto : nat)
  : Prop :=
  match cs with
  | [] => from = upto
  | c :: rest =>
    exists n : nat,
      (1 <= n)%nat /\
      turn_range c = Some (Z.of_nat from, Z.of_nat (from + n) - 1) /\
      speakers c = Some (speakers_of all_turns from n) /\
      tiles all_turns (from + n) rest upto
  end.

(** The state of the speaker-turn loop before the turn of index [i]:
    the finished chunks tile the turns before the current chunk, whose
    speakers are on record. *)
Definition tile_inv (all_turns : list turn) (i : nat) (st : chunk_state) : Prop :=
  tiles all_turns 0 (chunks st) (start_turn st) /\
  chunk_speakers st = speakers_of all_turns (start_turn st) (i - start_turn st).

(** A line that opens a section: without the white space at its ends it
    matches the header pattern and has fewer than 100 characters. *)
Definition is_header (line : str) : bool :=
  match re_match header_pattern (strip line) with Some _ => true | None => false end
  && (len (strip line) <? 100).

(** The section that consists of the header line [line] alone. *)
Definition header_only_chunk (line : str) : chunk :=
  plain_chunk line (lit "structured_section")
    [ (lit "header", MStr (strip line));
      (lit "size", MInt (len line));
      (lit "line_count", MInt 1) ].

(** The paragraph of index [j] is one of a block of consecutive
    paragraphs that makes up the content of a chunk. *)
Definition in_some_chunk (pars : list str) (cs : list chunk) (j : nat) : Prop :=
  exists c lo n,
    In c cs /\ (lo <= j < lo + n)%nat /\
    content c = join [LF; LF] (firstn n (skipn lo pars)).

(** The state of the paragraph loop before the paragraph of index [i]:
    every paragraph before the current chunk is in a finished chunk. *)
Definition covered_before (pars : list str) (i : nat) (st : para_state) : Prop :=
  forall j, (j < i - length (p_current_chunk st))%nat ->
            in_some_chunk pars (p_chunks st) j.

End MoreProperties.

(** ** More concrete inputs *)

Module MoreExamples.

Import TextProcessor Insights Watcher Examples.

(** A list of three bullet points. *)
Definition bullets : str := lines "- alpha|- beta|- gamma".

(** A candidate on another subject than the vendor contract. *)
Definition unrelated : EnhancedBusinessInsight :=
  described "Server capacity exhausted" "storage nodes need replacement soon" (9 # 10).

(** The watcher after a first run on the text file. *)
Definition after_first_run : watcher :=
  snd (process_file demo_services notes (fresh false)).

End MoreExamples.

(** ** [insights/enhanced/business_insights_engine.py]: document dates *)

Module Dates.

Import TextProcessor.

(** [\d{n}] *)
Definition digits (n : nat) : re := seq_of (repeat digit n).

(** [\d{1,2}] *)
Definition one_or_two_digits : re := UpTo 1 digit.

(** [[/-]] and [[_.]] *)
Definition slash_or_dash : re := Chr (one_of (lit "/-")).
Definition underscore_or_dot : re := Chr (one_of (lit "_.")).

Definition month_names : list str :=
  [ lit "Jan"; lit "Feb"; lit "Mar"; lit "Apr"; lit "May"; lit "Jun";
    lit "Jul"; lit "Aug"; lit "Sep"; lit "Oct"; lit "Nov"; lit "Dec" ].

(** [Jan|Feb|...|Dec] and [[a-z]*], both under [re.IGNORECASE]. *)
Definition month_name : re := alt_of (List.map literal_i month_names).
Definition letters : re := Star (Chr isalpha).

(** \d{4} - \d{2} - \d{2} *)
Definition iso_date : re :=
  seq_of [digits 4; char "-"; digits 2; char "-"; digits 2].
(** \d{1,2} [/-] \d{1,2} [/-] \d{4} *)
Definition us_date : re :=
  seq_of [one_or_two_digits; slash_or_dash; one_or_two_digits; slash_or_dash; digits 4].
(** \d{4} [_.] \d{2} [_.] \d{2} *)
Definition dotted_date : re :=
  seq_of [digits 4; underscore_or_dot; digits 2; underscore_or_dot; digits 2].

(** (?:Jan|...|Dec) [a-z]* \s+ \d{1,2} , \s+ \d{4} *)
Definition month_first : re :=
  seq_of [month_name; letters; Plus space; one_or_two_digits; char ","; Plus space;
          digits 4].
(** \d{1,2} \s+ (?:Jan|...|Dec) [a-z]* \s+ \d{4} *)
Definition day_first : re :=
  seq_of [one_or_two_digits; Plus space; month_name; letters; Plus space; digits 4].

(** The bodies of the five [date_patterns] of [_extract_date_from_title];
    each pattern is one group, searched under [re.IGNORECASE]. *)
Definition date_forms : list re :=
  [iso_date; us_date; month_first; day_first; dotted_date].

Definition date_patterns : list re := List.map (Group 1) date_forms.

(** The two patterns with a month name of [_normalize_date_string]. *)
(** ( Jan|...|Dec ) [a-z]* \s+ ( \d{1,2} ) , \s+ ( \d{4} ) *)
Definition month_day_year : re :=
  seq_of [Group 1 month_name; letters; Plus space; Group 2 one_or_two_digits;
          char ","; Plus space; Group 3 (digits 4)].
(** ( \d{1,2} ) \s+ ( Jan|...|Dec ) [a-z]* \s+ ( \d{4} ) *)
Definition day_month_year : re :=
  seq_of [Group 1 one_or_two_digits; Plus space; Group 2 month_name; letters;
          Plus space; Group 3 (digits 4)].

Definition month_map : list (str * str) :=
  [ (lit "jan", lit "01"); (lit "feb", lit "02"); (lit "mar", lit "03");
    (lit "apr", lit "04"); (lit "may", lit "05"); (lit "jun", lit "06");
    (lit "jul", lit "07"); (lit "aug", lit "08"); (lit "sep", lit "09");
    (lit "oct", lit "10"); (lit "nov", lit "11"); (lit "dec", lit "12") ].

(** [month_map.get(month_name.lower()[:3])] *)
Definition month_number (name : str) : option str :=
  match List.find (fun kv => str_eqb (fst kv) (slice (lower name) 0 3)) month_map with
  | Some kv => Some (snd kv)
  | None => None
  end.

(** [s.zfill(width)]: zeros are put behind a leading sign. *)
Definition zfill (width : nat) (s : str) : str :=
  let zeros := repeat "0"%char (width - length s) in
  match s with
  | a :: s' =>
    if ascii_eqb a "+" || ascii_eqb a "-" then a :: zeros ++ s' else zeros ++ s
  | [] => zeros
  end.

(** [re.split] on a class of one character. *)
Fixpoint split_class_go (p : ascii -> bool) (cur : str) (s : str) : list str :=
  match s with
  | [] => [rev cur]
  | a :: s' =>
    if p a then rev cur :: split_class_go p [] s'
    else split_class_go p (a :: cur) s'
  end.

Definition split_class (p : ascii -> bool) (s : str) : list str :=
  split_class_go p [] s.

(** [re.match(r, s)] as a truth value. *)
Definition matches (r : re) (s : str) : bool :=
  match re_match r s with Some _ => true | None => false end.

(** The third form of [_normalize_date_string]: month, day and year
    between slashes or dashes. *)
Definition from_us_date (date_str : str) : option str :=
  if matches us_date date_str then
    match split_class (one_of (lit "/-")) date_str with
    | [month; day; year] =>
      Some (year ++ lit "-" ++ zfill 2 month ++ lit "-" ++ zfill 2 day)
    | _ => None
    end
  else None.

(** The fourth and fifth forms: a month name before or behind the day.
    [month_group] and [day_group] number the groups of the pattern. *)
Definition from_named_month (pattern : re) (month_group day_group : nat)
    (date_str : str) : option str :=
  match re_search pattern date_str with
  | Some (_, (_, g)) =>
    match month_number (group month_group g) with
    | Some month_num =>
      Some (group 3 g ++ lit "-" ++ month_num ++ lit "-" ++ zfill 2 (group day_group g))
    | None => None
    end
  | None => None
  end.

(** [_normalize_date_string]; no step of it raises. *)
Definition _normalize_date_string (date_str : str) : option str :=
  if matches iso_date date_str then Some date_str
  else if matches dotted_date date_str
  then Some (replace_char "."%char "-"%char (replace_char "_"%char "-"%char date_str))
  else
    match from_us_date date_str with
    | Some d => Some d
    | None =>
      match from_named_month month_day_year 1 2 date_str with
      | Some d => Some d
      | None => from_named_month day_month_year 2 1 date_str
      end
    end.

(** One round of the loop of [_extract_date_from_title]: the date the
    pattern yields, when it is found and its normal form is not empty. *)
Definition date_by (title : str) (pattern : re) : option str :=
  match re_search pattern title with
  | Some (_, (_, g)) =>
    match _normalize_date_string (group 1 g) with
    | Some (a :: d) => Some (a :: d)
    | _ => None
    end
  | None => None
  end.

(** [_extract_date_from_title] *)
Definition _extract_date_from_title (title : str) : option str :=
  match title with
  | [] => None
  | _ => find_map (date_by title) date_patterns
  end.

End Dates.

(** ** The texts of a pattern *)

Module RegexProperties.

(** The texts a pattern matches, anchors and word boundaries left out
    of account (they match the empty text). *)
Inductive Lang : re -> str -> Prop :=
| Lang_Eps : Lang Eps []
| Lang_Chr p a : p a = true -> Lang (Chr p) [a]
| Lang_Seq r1 r2 s1 s2 : Lang r1 s1 -> Lang r2 s2 -> Lang (Seq r1 r2) (s1 ++ s2)
| Lang_Alt_l r1 r2 s : Lang r1 s -> Lang (Alt r1 r2) s
| Lang_Alt_r r1 r2 s : Lang r2 s -> Lang (Alt r1 r2) s
| Lang_Star_nil r : Lang (Star r) []
| Lang_Star_app r s1 s2 : Lang r s1 -> Lang (Star r) s2 -> Lang (Star r) (s1 ++ s2)
| Lang_LazyStar_nil r : Lang (LazyStar r) []
| Lang_LazyStar_app r s1 s2 :
    Lang r s1 -> Lang (LazyStar r) s2 -> Lang (LazyStar r) (s1 ++ s2)
| Lang_Group n r s : Lang r s -> Lang (Group n r) s
| Lang_Bol : Lang Bol []
| Lang_Eol : Lang Eol []
| Lang_BolM : Lang BolM []
| Lang_EolM : Lang EolM []
| Lang_WordB : Lang WordB [].

(** The position [c'] lies the text [s] behind the position [c]. *)
Definition reaches (c c' : cursor) (s : str) : Prop :=
  seen c' = rev s ++ seen c /\ rest c = s ++ rest c'.

(** Every group of [r] captures texts that satisfy [Q]. *)
Fixpoint groups_in (Q : nat -> str -> Prop) (r : re) : Prop :=
  match r with
  | Seq r1 r2 | Alt r1 r2 => groups_in Q r1 /\ groups_in Q r2
  | Star r' | LazyStar r' => groups_in Q r'
  | Group n r' => (forall t, Lang r' t -> Q n t) /\ groups_in Q r'
  | _ => True
  end.

(** Every match of [r] captures the group [n]. *)
Fixpoint records (n : nat) (r : re) : bool :=
  match r with
  | Seq r1 r2 => records n r1 || records n r2
  | Alt r1 r2 => records n r1 && records n r2
  | Group m r' => (m =? n)%nat || records n r'
  | _ => false
  end.

(** The captures [new] are texts of their groups, and hold the groups
    that [r] always captures. *)
Definition captured (Q : nat -> str -> Prop) (r : re) (new : captures) : Prop :=
  Forall (fun e => Q (fst e) (snd e)) new /\
  (forall n, records n r = true -> exists t, In (n, t) new).

End RegexProperties.

Module DateProperties.

Import Dates.

(** Four digits, a dash, two digits, a dash, two digits. *)
Definition iso_shaped (d : str) : bool :=
  match d with
  | [y1; y2; y3; y4; s1; m1; m2; s2; d1; d2] =>
    forallb isdigit [y1; y2; y3; y4; m1; m2; d1; d2]
    && ascii_eqb s1 "-" && ascii_eqb s2 "-"
  | _ => false
  end.

End DateProperties.

(** * Theorems *)

(** ** Facts about the Python primitives *)

Module PyFacts.

Lemma Qlt_bool_iff (a b : Q) : Qlt_bool a b = true <-> (a < b)%Q.
Proof.
  unfold Qlt_bool. rewrite negb_true_iff. split.
  - intros H. apply Qnot_le_lt. intros Hle. apply Qle_bool_iff in Hle. congruence.
  - intros H. destruct (Qle_bool b a) eqn:E; [|reflexivity].
    apply Qle_bool_iff in E. exfalso. now apply (Qlt_not_le a b).
Qed.

Lemma Qlt_bool_false_iff (a b : Q) : Qlt_bool a b = false <-> (b <= a)%Q.
Proof. unfold Qlt_bool. rewrite negb_false_iff. apply Qle_bool_iff. Qed.

Lemma ascii_eqb_refl (a : ascii) : ascii_eqb a a = true.
Proof. apply Ascii.eqb_refl. Qed.

Lemma str_eqb_refl (s : str) : str_eqb s s = true.
Proof. induction s; simpl; [reflexivity|]. now rewrite ascii_eqb_refl. Qed.

Lemma str_eqb_eq (s t : str) : str_eqb s t = true <-> s = t.
Proof.
  revert t; induction s as [|a s IH]; intros [|b t]; simpl; split; try congruence.
  - intros H. apply andb_true_iff in H as [H1 H2].
    apply Ascii.eqb_eq in H1. apply IH in H2. congruence.
  - intros [= -> ->]. rewrite ascii_eqb_refl. now apply IH.
Qed.

Lemma len_app (s t : str) : len (s ++ t) = len s + len t.
Proof. unfold len. rewrite length_app. lia. Qed.

Lemma len_nonneg (s : str) : 0 <= len s.
Proof. unfold len. lia. Qed.

(** A slice between two non-negative bounds in order. *)
Lemma slice_nat (s : str) (i j : nat) :
  (i <= j)%nat ->
  slice s (Z.of_nat i) (Z.of_nat j) = firstn (j - i) (skipn i s).
Proof.
  intros Hij. unfold slice, slice_bound, len.
  destruct (Z.ltb_spec (Z.of_nat i) 0); [lia|].
  destruct (Z.ltb_spec (Z.of_nat j) 0); [lia|].
  destruct (Nat.le_gt_cases i (length s)) as [Hi|Hi].
  - rewrite (Z.min_l (Z.of_nat i)) by lia. rewrite Nat2Z.id.
    destruct (Nat.le_gt_cases j (length s)) as [Hj|Hj].
    + rewrite Z.min_l by lia. f_equal. lia.
    + rewrite Z.min_r by lia.
      rewrite (firstn_all2 (n:=(j - i)%nat)) by (rewrite length_skipn; lia).
      apply firstn_all2. rewrite length_skipn. lia.
  - rewrite (Z.min_r (Z.of_nat i)) by lia. rewrite Nat2Z.id.
    rewrite skipn_all. rewrite (skipn_all2 (n:=i)) by lia.
    now rewrite !firstn_nil.
Qed.

Lemma range_0_pos (n step : nat) :
  (0 < step)%nat ->
  range 0 (Z.of_nat n) (Z.of_nat step) =
  Ok (List.map (fun k => Z.of_nat (k * step)) (seq 0 ((n + step - 1) / step))).
Proof.
  intros Hs. unfold range, range_length.
  destruct (Z.eqb_spec (Z.of_nat step) 0); [lia|].
  f_equal.
  replace (0 <? Z.of_nat step) with true by (symmetry; apply Z.ltb_lt; lia).
  simpl andb.
  destruct (Z.ltb_spec 0 (Z.of_nat n)).
  - replace (Z.to_nat (1 + (Z.of_nat n - 1 - 0) / Z.of_nat step))
      with ((n + step - 1) / step)%nat.
    + apply map_ext. intros k. lia.
    + replace (Z.of_nat n - 1 - 0) with (Z.of_nat (n - 1)) by lia.
      rewrite <- Nat2Z.inj_div.
      replace (n + step - 1)%nat with ((n - 1) + 1 * step)%nat by lia.
      rewrite Nat.div_add by lia. lia.
  - assert (n = 0)%nat by lia. subst n.
    replace (0 + step - 1)%nat with (step - 1)%nat by lia.
    rewrite Nat.div_small by lia.
    destruct (Z.of_nat step <? 0); reflexivity.
Qed.

Lemma range_0_neg (n step : Z) :
  step < 0 -> 0 <= n -> range 0 n step = Ok [].
Proof.
  intros Hs Hn. unfold range, range_length.
  destruct (Z.eqb_spec step 0); [lia|].
  rewrite (proj2 (Z.ltb_ge 0 step)) by lia.
  rewrite (proj2 (Z.ltb_ge n 0)) by lia.
  now rewrite andb_false_r.
Qed.

Lemma ceil_div_bounds (n step : nat) :
  (0 < step)%nat ->
  let N := ((n + step - 1) / step)%nat in
  (n <= N * step)%nat /\ (forall k, (k < N)%nat -> (k * step < n)%nat).
Proof.
  intros Hs N.
  pose proof (Nat.div_mod_eq (n + step - 1) step) as E.
  pose proof (Nat.mod_upper_bound (n + step - 1) step ltac:(lia)) as B.
  fold N in E. split; [nia|]. intros k Hk. nia.
Qed.

Lemma firstn_skipn_split (A : Type) (l : list A) (a b : nat) :
  firstn (a + b) l = firstn a l ++ firstn b (skipn a l).
Proof.
  revert l; induction a; intros l; simpl; [reflexivity|].
  destruct l; simpl; [now rewrite firstn_nil|]. now rewrite IHa.
Qed.

Lemma In_firstn {A} (x : A) n l : In x (firstn n l) -> In x l.
Proof.
  revert l; induction n; intros [|y l]; simpl; try tauto.
  intros [H|H]; auto.
Qed.

Lemma firstn_skipn_snoc {A} (done todo : list A) (t : A) (s : nat) :
  (s <= length done)%nat ->
  firstn (length done - s) (skipn s (done ++ t :: todo)) ++ [t]
  = firstn (S (length done) - s) (skipn s (done ++ t :: todo)).
Proof.
  intros Hs.
  rewrite skipn_app. replace (s - length done)%nat with 0%nat by lia.
  simpl skipn. rewrite !firstn_app, length_skipn.
  replace (length done - s - (length done - s))%nat with 0%nat by lia.
  replace (S (length done) - s - (length done - s))%nat with 1%nat by lia.
  simpl. rewrite app_nil_r.
  rewrite (firstn_all2 (n := (S (length done) - s)%nat))
    by (rewrite length_skipn; lia).
  rewrite (firstn_all2 (n := (length done - s)%nat))
    by (rewrite length_skipn; lia).
  reflexivity.
Qed.

Lemma firstn_snoc_block {A} (done todo : list A) (t : A) (n : nat) :
  (n <= length done)%nat ->
  firstn n (skipn (length done - n) (done ++ t :: todo)) ++ [t]
  = firstn (S n) (skipn (S (length done) - S n) (done ++ t :: todo)).
Proof.
  intros Hn. replace (S (length done) - S n)%nat with (length done - n)%nat by lia.
  pose proof (firstn_skipn_snoc done todo t (length done - n) ltac:(lia)) as H.
  replace (length done - (length done - n))%nat with n in H by lia.
  replace (S (length done) - (length done - n))%nat with (S n) in H by lia.
  exact H.
Qed.

Lemma List_last_app {A} (l1 l2 : list A) (d : A) :
  l2 <> [] -> List.last (l1 ++ l2) d = List.last l2 d.
Proof.
  intros Hne. induction l1 as [|x l1 IH]; [reflexivity|].
  simpl. rewrite IH. destruct (l1 ++ l2) eqn:E; [|reflexivity].
  apply app_eq_nil in E as [_ E]. congruence.
Qed.

Lemma last_firstn_skipn {A} (done todo : list A) (d : A) (n : nat) :
  (1 <= n <= length done)%nat ->
  List.last (firstn n (skipn (length done - n) (done ++ todo))) d
  = List.last done d.
Proof.
  intros Hn.
  rewrite skipn_app. replace (length done - n - length done)%nat with 0%nat by lia.
  simpl skipn. rewrite firstn_app, length_skipn.
  replace (n - (length done - (length done - n)))%nat with 0%nat by lia.
  simpl. rewrite app_nil_r.
  rewrite firstn_all2 by (rewrite length_skipn; lia).
  transitivity (List.last (firstn (length done - n) done ++ skipn (length done - n) done) d).
  - symmetry. apply List_last_app.
    intros E. apply (f_equal (@length A)) in E. rewrite length_skipn in E.
    simpl in E. lia.
  - now rewrite firstn_skipn.
Qed.

Lemma split_char_go_acc (c : ascii) (s cur : str) :
  split_char_go c cur s =
  match split_char_go c [] s with
  | l :: ls => (rev cur ++ l) :: ls
  | [] => [rev cur]
  end.
Proof.
  revert cur. induction s as [|a t IH]; intros cur; simpl.
  - now rewrite app_nil_r.
  - destruct (ascii_eqb a c).
    + now rewrite app_nil_r.
    + rewrite (IH (a :: cur)), (IH [a]).
      destruct (split_char_go c [] t); simpl; now rewrite <- ?app_assoc.
Qed.

(** [split] read from the left. *)
Lemma split_char_cons (c a : ascii) (t : str) :
  split_char c (a :: t) =
  if ascii_eqb a c then [] :: split_char c t
  else match split_char c t with
       | l :: ls => (a :: l) :: ls
       | [] => [[a]]
       end.
Proof.
  unfold split_char. simpl. destruct (ascii_eqb a c); [reflexivity|].
  rewrite split_char_go_acc. destruct (split_char_go c [] t); reflexivity.
Qed.

End PyFacts.

(** ** Fixed-window chunking *)

Module ChunkTextFacts.

Import TextProcessor Properties PyFacts Examples.

Lemma drop_overlap_windows (text : str) (ov step : nat) (K : nat) :
  window text (step + ov) step 0 ++
    concat (List.map (fun k => skipn ov (window text (step + ov) step k)) (seq 1 K))
  = firstn (step + ov + K * step) text.
Proof.
  induction K.
  - simpl. unfold window. simpl. rewrite app_nil_r. f_equal. lia.
  - rewrite seq_S, List.map_app, concat_app, app_assoc, IHK. simpl.
    rewrite app_nil_r. unfold window.
    rewrite skipn_firstn_comm, skipn_skipn.
    replace (step + ov + (step + K * step))%nat
      with ((step + ov + K * step) + step)%nat by lia.
    rewrite (firstn_skipn_split _ text (step + ov + K * step) step).
    f_equal. f_equal; [lia|]. f_equal. lia.
Qed.

Lemma filter_nonempty_id (l : list str) :
  Forall (fun c => c <> []) l ->
  List.filter (fun chunk => negb (str_eqb chunk [])) l = l.
Proof.
  induction 1 as [|c l Hc Hl IH]; simpl; [reflexivity|].
  destruct c; [congruence|]. simpl. now rewrite IH.
Qed.

(** With a positive step the chunks are the windows of the text. *)
Lemma chunk_text_windows (text : str) (ov step : nat) :
  text <> [] -> (0 < step)%nat ->
  let t := remove_char CR text in
  chunk_text text (Z.of_nat (step + ov)) (Z.of_nat ov) =
  Ok (List.map (window t (step + ov) step)
        (seq 0 ((length t + step - 1) / step))).
Proof.
  intros Hne Hs t. unfold chunk_text. destruct text as [|a text']; [congruence|].
  fold t. unfold len.
  replace (Z.of_nat (step + ov) - Z.of_nat ov) with (Z.of_nat step) by lia.
  rewrite range_0_pos by assumption. f_equal.
  rewrite List.map_map.
  destruct (ceil_div_bounds (length t) step Hs) as [_ Hlt].
  rewrite filter_nonempty_id.
  - apply map_ext. intros k.
    replace (Z.of_nat (k * step) + Z.of_nat (step + ov))
      with (Z.of_nat (k * step + (step + ov))) by lia.
    rewrite slice_nat by lia. unfold window. f_equal. lia.
  - apply List.Forall_forall. intros c Hc. apply in_map_iff in Hc as [k [<- Hk]].
    apply in_seq in Hk.
    replace (Z.of_nat (k * step) + Z.of_nat (step + ov))
      with (Z.of_nat (k * step + (step + ov))) by lia.
    rewrite slice_nat by lia.
    assert (k * step < length t)%nat by (apply Hlt; lia).
    intros E. apply (f_equal (@length ascii)) in E.
    rewrite length_firstn, length_skipn in E. simpl in E. lia.
Qed.


(** C10 (as amended): on a non-empty text, [chunk_text] raises
    [ValueError] when the overlap equals the chunk size, returns the empty
    list when the overlap is larger, and for [0 <= overlap < chunk_size]
    returns chunks of at most [chunk_size] characters which, once the
    overlapping prefixes are dropped, spell the text without its carriage
    returns; the list is non-empty as soon as the text holds a character
    other than a carriage return. *)
Theorem chunk_text_overlap_cases (text : str) (chunk_size overlap : Z) :
  text <> [] ->
  (overlap = chunk_size -> chunk_text text chunk_size overlap = Raise ValueError) /\
  (chunk_size < overlap -> chunk_text text chunk_size overlap = Ok []) /\
  (0 <= overlap < chunk_size ->
   exists chunks,
     chunk_text text chunk_size overlap = Ok chunks /\
     Forall (fun c => len c <= chunk_size) chunks /\
     drop_overlap overlap chunks = remove_char CR text /\
     (remove_char CR text <> [] -> chunks <> [])).
Proof.
  intros Hne. repeat split.
  - intros ->. unfold chunk_text. destruct text; [congruence|].
    unfold range. now rewrite Z.sub_diag.
  - intros Hlt. unfold chunk_text. destruct text; [congruence|].
    rewrite range_0_neg; [reflexivity|lia|unfold len; lia].
  - intros [H0 Hlt].
    set (ov := Z.to_nat overlap). set (step := Z.to_nat (chunk_size - overlap)).
    assert (Hov : overlap = Z.of_nat ov) by lia.
    assert (Hcs : chunk_size = Z.of_nat (step + ov)) by lia.
    assert (Hs : (0 < step)%nat) by lia.
    rewrite Hov, Hcs. rewrite chunk_text_windows by assumption.
    set (t := remove_char CR text).
    destruct (ceil_div_bounds (length t) step Hs) as [Hge Hk].
    set (N := ((length t + step - 1) / step)%nat) in *.
    eexists. split; [reflexivity|]. repeat split.
    + apply List.Forall_forall. intros c Hc. apply in_map_iff in Hc as [k [<- _]].
      unfold window, len. rewrite length_firstn. lia.
    + destruct N as [|N'].
      * simpl. destruct t; [reflexivity|simpl in Hge; lia].
      * rewrite <- cons_seq. simpl List.map. unfold drop_overlap.
        rewrite Nat2Z.id, List.map_map, drop_overlap_windows.
        apply firstn_all2. lia.
    + intros Ht. destruct N; [|discriminate].
      destruct t; [congruence|simpl in Hge; lia].
Qed.

(** The three cases of C10 on ["abcde"] and a chunk size of [3]. *)
Lemma chunk_text_overlap_cases_witness :
  chunk_text (lit "abcde") 3 3 = Raise ValueError /\
  chunk_text (lit "abcde") 3 4 = Ok [] /\
  exists chunks,
    chunk_text (lit "abcde") 3 1 = Ok chunks /\
    Forall (fun c => len c <= 3) chunks /\
    drop_overlap 1 chunks = remove_char CR (lit "abcde") /\
    (remove_char CR (lit "abcde") <> [] -> chunks <> []).
Proof.
  assert (Hne : lit "abcde" <> []) by discriminate.
  split; [|split].
  - apply (proj1 (chunk_text_overlap_cases (lit "abcde") 3 3 Hne)). reflexivity.
  - apply (proj1 (proj2 (chunk_text_overlap_cases (lit "abcde") 3 4 Hne))). lia.
  - apply (proj2 (proj2 (chunk_text_overlap_cases (lit "abcde") 3 1 Hne))). lia.
Defined.

(** C10 as stated fails: a text of one carriage return is non-empty,
    the overlap [0] lies below the chunk size [400], and the result is
    the empty list. *)
Lemma chunk_text_of_carriage_return_is_empty :
  [CR] <> [] /\ 0 <= 0 < 400 /\ chunk_text [CR] 400 0 = Ok [].
Proof. split; [discriminate|]. split; [lia|]. reflexivity. Qed.

End ChunkTextFacts.

(** ** Speaker-turn and paragraph chunking *)

Module ChunkingFacts.

Import TextProcessor Properties PyFacts Examples.

Lemma counted_app k l1 l2 : counted k (l1 ++ l2) = counted k l1 + counted k l2.
Proof. induction l1; simpl; lia. Qed.

(** The length of joined pieces, from the size the loops count. *)
Lemma len_join (sep : str) (l : list str) :
  l <> [] -> len (join sep l) = counted (len sep) l - len sep.
Proof.
  induction l as [|x l IH]; [congruence|]. intros _.
  destruct l as [|y l].
  - simpl. lia.
  - change (join sep (x :: y :: l)) with (x ++ sep ++ join sep (y :: l)).
    rewrite !len_app, IH by discriminate. simpl. lia.
Qed.

Section Speaker.
Variable all_turns : list turn.
Variable max_size overlap : Z.

Lemma chunk_step_inv (done todo : list turn) (t : turn) (st : chunk_state) :
  all_turns = done ++ t :: todo ->
  speaker_inv all_turns max_size overlap (length done) st ->
  speaker_inv all_turns max_size overlap (S (length done)) (chunk_step all_turns max_size overlap st (length done, t)).
Proof.
  intros Hall (Hs & Hcur & Hpos & Hsize & Hbound & Hdone).
  assert (Hlen : length (current_chunk st) = (length done - start_turn st)%nat).
  { rewrite Hcur, length_map, length_firstn, length_skipn, Hall, length_app.
    simpl. lia. }
  unfold chunk_step.
  destruct ((max_size <? current_size st + len (turn_text t))
            && nonempty (current_chunk st)) eqn:Eemit.
  - (* the chunk is closed before this turn *)
    apply andb_true_iff in Eemit as [_ Hne].
    assert (Hlt : (start_turn st < length done)%nat).
    { destruct (current_chunk st); [discriminate|]. simpl in Hlen. lia. }
    unfold speaker_inv. cbn [start_turn current_chunk current_size chunks].
    repeat split.
    + lia.
    + rewrite Hall, skipn_app, Nat.sub_diag.
      replace (S (length done) - length done)%nat with 1%nat by lia.
      rewrite skipn_all. reflexivity.
    + lia.
    + simpl. lia.
    + simpl. lia.
    + apply Forall_app_2; [exact Hdone|]. constructor; [|constructor].
      exists (start_turn st), ((length done - start_turn st)%nat).
      split; [lia|]. split; [rewrite Hall, length_app; simpl; lia|].
      split; [simpl; do 2 f_equal; lia|].
      split; [reflexivity|].
      simpl. rewrite <- Hcur. split; [reflexivity|].
      destruct (Nat.eq_dec (length done - start_turn st)%nat 1%nat) as [E|E]; [now left|].
      right. apply Hbound. lia.
  - (* the turn joins the current chunk *)
    unfold speaker_inv. cbn [start_turn current_chunk current_size chunks].
    repeat split.
    + lia.
    + rewrite Hcur, Hall. rewrite <- firstn_skipn_snoc by lia.
      now rewrite List.map_app.
    + intros _. destruct (Nat.eq_dec (length done) 0%nat) as [E|E]; [|lia].
      (* the very first turn *) lia.
    + rewrite counted_app, Hsize. simpl. lia.
    + intros Hlen2. rewrite length_app in Hlen2. simpl in Hlen2.
      rewrite len_join by (destruct (current_chunk st); discriminate).
      rewrite counted_app. simpl counted.
      apply andb_false_iff in Eemit as [Hfit|Hemp].
      * apply Z.ltb_ge in Hfit. rewrite Hsize in Hfit.
        change (len [LF]) with 1. lia.
      * destruct (current_chunk st); [simpl in Hlen2; lia|discriminate].
    + exact Hdone.
Qed.

Lemma chunk_fold_inv (todo done : list turn) (st : chunk_state) :
  all_turns = done ++ todo ->
  speaker_inv all_turns max_size overlap (length done) st ->
  speaker_inv all_turns max_size overlap (length all_turns)
    (fold_left (chunk_step all_turns max_size overlap)
       (combine (seq (length done) (length todo)) todo) st).
Proof.
  revert done st. induction todo as [|t todo IH]; intros done st Hall Hinv.
  - assert (E : length all_turns = length done) by (now rewrite Hall, app_nil_r).
    simpl. rewrite E. exact Hinv.
  - simpl. specialize (IH (done ++ [t])).
    rewrite length_app, Nat.add_1_r in IH. apply IH.
    + now rewrite <- app_assoc.
    + now apply chunk_step_inv with (todo := todo).
Qed.

Lemma chunk_turns_hold (c : chunk) :
  In c (chunk_turns all_turns max_size overlap) -> holds_turns all_turns max_size overlap c.
Proof.
  unfold chunk_turns, enumerate.
  set (st0 := {| chunks := []; current_chunk := []; current_size := 0;
                 chunk_speakers := ∅; start_turn := 0 |}).
  assert (H0 : speaker_inv all_turns max_size overlap 0 st0).
  { unfold speaker_inv. simpl. repeat split; try lia. constructor. }
  pose proof (chunk_fold_inv all_turns [] st0 eq_refl H0) as Hinv.
  simpl length in Hinv at 2.
  set (st := fold_left _ _ _) in *.
  destruct Hinv as (Hs & Hcur & Hpos & Hsize & Hbound & Hdone).
  assert (Hlen : length (current_chunk st) = (length all_turns - start_turn st)%nat).
  { rewrite Hcur, length_map, length_firstn, length_skipn. lia. }
  intros Hin.
  assert (Hin' : In c (chunks st) \/
                 (current_chunk st <> [] /\
                  c = speaker_chunk all_turns overlap st (Z.of_nat (length all_turns) - 1))).
  { destruct (current_chunk st); [now left|].
    apply in_app_or in Hin as [H|[H|[]]]; [now left|right].
    split; [discriminate|now symmetry]. }
  destruct Hin' as [H|[Hne ->]].
  - rewrite List.Forall_forall in Hdone. now apply Hdone.
  - assert (Hlt : (start_turn st < length all_turns)%nat).
    { destruct (current_chunk st); [congruence|]. simpl in Hlen. lia. }
    exists (start_turn st), ((length all_turns - start_turn st)%nat).
    split; [lia|]. split; [lia|].
    split; [simpl; do 2 f_equal; lia|].
    split; [reflexivity|].
    simpl. rewrite <- Hcur. split; [reflexivity|].
    destruct (Nat.eq_dec (length all_turns - start_turn st)%nat 1%nat) as [E|E];
      [now left|].
    right. apply Hbound. lia.
Qed.
End Speaker.

Section Paragraphs.
Variable config : adaptive_config.
Variable pars : list str.

Lemma para_step_inv (done todo : list str) (p : str) (st : para_state) :
  pars = done ++ p :: todo ->
  para_inv config pars (length done) st ->
  para_inv config pars (S (length done)) (para_step config st (length done, p)).
Proof.
  intros Hall (Hle & Hcur & Hpos & Hempty & Hsize & Hbound & Hdone).
  unfold para_step.
  destruct ((max_chunk_size config <? p_current_size st + len p)
            && nonempty (p_current_chunk st)) eqn:Eemit.
  - (* the chunk is closed; the next one starts with or without overlap *)
    apply andb_true_iff in Eemit as [_ Hne].
    assert (Hemitted : holds_paragraphs config pars
              (paragraph_chunk (p_current_chunk st) (p_current_size st)
                 (Z.of_nat (length done) - Z.of_nat (length (p_current_chunk st)))
                 (Z.of_nat (length done) - 1))).
    { exists ((length done - length (p_current_chunk st))%nat), (length (p_current_chunk st)).
      split; [destruct (p_current_chunk st); [discriminate|simpl; lia]|].
      split; [rewrite Hall, length_app; simpl; lia|].
      split; [reflexivity|].
      simpl. rewrite <- Hcur. split; [reflexivity|].
      destruct (p_current_chunk st) as [|a [|b [|c l]]] eqn:E.
      - discriminate.
      - now left.
      - destruct (Nat.eq_dec (length done - 2)%nat 0%nat) as [E0|E0].
        + right. right. apply Hbound. right. simpl. split; [reflexivity|exact E0].
        + right. left. simpl. split; [reflexivity|lia].
      - right. right. apply Hbound. left. simpl. lia. }
    destruct (p_current_chunk st) as [|a [|b l]] eqn:E; [discriminate| |].
    + (* one paragraph: no overlap *)
      unfold para_inv. cbn [p_current_chunk p_current_size p_chunks length].
      repeat split.
      * lia.
      * replace (S (length done) - 1)%nat with (length done) by lia.
        rewrite Hall, skipn_app, Nat.sub_diag, skipn_all. reflexivity.
      * discriminate.
      * discriminate.
      * intros _. simpl. lia.
      * intros [H|[H _]]; lia.
      * apply Forall_app_2; [exact Hdone|]. now repeat constructor.
    + (* several paragraphs: the last one is carried over *)
      unfold para_inv. cbn [p_current_chunk p_current_size p_chunks length].
      assert (Hcarried : List.last (a :: b :: l) [] = List.last done []).
      { rewrite Hcur, Hall. apply last_firstn_skipn. simpl in *. lia. }
      assert (Hd : done <> []) by (destruct done; [simpl in Hle; lia|discriminate]).
      repeat split.
      * simpl in Hle. lia.
      * rewrite Hcarried, Hall.
        destruct (exists_last Hd) as (d' & x & ->).
        rewrite last_last, length_app. simpl length.
        replace (S (length d' + 1) - 2)%nat with (length d') by lia.
        rewrite <- app_assoc, skipn_app, Nat.sub_diag, skipn_all. reflexivity.
      * discriminate.
      * discriminate.
      * intros _. set (carried := List.last (a :: b :: l) []). change (join [LF; LF] [carried; p]) with (carried ++ [LF; LF] ++ p). rewrite !len_app. change (len [LF; LF]) with 2. lia.
      * intros [H|[_ H]]; [lia|]. simpl in Hle. lia.
      * apply Forall_app_2; [exact Hdone|]. now repeat constructor.
  - (* the paragraph joins the current chunk *)
    unfold para_inv. cbn [p_current_chunk p_current_size p_chunks].
    rewrite length_app. simpl length.
    replace (length (p_current_chunk st) + 1)%nat with (S (length (p_current_chunk st))) by lia.
    assert (Hjoin : p_current_chunk st <> [] ->
              len (join [LF; LF] (p_current_chunk st ++ [p]))
              = len (join [LF; LF] (p_current_chunk st)) + 2 + len p).
    { intros Hne. rewrite !len_join by (try assumption; destruct (p_current_chunk st); discriminate).
      rewrite counted_app. simpl. change (len [LF; LF]) with 2. lia. }
    repeat split.
    + lia.
    + rewrite Hcur at 1. rewrite Hall. apply firstn_snoc_block. exact Hle.
    + intros _. destruct (p_current_chunk st); discriminate.
    + intros E. destruct (p_current_chunk st); discriminate.
    + intros _. destruct (p_current_chunk st) as [|a l] eqn:E.
      * rewrite (Hempty eq_refl). simpl. lia.
      * rewrite <- E in *. rewrite Hjoin by (rewrite E; discriminate).
        specialize (Hsize ltac:(rewrite E; discriminate)). lia.
    + intros Hlong. destruct (p_current_chunk st) as [|a l] eqn:E.
      * destruct Hlong as [H|[H _]]; simpl in H; lia.
      * rewrite <- E in *. rewrite Hjoin by (rewrite E; discriminate).
        specialize (Hsize ltac:(rewrite E; discriminate)).
        apply andb_false_iff in Eemit as [Hfit|Hemp].
        -- apply Z.ltb_ge in Hfit. lia.
        -- rewrite E in Hemp. discriminate.
    + exact Hdone.
Qed.

Lemma para_fold_inv (todo done : list str) (st : para_state) :
  pars = done ++ todo ->
  para_inv config pars (length done) st ->
  para_inv config pars (length pars)
    (fold_left (para_step config)
       (combine (seq (length done) (length todo)) todo) st).
Proof.
  revert done st. induction todo as [|t todo IH]; intros done st Hall Hinv.
  - assert (E : length pars = length done) by (now rewrite Hall, app_nil_r).
    simpl. rewrite E. exact Hinv.
  - simpl. specialize (IH (done ++ [t])).
    rewrite length_app, Nat.add_1_r in IH. apply IH.
    + now rewrite <- app_assoc.
    + now apply para_step_inv with (todo := todo).
Qed.

End Paragraphs.




End ChunkingFacts.

(** ** Transcript detection *)

Module DetectionFacts.

Import TextProcessor Properties PyFacts Examples.

Lemma star_class_skip (p : ascii -> bool) (k : cont) (fuel : nat) (c : cursor)
    (g : captures) :
  (forall c g, head_is p c = true -> k c g = None) ->
  (length (rest c) <= fuel)%nat ->
  star_loop (run_re (Chr p)) fuel c g k = k (skip_while p (seen c) (rest c)) g.
Proof.
  intros Hk. revert c. induction fuel as [|fuel IH]; intros [sn rs] Hf;
    cbn [star_loop run_re rest seen] in *.
  - destruct rs; [reflexivity|simpl in Hf; lia].
  - destruct rs as [|a t]; [reflexivity|]. cbn [skip_while].
    destruct (p a) eqn:Ea; [|reflexivity].
    unfold progress. cbn [rest seen length].
    rewrite (proj2 (Nat.ltb_lt _ _)) by lia.
    rewrite IH by (simpl in *; lia). cbn [rest seen].
    destruct (k (skip_while p (a :: sn) t) g) eqn:E; [reflexivity|].
    rewrite Hk; [reflexivity|]. unfold head_is. simpl. exact Ea.
Qed.

Lemma match_at_name_colon (c : cursor) :
  match_at name_colon c =
  match name_colon_at c with Some c' => Some (c', []) | None => None end.
Proof.
  unfold match_at, name_colon, name_colon_at. cbn [seq_of run_re Plus].
  destruct (at_word_boundary c); [|reflexivity].
  destruct c as [sn [|a [|b t]]]; cbn [rest seen]; try reflexivity.
  - destruct (isupper a); reflexivity.
  - destruct (isupper a); [|reflexivity]. cbn [andb rest seen].
    destruct (alpha_or_space b); [|reflexivity].
    etransitivity; [apply (star_class_skip alpha_or_space)|].
    + intros [sn' [|x t']] g' H; unfold head_is in H; simpl in H; [discriminate|].
      unfold char. cbn [run_re rest].
      destruct (ascii_eqb x ":") eqn:E; [|reflexivity].
      apply Ascii.eqb_eq in E. subst x. discriminate.
    + simpl. lia.
    + cbn [rest seen]. unfold colon_space, char, space. cbn [run_re].
      destruct (skip_while alpha_or_space (b :: a :: sn) t) as [sn' [|x [|y t']]];
        cbn [rest seen]; try reflexivity.
      * destruct (ascii_eqb x ":"); reflexivity.
      * destruct (ascii_eqb x ":"); [|reflexivity]. cbn [andb rest seen].
        destruct (isspace y); reflexivity.
Qed.

Lemma skip_while_app (p : ascii -> bool) (u r sn : str) :
  forallb p u = true -> not_p_head p r ->
  skip_while p sn (u ++ r) = {| seen := rev u ++ sn; rest := r |}.
Proof.
  revert sn. induction u as [|a u IH]; intros sn Hu Hr; simpl in *.
  - destruct r as [|b r]; [reflexivity|]. simpl in *. now rewrite Hr.
  - apply andb_true_iff in Hu as [Ha Hu]. rewrite Ha, IH by assumption.
    now rewrite <- app_assoc.
Qed.

Lemma skip_while_shape (p : ascii -> bool) (sn rs : str) :
  exists u r, rs = u ++ r /\ forallb p u = true /\ not_p_head p r /\
              skip_while p sn rs = {| seen := rev u ++ sn; rest := r |}.
Proof.
  revert sn. induction rs as [|a rs IH]; intros sn.
  - exists [], []. simpl. auto.
  - simpl. destruct (p a) eqn:Ea.
    + destruct (IH (a :: sn)) as (u & r & -> & Hu & Hr & E).
      exists (a :: u), r. simpl. rewrite Ea, E, <- app_assoc. auto.
    + exists [], (a :: rs). simpl. auto.
Qed.

(** What a match of [name_colon] consumes: a capital, a run of letters
    and spaces, a colon, a space. *)
Lemma name_colon_at_shape (c c' : cursor) :
  name_colon_at c = Some c' ->
  exists a run y,
    rest c = a :: run ++ ":"%char :: y :: rest c' /\
    isupper a = true /\ run <> [] /\ forallb alpha_or_space run = true /\
    isspace y = true /\
    seen c' = y :: ":"%char :: rev run ++ a :: seen c.
Proof.
  unfold name_colon_at. destruct (at_word_boundary c); [|discriminate].
  destruct c as [sn [|a [|b t]]]; cbn [rest seen]; try discriminate.
  destruct (isupper a) eqn:Ea; [|discriminate]. cbn [andb].
  destruct (alpha_or_space b) eqn:Eb; [|discriminate].
  destruct (skip_while_shape alpha_or_space (b :: a :: sn) t) as (u & r & -> & Hu & Hr & E).
  rewrite E. unfold colon_space. cbn [rest seen].
  destruct r as [|x [|y r]]; try discriminate.
  destruct (ascii_eqb x ":") eqn:Ex; [|discriminate]. cbn [andb].
  destruct (isspace y) eqn:Ey; [|discriminate].
  intros [= <-]. apply Ascii.eqb_eq in Ex. subst x.
  exists a, (b :: u), y. cbn [rest seen]. repeat split; auto.
  - simpl. now rewrite Eb.
  - simpl. now rewrite <- !app_assoc.
Qed.

Lemma name_colon_at_complete (c : cursor) (a y : ascii) (run r : str) :
  rest c = a :: run ++ ":"%char :: y :: r ->
  at_word_boundary c = true -> isupper a = true -> run <> [] ->
  forallb alpha_or_space run = true -> isspace y = true ->
  name_colon_at c = Some {| seen := y :: ":"%char :: rev run ++ a :: seen c; rest := r |}.
Proof.
  intros Hrest Hb Ha Hne Hrun Hy. unfold name_colon_at. rewrite Hb, Hrest.
  destruct run as [|b run]; [congruence|]. simpl in Hrun.
  apply andb_true_iff in Hrun as [Hb' Hrun].
  cbn [app]. rewrite Ha, Hb'. cbn [andb].
  rewrite skip_while_app by (auto; reflexivity).
  unfold colon_space. cbn [rest seen]. rewrite Hy. simpl.
  now rewrite <- !app_assoc.
Qed.

Lemma first_line_split (s : str) : s = first_line s ++ after_first_line s.
Proof.
  induction s as [|a t IH]; [reflexivity|]. simpl.
  destruct (ascii_eqb a LF); [reflexivity|]. simpl. now rewrite <- IH.
Qed.

Lemma first_line_no_LF (s : str) : forallb (fun a => negb (ascii_eqb a LF)) (first_line s) = true.
Proof.
  induction s as [|a t IH]; [reflexivity|]. simpl.
  destruct (ascii_eqb a LF) eqn:E; [reflexivity|]. simpl. now rewrite E.
Qed.

Lemma first_line_app (u s : str) :
  forallb (fun a => negb (ascii_eqb a LF)) u = true ->
  first_line (u ++ s) = u ++ first_line s.
Proof.
  induction u as [|a u IH]; [reflexivity|]. simpl. intros H.
  apply andb_true_iff in H as [Ha Hu]. apply negb_true_iff in Ha.
  now rewrite Ha, IH.
Qed.

Lemma first_line_incl (u s : str) (x : ascii) :
  forallb (fun a => negb (ascii_eqb a LF)) u = false ->
  In x (first_line (u ++ s)) -> In x u.
Proof.
  induction u as [|a u IH]; [discriminate|]. simpl. intros H.
  destruct (ascii_eqb a LF) eqn:Ea; simpl; [tauto|].
  simpl in H. intros [->|Hin]; [now left|right]. now apply IH.
Qed.

Lemma is_name_line_shape (l : str) :
  is_name_line l = true ->
  exists a run y r,
    l = a :: run ++ ":"%char :: y :: r /\
    isupper a = true /\ run <> [] /\ forallb alpha_or_space run = true /\
    isspace y = true.
Proof.
  unfold is_name_line, re_match. rewrite match_at_name_colon.
  destruct (name_colon_at (at_start l)) as [c'|] eqn:E; [|discriminate].
  intros _. apply name_colon_at_shape in E as (a & run & y & Hr & Ha & Hne & Hrun & Hy & _).
  exists a, run, y, (rest c'). simpl in Hr. auto.
Qed.

Lemma isupper_isword (a : ascii) : isupper a = true -> isword a = true.
Proof. unfold isword, isalpha. now intros ->. Qed.

Lemma isupper_alpha_or_space (a : ascii) : isupper a = true -> alpha_or_space a = true.
Proof. unfold alpha_or_space, isalpha. now intros ->. Qed.

Lemma colon_not_alpha_or_space : alpha_or_space ":"%char = false.
Proof. reflexivity. Qed.

Lemma LF_not_word : isword LF = false.
Proof. reflexivity. Qed.

(** A line beginning with [Name: ] is matched where it starts. *)
Lemma name_line_matches (c : cursor) :
  line_start c = true ->
  is_name_line (first_line (rest c)) = true ->
  exists c', name_colon_at c = Some c'.
Proof.
  intros Hls Hname.
  apply is_name_line_shape in Hname as (a & run & y & r & Hl & Ha & Hne & Hrun & Hy).
  pose proof (first_line_split (rest c)) as Hs. rewrite Hl in Hs.
  eexists. eapply name_colon_at_complete with (a := a) (run := run) (y := y).
  - rewrite Hs. simpl. rewrite <- app_assoc. simpl. reflexivity.
  - unfold at_word_boundary. rewrite Hs. simpl.
    rewrite (isupper_isword a Ha).
    unfold line_start in Hls. destruct (seen c) as [|b sn]; [reflexivity|].
    apply Ascii.eqb_eq in Hls. subst b. reflexivity.
  - exact Ha.
  - exact Hne.
  - exact Hrun.
  - exact Hy.
Qed.

Lemma is_name_line_upper (a : ascii) (l : str) :
  is_name_line (a :: l) = true -> isupper a = true.
Proof.
  intros H. apply is_name_line_shape in H as (a' & run & y & r & [= -> _] & Ha & _).
  exact Ha.
Qed.

Lemma is_name_line_has_colon (l : str) : is_name_line l = true -> In ":"%char l.
Proof.
  intros H. apply is_name_line_shape in H as (a & run & y & r & -> & _).
  right. apply in_or_app. right. now left.
Qed.

Lemma no_colon_in_run (u : str) :
  forallb alpha_or_space u = true -> ~ In ":"%char u.
Proof.
  intros Hu Hin. rewrite forallb_forall in Hu. apply Hu in Hin. discriminate.
Qed.

(** Behind a colon-free stretch without line feed no line starts before
    the colon and the space are passed. *)
Lemma name_lines_inside (u r : str) (y : ascii) :
  forallb (fun a => negb (ascii_eqb a LF)) u = true ->
  name_lines_from false (u ++ ":"%char :: y :: r) = name_lines_from (ascii_eqb y LF) r.
Proof.
  induction u as [|a u IH]; intros Hu.
  - reflexivity.
  - simpl in Hu. apply andb_true_iff in Hu as [Ha Hu]. apply negb_true_iff in Ha.
    cbn [app name_lines_from andb]. rewrite Ha. now apply IH.
Qed.

Lemma name_lines_consumed (u r : str) (y : ascii) (ls : bool) :
  forallb alpha_or_space u = true ->
  (name_lines_from ls (u ++ ":"%char :: y :: r)
   <= 1 + name_lines_from (ascii_eqb y LF) r)%nat.
Proof.
  revert ls. induction u as [|a u IH]; intros ls Hu.
  - cbn [app name_lines_from]. simpl first_line. cbn [andb].
    destruct ls; cbn [andb]; [|simpl; lia].
    destruct (is_name_line _) eqn:E; [|simpl; lia].
    apply is_name_line_upper in E. discriminate.
  - simpl in Hu. apply andb_true_iff in Hu as [Ha Hu].
    cbn [app name_lines_from].
    destruct (ls && is_name_line (first_line (a :: u ++ ":"%char :: y :: r))) eqn:E.
    + apply andb_true_iff in E as [_ E].
      assert (HnoLF : forallb (fun a => negb (ascii_eqb a LF)) (a :: u) = true).
      { destruct (forallb (fun a => negb (ascii_eqb a LF)) (a :: u)) eqn:F; [reflexivity|].
        exfalso. apply is_name_line_has_colon in E.
        change (a :: u ++ ":"%char :: y :: r) with ((a :: u) ++ ":"%char :: y :: r) in E.
        apply (first_line_incl _ _ _ F) in E.
        apply (no_colon_in_run (a :: u)); [|exact E].
        simpl. now rewrite Ha, Hu. }
      simpl in HnoLF. apply andb_true_iff in HnoLF as [Ha' Hu'].
      apply negb_true_iff in Ha'. rewrite Ha'.
      rewrite name_lines_inside by exact Hu'. lia.
    + specialize (IH (ascii_eqb a LF) Hu). lia.
Qed.

(** Every line that begins with [Name: ] costs the scan one match. *)
Lemma count_name_colon (fuel : nat) (c : cursor) :
  (length (rest c) < fuel)%nat ->
  (name_lines_from (line_start c) (rest c) <= count_from name_colon fuel c)%nat.
Proof.
  revert c. induction fuel as [|fuel IH]; intros c Hf; [lia|].
  cbn [count_from]. rewrite match_at_name_colon.
  destruct (name_colon_at c) as [c'|] eqn:E.
  - pose proof (name_colon_at_shape c c' E)
      as (a & run & y & Hr & Ha & Hne & Hrun & Hy & Hseen).
    assert (Hlen : (length (rest c') + 4 <= length (rest c))%nat).
    { rewrite Hr. simpl. rewrite length_app. simpl.
      destruct run; [congruence|simpl; lia]. }
    unfold progress. rewrite (proj2 (Nat.ltb_lt _ _)) by lia.
    specialize (IH c' ltac:(lia)).
    assert (Hls : line_start c' = ascii_eqb y LF).
    { unfold line_start. now rewrite Hseen. }
    rewrite Hls in IH. rewrite Hr.
    change (a :: run ++ ":"%char :: y :: rest c')
      with ((a :: run) ++ ":"%char :: y :: rest c').
    etransitivity; [apply name_lines_consumed|lia].
    simpl. now rewrite (isupper_alpha_or_space a Ha), Hrun.
  - destruct c as [sn [|a t]]; cbn [rest seen advance name_lines_from] in *; [lia|].
    destruct (line_start {| seen := sn; rest := a :: t |}
              && is_name_line (first_line (a :: t))) eqn:Ename.
    + apply andb_true_iff in Ename as [Hls Hn].
      destruct (name_line_matches {| seen := sn; rest := a :: t |} Hls Hn) as [c' Hc'].
      congruence.
    + specialize (IH {| seen := a :: sn; rest := t |} ltac:(simpl in *; lia)).
      exact IH.
Qed.





Lemma split_char_first_line (s : str) :
  exists ls, split_char LF s = first_line s :: ls.
Proof.
  induction s as [|a t [ls IH]].
  - exists []. reflexivity.
  - rewrite split_char_cons. simpl. destruct (ascii_eqb a LF).
    + eexists. reflexivity.
    + rewrite IH. eexists. reflexivity.
Qed.

Lemma name_lines_from_lines (s : str) :
  name_lines_from true s = count_lines is_name_line (split_char LF s) /\
  name_lines_from false s = count_lines is_name_line (List.tl (split_char LF s)).
Proof.
  induction s as [|a t [IHt IHf]].
  - split; reflexivity.
  - rewrite split_char_cons. cbn [name_lines_from andb first_line].
    destruct (ascii_eqb a LF) eqn:Ea.
    + cbn [List.tl]. unfold count_lines in *. cbn [List.filter].
      change (is_name_line []) with false. cbn iota. simpl. lia.
    + destruct (split_char_first_line t) as [ls Hls]. rewrite Hls in *.
      cbn [List.tl] in *. unfold count_lines in *. cbn [List.filter].
      rewrite IHf. destruct (is_name_line (a :: first_line t)); simpl; lia.
Qed.

Lemma findall_name_colon (text : str) :
  (count_lines is_name_line (split_char LF text) <= findall_count name_colon text)%nat.
Proof.
  rewrite <- (proj1 (name_lines_from_lines text)).
  unfold findall_count.
  apply (count_name_colon (S (length text)) (at_start text)). simpl. lia.
Qed.

Lemma ratio_exceeds_of (matches total k : nat) :
  (0 < total)%nat -> (k <= matches)%nat -> (3 * total <= 10 * k)%nat ->
  ratio_exceeds matches total (2 # 10) = true.
Proof.
  intros Ht Hk H. unfold ratio_exceeds.
  rewrite (proj2 (Nat.ltb_lt _ _)) by lia. simpl andb.
  unfold Qlt_bool. apply negb_true_iff.
  destruct (Qle_bool _ _) eqn:E; [|reflexivity].
  apply Qle_bool_iff in E. unfold Qle in E. simpl in E.
  assert (Hp : Z.pos (Pos.of_nat total) = Z.of_nat total)
    by (rewrite <- positive_nat_Z, Nat2Pos.id; lia).
  rewrite Hp in E. exfalso. lia.
Qed.



Lemma save_turn_pending (st : turn_state) : turn_pending st -> save_turn st <> [].
Proof.
  unfold turn_pending, save_turn. intros [H|[Hs Ht]].
  - destruct (current_speaker st) as [sp|]; [|exact H].
    destruct (nonempty sp && nonempty (current_text st)); [|exact H].
    intros E. apply app_eq_nil in E as [E _]. contradiction.
  - destruct (current_speaker st) as [[|a sp]|]; try discriminate.
    destruct (current_text st); [congruence|]. simpl.
    intros E. apply app_eq_nil in E as [_ E]. discriminate.
Qed.

Lemma turn_step_pending (st : turn_state) (line : str) :
  turn_pending st -> turn_pending (turn_step st line).
Proof.
  intros H. unfold turn_step.
  destruct (strip line) as [|a l]; [exact H|].
  destruct (match_speaker (a :: l)) as [[sp tx]|].
  - left. simpl. now apply save_turn_pending.
  - destruct (current_text st) as [|t ts] eqn:Et.
    + destruct H as [H|[_ H]]; [now left|congruence].
    + destruct H as [H|[Hs _]]; [now left|right]. simpl. split; [exact Hs|].
      discriminate.
Qed.

Lemma turn_step_named (st : turn_state) (line sp tx : str) :
  match_speaker (strip line) = Some (sp, tx) -> sp <> [] ->
  turn_pending (turn_step st line).
Proof.
  intros Hm Hsp. unfold turn_step.
  destruct (strip line) as [|a l] eqn:El.
  - vm_compute in Hm. discriminate.
  - rewrite Hm. right. simpl. split; [|discriminate].
    destruct sp; [congruence|reflexivity].
Qed.

Lemma fold_turn_pending (lines : list str) (st : turn_state) :
  turn_pending st -> turn_pending (fold_left turn_step lines st).
Proof.
  revert st. induction lines as [|l lines IH]; intros st H; simpl; [exact H|].
  apply IH. now apply turn_step_pending.
Qed.

Lemma fold_turn_named (lines : list str) (st : turn_state) (line sp tx : str) :
  In line lines ->
  match_speaker (strip line) = Some (sp, tx) -> sp <> [] ->
  turn_pending (fold_left turn_step lines st).
Proof.
  revert st. induction lines as [|l lines IH]; intros st Hin Hm Hsp; [destruct Hin|].
  simpl. destruct Hin as [->|Hin].
  - apply fold_turn_pending. now apply turn_step_named with (sp := sp) (tx := tx).
  - now apply IH.
Qed.

Lemma named_line_gives_turn (text line sp tx : str) :
  In line (split_char LF text) ->
  match_speaker (strip line) = Some (sp, tx) -> sp <> [] ->
  extract_turns text <> [].
Proof.
  intros Hin Hm Hsp. unfold extract_turns. apply save_turn_pending.
  now apply fold_turn_named with (line := line) (sp := sp) (tx := tx).
Qed.

Lemma fallback_chunks_typed (text : str) (max_size overlap : Z) (chunks : list chunk) :
  chunk_by_speaker text max_size overlap = Ok chunks ->
  (extract_turns text <> [] -> Forall (has_type "speaker_based") chunks) /\
  (extract_turns text = [] -> Forall (has_type "fallback") chunks).
Proof.
  intros Hrun. unfold chunk_by_speaker in Hrun.
  destruct text as [|a text'] eqn:Et.
  { injection Hrun as <-. split; constructor. }
  rewrite <- Et in *. clear Et.
  destruct (extract_turns text) as [|t ts] eqn:Eturns.
  - split; [congruence|]. intros _.
    destruct (chunk_text text max_size 0) as [regular|e]; [|discriminate].
    injection Hrun as <-. apply List.Forall_forall. intros c Hc.
    apply in_map_iff in Hc as (x & <- & _). reflexivity.
  - split; [|discriminate]. intros _. injection Hrun as <-.
    apply List.Forall_forall. intros c Hc.
    apply ChunkingFacts.chunk_turns_hold in Hc as (s & n & _ & _ & _ & Hty & _).
    exact Hty.
Qed.

(** C7 (as amended): when at least 30% of the non-blank lines begin with
    a capitalised name, a colon and a space, the text is classified as a
    meeting transcript and adaptive chunking runs speaker-turn chunking.
    Its chunks are tagged [speaker_based] when the splitter extracts at
    least one turn, which it does as soon as one line yields a non-empty
    speaker label; when it extracts none they are tagged [fallback]. *)
Theorem name_lines_select_speaker_chunking
    (sem : str -> Q -> Z -> result (list chunk))
    (text file_name mime_type : str) (config : adaptive_config) :
  (0 < total_lines text)%nat ->
  (3 * total_lines text <= 10 * count_lines is_name_line (split_char LF text))%nat ->
  _detect_meeting_transcript text file_name = true /\
  adaptive_chunk_text sem text file_name mime_type config
  = chunk_by_speaker text (max_chunk_size config) (speaker_overlap config) /\
  (forall chunks,
     chunk_by_speaker text (max_chunk_size config) (speaker_overlap config) = Ok chunks ->
     (extract_turns text <> [] -> Forall (has_type "speaker_based") chunks) /\
     (extract_turns text = [] -> Forall (has_type "fallback") chunks)) /\
  (forall line sp tx,
     In line (split_char LF text) ->
     match_speaker (strip line) = Some (sp, tx) -> sp <> [] ->
     extract_turns text <> []).
Proof.
  intros Hn Hk.
  assert (Hd : _detect_meeting_transcript text file_name = true).
  { unfold _detect_meeting_transcript.
    destruct (nonempty file_name && _); [reflexivity|].
    apply ratio_exceeds_of with (k := count_lines is_name_line (split_char LF text));
      [exact Hn| |exact Hk].
    unfold count_matches, detect_speaker_patterns, list_sum. cbn [List.map fold_right].
    pose proof (findall_name_colon text). lia. }
  split; [exact Hd|]. split; [|split].
  - unfold adaptive_chunk_text. rewrite Hd.
    destruct text; [|reflexivity]. cbv in Hn. lia.
  - intros chunks. apply fallback_chunks_typed.
  - apply named_line_gives_turn.
Qed.

(** C7 on a transcript of ten lines, three of which begin with a name. *)
Lemma name_lines_select_speaker_chunking_witness :
  _detect_meeting_transcript transcript [] = true /\
  adaptive_chunk_text no_semantic transcript [] [] default_config
  = chunk_by_speaker transcript 800 1.
Proof.
  pose proof (name_lines_select_speaker_chunking no_semantic transcript [] []
                default_config) as H.
  assert (Hn : (0 < total_lines transcript)%nat) by (vm_compute; lia).
  assert (Hk : (3 * total_lines transcript
                <= 10 * count_lines is_name_line (split_char LF transcript))%nat)
    by (vm_compute; lia).
  destruct (H Hn Hk) as (Hd & Ha & _). split; [exact Hd|exact Ha].
Defined.

(** C7 as stated fails: one of the two lines of the check list begins
    with a name, the text is classified as a transcript, and its only
    chunk is tagged [fallback]. *)
Lemma check_list_gets_fallback_chunks :
  (3 * total_lines check_list
   <= 10 * count_lines is_name_line (split_char LF check_list))%nat /\
  _detect_meeting_transcript check_list [] = true /\
  types (adaptive_chunk_text no_semantic check_list [] [] default_config)
  = Ok [lit "fallback"].
Proof. vm_compute. repeat split; try reflexivity. lia. Qed.

End DetectionFacts.

(** ** The quality filter, deduplication and ranking of insights *)

Module InsightsFacts.

Import Insights PyFacts Examples.

Lemma Qeq_bool_refl (q : Q) : Qeq_bool q q = true.
Proof. apply Qeq_bool_iff. reflexivity. Qed.

Lemma list_eqb_refl {A} (eqb : A -> A -> bool) (l : list A) :
  (forall x, eqb x x = true) -> list_eqb eqb l l = true.
Proof. intros H. induction l; simpl; [reflexivity|]. now rewrite H. Qed.

Lemma insight_eqb_refl (i : EnhancedBusinessInsight) : insight_eqb i i = true.
Proof.
  unfold insight_eqb. rewrite !str_eqb_refl, Qeq_bool_refl, Bool.eqb_reflx.
  destruct (financial_impact i); simpl; rewrite ?Qeq_bool_refl;
  destruct (urgency_indicators i); simpl;
    rewrite ?(list_eqb_refl str_eqb _ str_eqb_refl); reflexivity.
Qed.

(** *** Membership is only ever lost along the stage *)

Lemma list_remove_incl x e l : In x (list_remove e l) -> In x l.
Proof.
  induction l as [|y l IH]; simpl; [tauto|].
  destruct (insight_eqb y e); simpl; intuition.
Qed.

Lemma list_remove_length e l : (length (list_remove e l) <= length l)%nat.
Proof.
  induction l as [|y l IH]; simpl; [lia|].
  destruct (insight_eqb y e); simpl; lia.
Qed.

Lemma dedup_step_incl x u i : In x (dedup_step u i) -> In x u \/ x = i.
Proof.
  unfold dedup_step. destruct (List.find (is_similar i) u) as [e|].
  - destruct (Qlt_bool _ _); [|tauto].
    intros H. apply in_app_or in H as [H|[H|[]]]; [|now right].
    left. eapply list_remove_incl, H.
  - intros H. apply in_app_or in H as [H|[H|[]]]; auto.
Qed.

Lemma dedup_fold_incl x l u :
  In x (fold_left dedup_step l u) -> In x u \/ In x l.
Proof.
  revert u; induction l as [|i l IH]; simpl; intros u H; [tauto|].
  apply IH in H as [H|H]; [|tauto].
  apply dedup_step_incl in H. intuition.
Qed.

Lemma remove_duplicate_incl x l :
  In x (_remove_duplicate_insights l) -> In x l.
Proof.
  unfold _remove_duplicate_insights. destruct (_ <=? _)%nat; [tauto|].
  intros H. apply dedup_fold_incl in H as [[]|H]. exact H.
Qed.

Section SortedFacts.
Context {A : Type} (key : A -> Q).


Lemma insert_desc_in x y l : In x (insert_desc key y l) <-> x = y \/ In x l.
Proof.
  induction l as [|z l IH]; simpl; [intuition|].
  destruct (Qlt_bool _ _); simpl; rewrite ?IH; intuition.
Qed.

Lemma sorted_desc_in x l : In x (sorted_desc key l) <-> In x l.
Proof.
  induction l as [|y l IH]; simpl; [tauto|].
  rewrite insert_desc_in, IH. intuition.
Qed.

Lemma insert_desc_length y l : length (insert_desc key y l) = S (length l).
Proof.
  induction l as [|z l IH]; simpl; [reflexivity|].
  destruct (Qlt_bool _ _); simpl; now rewrite ?IH.
Qed.

Lemma sorted_desc_length l : length (sorted_desc key l) = length l.
Proof.
  induction l as [|y l IH]; simpl; [reflexivity|].
  now rewrite insert_desc_length, IH.
Qed.
End SortedFacts.

Lemma filter_and_rank_quality x insights :
  In x (_filter_and_rank_insights insights) ->
  In x insights /\ passes_quality x = true.
Proof.
  unfold _filter_and_rank_insights, filter_and_rank_by. destruct insights as [|i l]; [intros []|].
  intros H. apply In_firstn in H. apply sorted_desc_in in H.
  apply remove_duplicate_incl in H. now apply filter_In in H.
Qed.

Lemma filter_and_rank_single i :
  passes_quality i = true -> _filter_and_rank_insights [i] = [i].
Proof.
  intros H. unfold _filter_and_rank_insights, filter_and_rank_by. simpl List.filter. rewrite H.
  reflexivity.
Qed.

Lemma routine_false_of_value i :
  truthy_decimal (financial_impact i) || critical_path_impact i = true ->
  _is_obviously_routine i = false.
Proof.
  intros H. unfold _is_obviously_routine.
  destruct (List.find _ _); [|reflexivity].
  destruct (truthy_decimal _), (critical_path_impact _); simpl in *; congruence.
Qed.

(** C1 (as amended): a candidate with confidence below 0.7, a title
    shorter than 10 characters or a description shorter than 20 is never
    in the output of the stage, whatever its financial impact or
    critical-path flag.  The two flags stand in only for the severity:
    a candidate of severity outside critical, high and medium that
    meets the other criteria passes exactly when it carries a truthy
    financial impact or the critical-path flag; and a candidate that
    passes, alone in the input, is the output. *)
Theorem filter_threshold_has_no_escape_hatch :
  (forall insights i,
     ((confidence_score i < 7 # 10)%Q \/ len (title i) < 10 \/ len (description i) < 20) ->
     ~ In i (_filter_and_rank_insights insights)) /\
  (forall i,
     str_in (severity i) [lit "critical"; lit "high"; lit "medium"] = false ->
     (7 # 10 <= confidence_score i)%Q -> 10 <= len (title i) -> 20 <= len (description i) ->
     str_in (insight_type i) BusinessInsightType_values = true ->
     (passes_quality i = true <->
      truthy_decimal (financial_impact i) || critical_path_impact i = true)) /\
  (forall i, passes_quality i = true -> _filter_and_rank_insights [i] = [i]).
Proof.
  split; [|split].
  - intros insights i Hlow Hin.
    apply filter_and_rank_quality in Hin as [_ Hq].
    unfold passes_quality in Hq. rewrite !andb_true_iff in Hq.
    destruct Hq as [[[[[Hc Ht] Hd] _] _] _].
    apply Qle_bool_iff in Hc. apply Z.leb_le in Ht, Hd.
    destruct Hlow as [Hlow|[Hlow|Hlow]]; [|lia|lia].
    now apply (Qlt_not_le _ _ Hlow).
  - intros i Hsev Hc Ht Hd Hty. unfold passes_quality.
    rewrite Hsev, Hty. apply Qle_bool_iff in Hc. rewrite Hc.
    apply Z.leb_le in Ht, Hd. rewrite Ht, Hd. simpl.
    split.
    + intros H. apply andb_true_iff in H as [H _]. exact H.
    + intros H. rewrite H. simpl. now rewrite routine_false_of_value.
  - apply filter_and_rank_single.
Qed.

(** C1 on the candidate of confidence 0.6 and on the one of confidence
    0.9 and severity low, both with a financial impact of 10000. *)
Lemma filter_threshold_has_no_escape_hatch_witness :
  ~ In unsure_with_impact
      (_filter_and_rank_insights [unsure_with_impact; minor_with_impact]) /\
  _filter_and_rank_insights [minor_with_impact] = [minor_with_impact].
Proof.
  destruct filter_threshold_has_no_escape_hatch as (Hdrop & Hsev & Hkeep).
  split.
  - apply Hdrop. left. vm_compute. reflexivity.
  - apply Hkeep. apply Hsev; vm_compute; first [reflexivity | discriminate].
Defined.

(** C1 as stated fails: the candidate of confidence 0.6 with a financial
    impact of 10000 does not survive the filter. *)
Lemma low_confidence_with_impact_is_dropped :
  (confidence_score unsure_with_impact == 6 # 10)%Q /\
  financial_impact unsure_with_impact = Some (10000 # 1) /\
  _filter_and_rank_insights [unsure_with_impact] = [].
Proof. vm_compute. repeat split; reflexivity. Qed.

(** C2: the stage returns at most five insights, and at most five of
    them are written to the database, whatever the inserts answer. *)
Theorem at_most_five_insights_persist (insights : list EnhancedBusinessInsight)
    (insert_ok : EnhancedBusinessInsight -> bool) :
  (length (_filter_and_rank_insights insights) <= 5)%nat /\
  (length (save_insights_to_database insert_ok (_filter_and_rank_insights insights)) <= 5)%nat.
Proof.
  assert (H : (length (_filter_and_rank_insights insights) <= 5)%nat).
  { unfold _filter_and_rank_insights, filter_and_rank_by. destruct insights; simpl length; [lia|].
    apply firstn_le_length. }
  split; [exact H|].
  unfold save_insights_to_database.
  etransitivity; [apply List.filter_length_le|exact H].
Qed.

(** C5 (as amended): given two candidates, the whole input, whose
    titles have a similarity above 0.7 or whose descriptions have one
    above 0.8, both bounds strict, deduplication keeps exactly one: the
    second when its confidence is strictly higher, the first
    otherwise. *)
Theorem dedup_pair_keeps_higher_confidence (a b : EnhancedBusinessInsight) :
  ((7 # 10 < _calculate_similarity (title b) (title a))%Q \/
   (8 # 10 < _calculate_similarity (description b) (description a))%Q) ->
  ((confidence_score a < confidence_score b)%Q ->
     _remove_duplicate_insights [a; b] = [b]) /\
  ((confidence_score b <= confidence_score a)%Q ->
     _remove_duplicate_insights [a; b] = [a]).
Proof.
  intros Hsim.
  assert (Hs : is_similar b a = true).
  { unfold is_similar. apply orb_true_iff.
    destruct Hsim as [H|H]; [left|right]; now apply Qlt_bool_iff. }
  change (_remove_duplicate_insights [a; b]) with (dedup_step [a] b).
  unfold dedup_step. cbn [List.find]. rewrite Hs. split; intros Hc.
  - apply Qlt_bool_iff in Hc. rewrite Hc. cbn [list_remove].
    now rewrite insight_eqb_refl.
  - apply Qlt_bool_false_iff in Hc. now rewrite Hc.
Qed.

(** C5 on two candidates with the same description. *)
Lemma dedup_pair_keeps_higher_confidence_witness :
  _remove_duplicate_insights [overrun_first; overrun_copy] = [overrun_copy].
Proof.
  assert (H : (7 # 10 < _calculate_similarity (title overrun_copy) (title overrun_first))%Q \/
              (8 # 10 < _calculate_similarity (description overrun_copy)
                                              (description overrun_first))%Q).
  { right. vm_compute. reflexivity. }
  destruct (dedup_pair_keeps_higher_confidence overrun_first overrun_copy H) as [Hlt _].
  apply Hlt. vm_compute. reflexivity.
Defined.

(** C5 as stated fails: the descriptions share four of their five words,
    a similarity of exactly 0.8, and both candidates survive. *)
Lemma similarity_of_four_fifths_keeps_both :
  (_calculate_similarity (description overrun_second) (description overrun_first)
   == 8 # 10)%Q /\
  _remove_duplicate_insights [overrun_first; overrun_second]
  = [overrun_first; overrun_second].
Proof. vm_compute. split; reflexivity. Qed.

(** On a longer input a candidate is compared with the first kept
    insight it resembles and with no other: here the third candidate
    replaces the first, whose title it has, and stays beside the second,
    whose description it has. *)
Lemma similar_pair_survives_in_longer_input :
  is_similar renewal_of_capacity capacity = true /\
  _remove_duplicate_insights [renewal; capacity; renewal_of_capacity]
  = [capacity; renewal_of_capacity].
Proof. vm_compute. split; reflexivity. Qed.

(** *** The parser of the model's answer *)

Section ParserFacts.

Variable json_loads : str -> result json.
Variable py_float : str -> option Q.

Local Abbreviation parse := (_parse_insights_json json_loads py_float).
Local Abbreviation attempt := (try_pattern json_loads).






Lemma filter_all (l : list json) :
  forallb is_dict l = true -> List.filter is_dict l = l.
Proof.
  induction l as [|x l IH]; simpl; [reflexivity|].
  intros H. apply andb_true_iff in H as [-> H]. now rewrite IH.
Qed.









End ParserFacts.


(** An exception of [json.loads] that is not [json.JSONDecodeError]
    leaves the parser, and the stage answers the empty list. *)
Lemma deep_nesting_leaves_the_parser :
  _parse_insights_json loads_shallow no_float deep_brackets = Raise RecursionError /\
  parse_model_answer loads_shallow no_float (Ok deep_brackets) = JArr [].
Proof. vm_compute. split; reflexivity. Qed.


End InsightsFacts.

(** ** The storage watcher *)

Module WatcherFacts.

Import Watcher PyFacts Examples.

Ltac red_w :=
  cbn beta iota delta [negb fst snd calls known_files dry_run has_state_manager
                       supported_mime_types last_check_time] in *.
Ltac run :=
  unfold bind, ret, raise, try_except, call, get, modify, log, set_known_files, after in *;
  red_w.

Lemma known_eqb_iff (o : option str) (h : str) :
  option_eqb str_eqb o (Some h) = true <-> o = Some h.
Proof.
  destruct o as [x|]; simpl; [|split; congruence].
  rewrite str_eqb_eq. split; congruence.
Qed.

Section Runs.

Variable svc : services.

Lemma after_id (w : watcher) : after w (known_files w) [] = w.
Proof. destruct w. unfold after. simpl. now rewrite app_nil_r. Qed.

Lemma download_file_spec (b p : str) (w : watcher) :
  let r := storage_download svc (calls w) b p in
  download_file svc b p w =
  (Ok (match r with Ok (c :: cs) => Some (c :: cs) | _ => None end),
   after w (known_files w) [Download b p r]).
Proof.
  unfold download_file. run.
  destruct (storage_download svc (calls w) b p) as [[|c cs]|e]; reflexivity.
Qed.

(** The complete case analysis of one run of [process_file], whether
    it returns or raises. *)
Lemma process_file_cases (fi : file_info) (w : watcher) :
  let fid := file_id_of fi in
  let dl := storage_download svc (calls w) (bucket fi) (name fi) in
  exists r evs k,
    process_file svc fi w = (r, after w k (Download (bucket fi) (name fi) dl :: evs)) /\
    k = match rag_written (Download (bucket fi) (name fi) dl :: evs) with
        | Some (f, h) => <[f := h]> (known_files w)
        | None => known_files w
        end /\
    (r <> Ok true -> rag_written (Download (bucket fi) (name fi) dl :: evs) = None) /\
    (forall f h, rag_written (Download (bucket fi) (name fi) dl :: evs) = Some (f, h) ->
       r = Ok true /\ f = fid /\
       exists content, dl = Ok content /\ h = compute_file_hash svc content).
Proof.
  intros fid dl. unfold process_file. unfold bind at 1. rewrite download_file_spec.
  fold dl. destruct dl as [[|c cs]|e] eqn:Ed.
  - exists (Ok false), [], (known_files w). repeat split; try discriminate.
  - run.
    destruct (option_eqb str_eqb _ _) eqn:Ek.
    { exists (Ok true), [], (known_files w). repeat split; try discriminate. }
    unfold mime_type_of. destruct (metadata fi) as [m|] eqn:Emeta.
    2:{ exists (Raise AttributeError), [], (known_files w).
        repeat split; try discriminate. }
    destruct (is_mime_type_supported _ _) eqn:Em; red_w.
    2:{ exists (Ok false), [], (known_files w). repeat split; try discriminate. }
    destruct (dry_run w) eqn:Edry; red_w.
    { exists (Ok true), [], (known_files w). repeat split; try discriminate. }
    destruct (known_files w !! file_id_of fi) as [old|] eqn:Eold; red_w.
    + match goal with |- context [delete_document_by_file_id svc ?t ?f] =>
        destruct (delete_document_by_file_id svc t f) as [[]|e1] eqn:Edel end; red_w.
      2:{ eexists (Ok false), [_], (known_files w). rewrite <- app_assoc. simpl.
          repeat split; try discriminate. }
      match goal with |- context [extract_text_from_file svc ?t ?a ?b ?c] =>
        destruct (extract_text_from_file svc t a b c) as [[|t0 ts]|e2] eqn:Eex end; red_w.
      1,3: eexists (Ok false), [_; _], (known_files w); rewrite <- !app_assoc; simpl;
           repeat split; try discriminate.
      match goal with |- context [process_file_for_rag svc ?t ?a ?b ?c ?d ?e] =>
        destruct (process_file_for_rag svc t a b c d e) as [[|]|e3] eqn:Erag end; red_w.
      2,3: eexists (Ok false), [_; _; _], (known_files w); rewrite <- !app_assoc; simpl;
           repeat split; try discriminate.
      eexists (Ok true), [_; _; _], _. rewrite <- !app_assoc. simpl.
      split; [reflexivity|]. split; [reflexivity|]. split; [congruence|].
      intros f h [= <- <-]. repeat split. eexists; split; reflexivity.
    + match goal with |- context [extract_text_from_file svc ?t ?a ?b ?c] =>
        destruct (extract_text_from_file svc t a b c) as [[|t0 ts]|e2] eqn:Eex end; red_w.
      1,3: eexists (Ok false), [_], (known_files w); rewrite <- !app_assoc; simpl;
           repeat split; try discriminate.
      match goal with |- context [process_file_for_rag svc ?t ?a ?b ?c ?d ?e] =>
        destruct (process_file_for_rag svc t a b c d e) as [[|]|e3] eqn:Erag end; red_w.
      2,3: eexists (Ok false), [_; _], (known_files w); rewrite <- !app_assoc; simpl;
           repeat split; try discriminate.
      eexists (Ok true), [_; _], _. rewrite <- !app_assoc. simpl.
      split; [reflexivity|]. split; [reflexivity|]. split; [congruence|].
      intros f h [= <- <-]. repeat split. eexists; split; reflexivity.
  - exists (Ok false), [], (known_files w). repeat split; try discriminate.
Qed.

Lemma save_state_dry_run (w : watcher) : dry_run w = true -> save_state svc w = (Ok tt, w).
Proof. intros H. unfold save_state. run. now rewrite H. Qed.

(** C3 (as amended): when the download returns non-empty bytes whose
    digest is the fingerprint stored for the file, [process_file] makes
    no other call, leaves the fingerprint map as it is and returns
    [True], whatever the reported timestamps.  When the stored
    fingerprint is another one or none, the watcher is not in dry-run
    mode and the MIME type of the file is supported, reprocessing
    starts: the next call is the deletion of the old version when a
    fingerprint is stored, and then, or at once when none is stored, the
    text extraction. *)
Theorem unchanged_fingerprint_skips_processing (fi : file_info) (w : watcher)
    (content : bytes) :
  storage_download svc (calls w) (bucket fi) (name fi) = Ok content ->
  content <> [] ->
  (known_files w !! file_id_of fi = Some (compute_file_hash svc content) ->
   forall created updated,
     process_file svc (set_timestamps created updated fi) w =
     (Ok true, after w (known_files w) [Download (bucket fi) (name fi) (Ok content)])) /\
  (known_files w !! file_id_of fi <> Some (compute_file_hash svc content) ->
   dry_run w = false ->
   forall mime_type,
   mime_type_of fi = Ok mime_type ->
   is_mime_type_supported w mime_type = true ->
   exists b k evs,
     process_file svc fi w =
     (Ok b, after w k (Download (bucket fi) (name fi) (Ok content) :: evs)) /\
     reprocessing_started (has_fingerprint w fi) evs = true).
Proof.
  intros Hdl Hne. destruct content as [|c cs]; [congruence|]. split.
  - intros Hk created updated.
    change (process_file svc (set_timestamps created updated fi) w)
      with (process_file svc fi w).
    unfold process_file. unfold bind at 1. rewrite download_file_spec, Hdl.
    run. rewrite Hk. rewrite (proj2 (known_eqb_iff _ _) eq_refl). reflexivity.
  - intros Hk Hdry mime_type Hty Hmime.
    unfold process_file. unfold bind at 1. rewrite download_file_spec, Hdl.
    run.
    destruct (option_eqb str_eqb _ _) eqn:Ek.
    { apply known_eqb_iff in Ek. congruence. }
    rewrite Hty.
    unfold is_mime_type_supported in *. red_w. rewrite Hmime, Hdry. red_w.
    unfold has_fingerprint.
    destruct (known_files w !! file_id_of fi) as [old|] eqn:Eold; red_w.
    + match goal with |- context [delete_document_by_file_id svc ?t ?f] =>
        destruct (delete_document_by_file_id svc t f) as [[]|e1] eqn:Edel end; red_w.
      2:{ eexists false, _, [_]. rewrite <- app_assoc. simpl. split; reflexivity. }
      match goal with |- context [extract_text_from_file svc ?t ?a ?b ?c] =>
        destruct (extract_text_from_file svc t a b c) as [[|t0 ts]|e2] eqn:Eex end; red_w.
      1,3: eexists false, _, [_; _]; rewrite <- !app_assoc; simpl; split; reflexivity.
      match goal with |- context [process_file_for_rag svc ?t ?a ?b ?c ?d ?e] =>
        destruct (process_file_for_rag svc t a b c d e) as [[|]|e3] eqn:Erag end; red_w.
      all: eexists _, _, [_; _; _]; rewrite <- !app_assoc; simpl; split; reflexivity.
    + match goal with |- context [extract_text_from_file svc ?t ?a ?b ?c] =>
        destruct (extract_text_from_file svc t a b c) as [[|t0 ts]|e2] eqn:Eex end; red_w.
      1,3: eexists false, _, [_]; rewrite <- !app_assoc; simpl; split; reflexivity.
      match goal with |- context [process_file_for_rag svc ?t ?a ?b ?c ?d ?e] =>
        destruct (process_file_for_rag svc t a b c d e) as [[|]|e3] eqn:Erag end; red_w.
      all: eexists _, _, [_; _]; rewrite <- !app_assoc; simpl; split; reflexivity.
Qed.

(** X19: whether a run of [process_file] returns or raises, the
    fingerprint map is updated, at the identity of the file and with the
    digest of the downloaded bytes, exactly when the last call of the
    run is [process_file_for_rag] answering [True], and then the run
    returns [True]; every other run leaves the map as it is. *)
Theorem fingerprint_recorded_only_on_success (fi : file_info) (w : watcher) :
  exists r evs,
    process_file svc fi w =
      (r, after w (match rag_written evs with
                   | Some (f, h) => <[f := h]> (known_files w)
                   | None => known_files w
                   end) evs) /\
    (r <> Ok true -> rag_written evs = None) /\
    (forall f h, rag_written evs = Some (f, h) ->
       r = Ok true /\ f = file_id_of fi /\
       exists content,
         storage_download svc (calls w) (bucket fi) (name fi) = Ok content /\
         h = compute_file_hash svc content).
Proof.
  destruct (process_file_cases fi w) as (r & evs & k & E & -> & Hf & Hs).
  eexists r, _. split; [exact E|]. split; assumption.
Qed.

(** C8 (as amended): in dry-run mode [process_file] makes the download
    and no other call and leaves the fingerprint map as it is, and
    [save_state] does nothing.  It returns [True] exactly when the
    download gives non-empty bytes and either their digest is the stored
    fingerprint or the MIME type is determined and supported; for a
    listing entry whose [metadata] is an object it returns [False]
    otherwise. *)
Theorem dry_run_makes_no_changes (fi : file_info) (w : watcher) :
  dry_run w = true ->
  let dl := storage_download svc (calls w) (bucket fi) (name fi) in
  (exists r,
     process_file svc fi w =
       (r, after w (known_files w) [Download (bucket fi) (name fi) dl]) /\
     (r = Ok true <->
      exists content, dl = Ok content /\ content <> [] /\
        (known_files w !! file_id_of fi = Some (compute_file_hash svc content) \/
         exists mime_type,
           mime_type_of fi = Ok mime_type /\
           is_mime_type_supported w mime_type = true)) /\
     (metadata fi <> None -> r = Ok true \/ r = Ok false)) /\
  save_state svc w = (Ok tt, w).
Proof.
  intros Hdry dl. split; [|now apply save_state_dry_run].
  unfold process_file. unfold bind at 1. rewrite download_file_spec. fold dl.
  destruct dl as [[|c cs]|e] eqn:Ed.
  - exists (Ok false). split; [reflexivity|]. split; [|now right]. split; [discriminate|].
    intros (content & [= <-] & Hne & _). congruence.
  - run. destruct (option_eqb str_eqb _ _) eqn:Ek.
    { exists (Ok true). split; [reflexivity|]. split; [|now left]. split; [|reflexivity].
      intros _. exists (c :: cs). repeat split; [discriminate|].
      left. now apply known_eqb_iff. }
    unfold mime_type_of. destruct (metadata fi) as [m|] eqn:Emeta.
    2:{ exists (Raise AttributeError). split; [reflexivity|].
        split; [|congruence]. split; [discriminate|].
        intros (content & [= <-] & _ & [Hk|(mt & [=] & _)]).
        apply known_eqb_iff in Hk. congruence. }
    unfold is_mime_type_supported in *. red_w.
    destruct (str_in _ _) eqn:Em; red_w.
    + rewrite Hdry. exists (Ok true). split; [reflexivity|]. split; [|now left].
      split; [|reflexivity].
      intros _. exists (c :: cs). repeat split; [discriminate|]. right.
      eexists. split; [reflexivity|exact Em].
    + exists (Ok false). split; [reflexivity|]. split; [|now right].
      split; [discriminate|].
      intros (content & [= <-] & _ & [Hk|(mt & [= <-] & Hm)]); [|congruence].
      apply known_eqb_iff in Hk. congruence.
  - exists (Ok false). split; [reflexivity|]. split; [|now right]. split; [discriminate|].
    intros (content & [=] & _).
Qed.

End Runs.

(** C3 on a text file whose stored fingerprint is the digest of the
    downloaded bytes, with changed timestamps. *)
Lemma unchanged_fingerprint_skips_processing_witness :
  process_file demo_services
    (set_timestamps (Some (lit "2024-01-01")) (Some (lit "2024-06-01")) notes) synced
  = (Ok true,
     after synced (known_files synced)
       [Download (bucket notes) (name notes) (Ok demo_content)]).
Proof.
  assert (Hdl : storage_download demo_services (calls synced) (bucket notes) (name notes)
                = Ok demo_content) by (vm_compute; reflexivity).
  assert (Hne : demo_content <> []) by discriminate.
  destruct (unchanged_fingerprint_skips_processing demo_services notes synced
              demo_content Hdl Hne) as [Hskip _].
  apply Hskip. apply lookup_insert_eq.
Defined.

(** C3 as stated fails: no fingerprint is stored for the file, whose
    type is not supported, and the run ends after the download. *)
Lemma unsupported_file_is_not_reprocessed :
  known_files (fresh false) !! file_id_of blob = None /\
  process_file demo_services blob (fresh false)
  = (Ok false,
     after (fresh false) ∅ [Download (bucket blob) (name blob) (Ok demo_content)]).
Proof. split; [apply lookup_empty|]. vm_compute. reflexivity. Qed.

(** C4 fails on a listing entry whose [metadata] is null: the run on it
    raises [AttributeError] after the download, the loop over the batch
    ends there, and the text file behind it is never downloaded. *)
Lemma null_metadata_aborts_the_batch :
  process_batch demo_services [orphan; notes] (fresh false)
  = (Raise AttributeError,
     after (fresh false) ∅ [Download (bucket orphan) (name orphan) (Ok demo_content)]).
Proof. vm_compute. reflexivity. Qed.

(** C8 on a text file. *)
Lemma dry_run_makes_no_changes_witness :
  exists r,
    process_file demo_services notes (fresh true)
    = (r,
       after (fresh true) ∅ [Download (bucket notes) (name notes) (Ok demo_content)]).
Proof.
  destruct (dry_run_makes_no_changes demo_services notes (fresh true) eq_refl)
    as [(r & Hr & _) _].
  exists r. exact Hr.
Defined.

(** C8 as stated fails: in dry-run mode the download of a file of an
    unsupported type succeeds and the run returns [False]. *)
Lemma dry_run_of_unsupported_file_reports_failure :
  dry_run (fresh true) = true /\
  process_file demo_services blob (fresh true)
  = (Ok false,
     after (fresh true) ∅ [Download (bucket blob) (name blob) (Ok demo_content)]).
Proof. split; [reflexivity|]. vm_compute. reflexivity. Qed.

End WatcherFacts.

(** * The remaining code *)

(** ** Similarity, deduplication, ranking and counting of insights *)

Module InsightsMore.

Import Insights InsightsStats MoreProperties PyFacts Examples MoreExamples InsightsFacts.

#[local] Set Warnings "-clear-no-such-hyp".

Lemma words_of_nil : words_of [] = ∅.
Proof. reflexivity. Qed.

Lemma ratio_eq_pos (n : nat) : (0 < n)%nat -> Z.pos (Pos.of_nat n) = Z.of_nat n.
Proof. intros H. rewrite <- positive_nat_Z, Nat2Pos.id; lia. Qed.

Lemma similarity_value (text1 text2 : str) :
  _calculate_similarity text1 text2 =
  if (size (words_of text1) =? 0)%nat || (size (words_of text2) =? 0)%nat then 0%Q
  else Z.of_nat (size (words_of text1 ∩ words_of text2))
       # Pos.of_nat (size (words_of text1 ∪ words_of text2)).
Proof.
  unfold _calculate_similarity.
  destruct text1 as [|a1 t1]; [reflexivity|].
  destruct text2 as [|a2 t2].
  { rewrite words_of_nil, size_empty, orb_true_r. reflexivity. }
  destruct (_ || _) eqn:E; [reflexivity|].
  apply orb_false_iff in E as [E1 _]. apply Nat.eqb_neq in E1.
  destruct (size (_ ∪ _) =? 0)%nat eqn:Eu; [|reflexivity].
  apply Nat.eqb_eq in Eu. apply size_empty_iff in Eu.
  exfalso. apply E1. apply size_empty_iff. set_solver.
Qed.

Lemma size_zero_empty (A : gset str) : (size A =? 0)%nat = true <-> A = ∅.
Proof.
  rewrite Nat.eqb_eq, size_empty_iff. split; [apply leibniz_equiv|now intros ->].
Qed.

Lemma union_size_pos (A B : gset str) : A <> ∅ -> (0 < size (A ∪ B))%nat.
Proof.
  intros HA. destruct (size (A ∪ B)) eqn:E; [|lia].
  apply size_empty_iff in E. exfalso. apply HA. apply leibniz_equiv. set_solver.
Qed.

(** X1: [_calculate_similarity] is a Jaccard index: it lies between 0
    and 1, does not depend on the order of its arguments, is 1 exactly
    when the two texts have the same non-empty set of lower-cased words
    and 0 exactly when they share no word. *)
Theorem similarity_is_a_jaccard_index (text1 text2 : str) :
  (0 <= _calculate_similarity text1 text2 <= 1)%Q /\
  _calculate_similarity text1 text2 = _calculate_similarity text2 text1 /\
  ((_calculate_similarity text1 text2 == 1)%Q <->
   words_of text1 = words_of text2 /\ words_of text1 <> ∅) /\
  ((_calculate_similarity text1 text2 == 0)%Q <->
   words_of text1 ∩ words_of text2 = ∅).
Proof.
  rewrite !similarity_value.
  generalize (words_of text1) (words_of text2). intros A B.
  rewrite (comm_L (∩) B A), (comm_L (∪) B A), (orb_comm (size B =? 0)%nat).
  assert (Hsub : (size (A ∩ B) <= size (A ∪ B))%nat)
    by (apply subseteq_size; set_solver).
  destruct ((size A =? 0)%nat || (size B =? 0)%nat) eqn:E.
  - assert (Hi : A ∩ B = ∅).
    { apply orb_true_iff in E as [E|E]; apply size_zero_empty in E; rewrite E;
        apply leibniz_equiv; set_solver. }
    split; [split; discriminate|]. split; [reflexivity|]. split.
    + split; [discriminate|]. intros [H1 H2]. exfalso.
      apply orb_true_iff in E as [E|E]; apply size_zero_empty in E; congruence.
    + split; [now intros _|reflexivity].
  - apply orb_false_iff in E as [EA EB].
    assert (HA : A <> ∅) by (intros H; apply size_zero_empty in H; congruence).
    pose proof (union_size_pos A B HA) as Hu.
    split; [|split; [reflexivity|split]].
    + unfold Qle. simpl. rewrite ratio_eq_pos by exact Hu. lia.
    + unfold Qeq. simpl. rewrite ratio_eq_pos by exact Hu. split.
      * intros H. split; [|exact HA].
        assert (Heq : A ∩ B = A ∪ B)
          by (apply (set_subseteq_size_eq (A ∩ B) (A ∪ B)); [set_solver|lia]).
        apply leibniz_equiv. set_solver.
      * intros [Heq _]. rewrite <- Heq.
        replace (A ∩ A) with A by (apply leibniz_equiv; set_solver).
        replace (A ∪ A) with A by (apply leibniz_equiv; set_solver). lia.
    + unfold Qeq. simpl. split.
      * intros H. apply leibniz_equiv, size_empty_iff. lia.
      * intros H. rewrite H, size_empty. reflexivity.
Qed.

Lemma insight_eqb_fields (a b : EnhancedBusinessInsight) :
  insight_eqb a b = true ->
  title a = title b /\ description a = description b /\
  (confidence_score a == confidence_score b)%Q.
Proof.
  unfold insight_eqb. rewrite !andb_true_iff.
  intros [[[[[[[[_ _] Ht] Hd] Hc] _] _] _] _].
  apply str_eqb_eq in Ht, Hd. apply Qeq_bool_iff in Hc. auto.
Qed.

Lemma list_remove_keeps y e u :
  In y u -> In y (list_remove e u) \/ insight_eqb y e = true.
Proof.
  induction u as [|z u IH]; simpl; [tauto|].
  intros [<-|H].
  - destruct (insight_eqb z e) eqn:E; [now right|left; now left].
  - destruct (insight_eqb z e) eqn:E; [now left|].
    destruct (IH H) as [H'|H']; [left; now right|now right].
Qed.

Lemma dedup_step_nonempty u i : dedup_step u i <> [].
Proof.
  unfold dedup_step. destruct (List.find _ u) as [e|] eqn:E.
  - destruct (Qlt_bool _ _).
    + intros H. apply app_eq_nil in H as [_ H]. discriminate.
    + apply List.find_some in E as [E _]. intros ->. destruct E.
  - intros H. apply app_eq_nil in H as [_ H]. discriminate.
Qed.

Lemma dedup_fold_nonempty l u : u <> [] -> fold_left dedup_step l u <> [].
Proof.
  revert u. induction l as [|i l IH]; simpl; intros u H; [exact H|].
  apply IH, dedup_step_nonempty.
Qed.

Lemma dedup_step_length u i : (length (dedup_step u i) <= S (length u))%nat.
Proof.
  unfold dedup_step. destruct (List.find _ u) as [e|].
  - destruct (Qlt_bool _ _); [|lia].
    rewrite length_app. simpl. pose proof (list_remove_length e u). lia.
  - rewrite length_app. simpl. lia.
Qed.

Lemma dedup_fold_length l u :
  (length (fold_left dedup_step l u) <= length u + length l)%nat.
Proof.
  revert u. induction l as [|i l IH]; simpl; intros u; [lia|].
  specialize (IH (dedup_step u i)). pose proof (dedup_step_length u i). lia.
Qed.

Lemma dedup_step_dominated seen u i :
  dominated seen u -> dominated (seen ++ [i]) (dedup_step u i).
Proof.
  intros Hd x Hx. unfold dedup_step.
  destruct (List.find (is_similar i) u) as [e|] eqn:E.
  - apply List.find_some in E as [Hin _].
    destruct (Qlt_bool _ _) eqn:Ec.
    + apply Qlt_bool_iff in Ec. apply in_app_or in Hx as [Hx|[<-|[]]].
      * destruct (Hd x Hx) as (y & Hy & Hle).
        destruct (list_remove_keeps y e u Hy) as [Hk|Heq].
        -- exists y. split; [apply in_or_app; now left|exact Hle].
        -- exists i. split; [apply in_or_app; right; now left|].
           apply insight_eqb_fields in Heq as (_ & _ & Hc).
           rewrite Hc in Hle. apply Qlt_le_weak.
           eapply Qle_lt_trans; eassumption.
      * exists i. split; [apply in_or_app; right; now left|apply Qle_refl].
    + apply Qlt_bool_false_iff in Ec. apply in_app_or in Hx as [Hx|[<-|[]]].
      * now apply Hd.
      * exists e. split; assumption.
  - apply in_app_or in Hx as [Hx|[<-|[]]].
    + destruct (Hd x Hx) as (y & Hy & Hle). exists y.
      split; [apply in_or_app; now left|exact Hle].
    + exists i. split; [apply in_or_app; right; now left|apply Qle_refl].
Qed.

Lemma dedup_fold_dominated l seen u :
  dominated seen u -> dominated (seen ++ l) (fold_left dedup_step l u).
Proof.
  revert seen u. induction l as [|i l IH]; simpl; intros seen u H.
  - now rewrite app_nil_r.
  - replace (seen ++ i :: l) with ((seen ++ [i]) ++ l) by now rewrite <- app_assoc.
    apply IH. now apply dedup_step_dominated.
Qed.

(** X2: [_remove_duplicate_insights] returns insights of its input and
    not more of them than it was given; it returns at least one when
    given at least one; and every insight of the input is matched in
    confidence by one that is kept. *)
Theorem dedup_keeps_a_best_representative (insights : list EnhancedBusinessInsight) :
  (forall x, In x (_remove_duplicate_insights insights) -> In x insights) /\
  (length (_remove_duplicate_insights insights) <= length insights)%nat /\
  (insights <> [] -> _remove_duplicate_insights insights <> []) /\
  (forall x, In x insights ->
     exists y, In y (_remove_duplicate_insights insights) /\
               (confidence_score x <= confidence_score y)%Q).
Proof.
  split; [intros x; apply remove_duplicate_incl|].
  unfold _remove_duplicate_insights.
  destruct (length insights <=? 1)%nat eqn:E.
  - split; [lia|]. split; [tauto|].
    intros x Hx. exists x. split; [exact Hx|apply Qle_refl].
  - split; [apply (dedup_fold_length insights [])|]. split.
    + intros _. destruct insights as [|i l]; [discriminate|].
      simpl. apply dedup_fold_nonempty, dedup_step_nonempty.
    + apply (dedup_fold_dominated insights [] []). intros x [].
Qed.

Lemma is_similar_eqb i y e :
  insight_eqb y e = true -> is_similar i y = is_similar i e.
Proof.
  intros H. apply insight_eqb_fields in H as (Ht & Hd & _).
  unfold is_similar. now rewrite Ht, Hd.
Qed.

Lemma insight_eq_dec (a b : EnhancedBusinessInsight) : {a = b} + {a <> b}.
Proof. repeat decide equality. Qed.

Lemma dedup_step_keeps_unlike x u i :
  (forall y, In y (i :: u) -> y <> x ->
     is_similar x y = false /\ is_similar y x = false) ->
  In x u \/ x = i -> In x (dedup_step u i).
Proof.
  intros Hun Hx. unfold dedup_step.
  destruct (List.find (is_similar i) u) as [e|] eqn:E.
  - apply List.find_some in E as [Hin Hsim].
    destruct (insight_eq_dec i x) as [->|Hi].
    + (* the insight itself comes again *)
      destruct (Qlt_bool _ _); [apply in_or_app; right; now left|].
      destruct (insight_eq_dec e x) as [<-|He]; [exact Hin|].
      destruct (Hun e (or_intror Hin) He) as [H _]. congruence.
    + destruct Hx as [Hx|Hx]; [|congruence].
      destruct (Hun i (or_introl eq_refl) Hi) as [_ Hix].
      destruct (Qlt_bool _ _); [|exact Hx].
      destruct (list_remove_keeps x e u Hx) as [Hk|Heq].
      * apply in_or_app. now left.
      * rewrite <- (is_similar_eqb i x e Heq) in Hsim. congruence.
  - destruct Hx as [Hx| ->]; apply in_or_app; [now left|right; now left].
Qed.

Lemma dedup_fold_keeps_unlike x l u :
  (forall y, In y (u ++ l) -> y <> x ->
     is_similar x y = false /\ is_similar y x = false) ->
  In x u \/ In x l -> In x (fold_left dedup_step l u).
Proof.
  revert u. induction l as [|i l IH]; simpl; intros u Hun Hx.
  - destruct Hx as [Hx|[]]. exact Hx.
  - apply IH.
    + intros y Hy. apply Hun. apply in_app_or in Hy as [Hy|Hy].
      * apply dedup_step_incl in Hy as [Hy| ->]; apply in_or_app;
          [now left|right; now left].
      * apply in_or_app. right. now right.
    + destruct Hx as [Hx|[Hx|Hx]]; [left|left|now right].
      * apply dedup_step_keeps_unlike; [|now left].
        intros y Hy. apply Hun. destruct Hy as [<-|Hy]; apply in_or_app;
          [right; now left|now left].
      * apply dedup_step_keeps_unlike; [|now right].
        intros y Hy. apply Hun. destruct Hy as [<-|Hy]; apply in_or_app;
          [right; now left|now left].
Qed.

(** X3: an insight that the duplicate test relates to no other insight
    of the list, in either direction, is kept by
    [_remove_duplicate_insights]. *)
Theorem dedup_keeps_what_resembles_nothing
    (insights : list EnhancedBusinessInsight) (x : EnhancedBusinessInsight) :
  In x insights -> unlike_the_others x insights ->
  In x (_remove_duplicate_insights insights).
Proof.
  intros Hx Hun. unfold _remove_duplicate_insights.
  destruct (length insights <=? 1)%nat; [exact Hx|].
  apply dedup_fold_keeps_unlike; [exact Hun|now right].
Qed.

(** X3 on the two descriptions that share four words of five and a
    candidate on another subject. *)
Lemma dedup_keeps_what_resembles_nothing_witness :
  In unrelated (_remove_duplicate_insights [overrun_first; unrelated; overrun_copy]).
Proof.
  apply dedup_keeps_what_resembles_nothing.
  - right. left. reflexivity.
  - intros y [<-|[<-|[<-|[]]]] Hy.
    + vm_compute. split; reflexivity.
    + congruence.
    + vm_compute. split; reflexivity.
Defined.

Section Ranking.
Context {A : Type} (key : A -> Q).

Local Abbreviation before := (ranks_before key).

Lemma insert_desc_sorted x l :
  StronglySorted before l -> StronglySorted before (insert_desc key x l).
Proof.
  induction 1 as [|y l Hs IH Hall]; simpl.
  - repeat constructor.
  - destruct (Qlt_bool (key x) (key y)) eqn:E.
    + apply Qlt_bool_iff in E. constructor; [exact IH|].
      apply List.Forall_forall. intros z Hz.
      apply insert_desc_in in Hz as [->|Hz].
      * apply Qlt_le_weak, E.
      * rewrite List.Forall_forall in Hall. now apply Hall.
    + apply Qlt_bool_false_iff in E. constructor.
      * now constructor.
      * constructor; [exact E|].
        eapply List.Forall_impl; [|exact Hall].
        intros z Hz. unfold ranks_before in *. eapply Qle_trans; eassumption.
Qed.

Lemma sorted_desc_sorted l : StronglySorted before (sorted_desc key l).
Proof.
  induction l as [|x l IH]; simpl; [constructor|]. now apply insert_desc_sorted.
Qed.

Lemma sorted_firstn n l : StronglySorted before l -> StronglySorted before (firstn n l).
Proof.
  intros H. revert n. induction H as [|y l Hs IH Hall]; intros [|n]; simpl;
    try constructor.
  - apply IH.
  - apply List.Forall_forall. intros z Hz. apply In_firstn in Hz.
    rewrite List.Forall_forall in Hall. now apply Hall.
Qed.

Lemma sorted_split n l x y :
  StronglySorted before l -> In x (firstn n l) -> In y (skipn n l) -> before x y.
Proof.
  intros H. revert n. induction H as [|z l Hs IH Hall]; intros [|n]; simpl;
    try tauto.
  intros [<-|Hx] Hy.
  - rewrite List.Forall_forall in Hall. apply Hall.
    rewrite <- (firstn_skipn n l). apply in_or_app. now right.
  - now apply (IH n).
Qed.
End Ranking.

(** X4: whatever values the ranking key takes, the output of the
    filtering and ranking is in descending order of the key and consists
    of survivors of the filter and the deduplication; a survivor left
    out has a key no higher than any insight of the output, and none is
    left out when at most five survive.  [_filter_and_rank_insights] is
    the instance at the key [insight_score]. *)
Theorem ranked_output_is_best_first (score : EnhancedBusinessInsight -> Q)
    (insights : list EnhancedBusinessInsight) :
  StronglySorted (ranks_before score) (filter_and_rank_by score insights) /\
  (forall x, In x (filter_and_rank_by score insights) -> In x (survivors insights)) /\
  (forall x y,
     In x (filter_and_rank_by score insights) -> In y (survivors insights) ->
     ~ In y (filter_and_rank_by score insights) ->
     (score y <= score x)%Q) /\
  ((length (survivors insights) <= 5)%nat ->
   forall y, In y (survivors insights) -> In y (filter_and_rank_by score insights)).
Proof.
  unfold filter_and_rank_by.
  destruct insights as [|i l].
  { repeat split; try constructor; try tauto. }
  fold (survivors (i :: l)).
  set (ranked := sorted_desc score (survivors (i :: l))).
  assert (Hs : StronglySorted (ranks_before score) ranked)
    by apply sorted_desc_sorted.
  split; [now apply sorted_firstn|]. split; [|split].
  - intros x Hx. apply In_firstn in Hx. now apply sorted_desc_in in Hx.
  - intros x y Hx Hy Hn.
    apply (sorted_split score max_insights ranked x y Hs Hx).
    apply (sorted_desc_in score) in Hy. fold ranked in Hy.
    rewrite <- (firstn_skipn max_insights ranked) in Hy.
    apply in_app_or in Hy as [Hy|Hy]; [contradiction|exact Hy].
  - intros Hlen y Hy. rewrite firstn_all2.
    + now apply sorted_desc_in.
    + unfold ranked. rewrite sorted_desc_length. exact Hlen.
Qed.

Section Counting.
Variable field : EnhancedBusinessInsight -> str.

Local Abbreviation step :=
  (fun (counts : gmap str nat) insight =>
     <[field insight := (default 0 (counts !! field insight) + 1)%nat]> counts).

Lemma count_fold_lookup (l : list EnhancedBusinessInsight) (m : gmap str nat) (k : str) :
  fold_left step l m !! k =
  if (occurrences field k l =? 0)%nat then m !! k
  else Some (default 0 (m !! k) + occurrences field k l)%nat.
Proof.
  revert m. induction l as [|i l IH]; intros m; [reflexivity|].
  simpl fold_left. rewrite IH. unfold occurrences. simpl List.filter.
  destruct (str_eqb (field i) k) eqn:E.
  - apply str_eqb_eq in E. rewrite E, lookup_insert_eq. simpl length.
    set (n := length _). cbn [Nat.eqb].
    destruct (n =? 0)%nat eqn:E0; simpl; f_equal; [apply Nat.eqb_eq in E0|]; lia.
  - assert (Hne : field i <> k) by (intros H; apply str_eqb_eq in H; congruence).
    rewrite lookup_insert_ne by exact Hne. reflexivity.
Qed.

Lemma total_insert (m : gmap str nat) (k : str) (v : nat) :
  (total (<[k := v]> m) + default 0 (m !! k) = total m + v)%nat.
Proof.
  unfold total.
  assert (Hcomm : forall (m' : gmap str nat) (j1 j2 : str) (z1 z2 y : nat),
             j1 <> j2 -> m' !! j1 = Some z1 -> m' !! j2 = Some z2 ->
             (z1 + (z2 + y) = z2 + (z1 + y))%nat) by (intros; lia).
  rewrite <- (insert_delete_eq m k v).
  rewrite map_fold_insert_L; [|apply Hcomm|apply lookup_delete_eq].
  destruct (m !! k) as [old|] eqn:E; simpl.
  - rewrite <- (insert_delete_id m k old E) at 2.
    rewrite map_fold_insert_L; [|apply Hcomm|apply lookup_delete_eq]. lia.
  - rewrite delete_id by exact E. lia.
Qed.

Lemma count_fold_total (l : list EnhancedBusinessInsight) (m : gmap str nat) :
  total (fold_left step l m) = (total m + length l)%nat.
Proof.
  revert m. induction l as [|i l IH]; intros m; simpl; [lia|].
  rewrite IH.
  pose proof (total_insert m (field i) (default 0 (m !! field i) + 1)%nat). lia.
Qed.

Lemma count_by_spec (insights : list EnhancedBusinessInsight) :
  (forall k n, count_by field insights !! k = Some n <->
               n = occurrences field k insights /\ (0 < n)%nat) /\
  total (count_by field insights) = length insights.
Proof.
  unfold count_by. split.
  - intros k n. rewrite count_fold_lookup, lookup_empty. simpl.
    destruct (occurrences field k insights =? 0)%nat eqn:E.
    + apply Nat.eqb_eq in E. split; [discriminate|]. intros [-> H]. lia.
    + apply Nat.eqb_neq in E. split.
      * intros [= <-]. lia.
      * intros [-> _]. reflexivity.
  - rewrite count_fold_total. unfold total. now rewrite map_fold_empty.
Qed.
End Counting.

(** X5: [_count_insights_by_type] and [_count_insights_by_severity]
    map a key to [n] exactly when [n] insights carry it and [n] is
    positive, and the counts of each table add up to the number of
    insights. *)
Theorem insight_counts_add_up (insights : list EnhancedBusinessInsight) :
  (forall k n, _count_insights_by_type insights !! k = Some n <->
               n = occurrences insight_type k insights /\ (0 < n)%nat) /\
  (forall k n, _count_insights_by_severity insights !! k = Some n <->
               n = occurrences severity k insights /\ (0 < n)%nat) /\
  total (_count_insights_by_type insights) = length insights /\
  total (_count_insights_by_severity insights) = length insights.
Proof.
  destruct (count_by_spec insight_type insights) as [H1 H2].
  destruct (count_by_spec severity insights) as [H3 H4].
  split; [exact H1|split; [exact H3|split; assumption]].
Qed.

End InsightsMore.

(** ** Runs of the storage watcher *)

Module WatcherMore.

Import Watcher MoreProperties PyFacts Examples MoreExamples WatcherFacts.

(** Closes a run that left the fingerprint map as it was. *)
Ltac failed_run :=
  rewrite <- ?app_assoc; simpl; split; [reflexivity|];
  unfold follows_protocol; rewrite ?str_eqb_refl; simpl;
  repeat split; try discriminate; try congruence; try reflexivity; try (now left);
  try (eexists; reflexivity).

Section MoreRuns.
Variable svc : services.

Lemma process_file_run (fi : file_info) (w : watcher) :
  let fid := file_id_of fi in
  let dl := storage_download svc (calls w) (bucket fi) (name fi) in
  exists r k evs,
    process_file svc fi w = (r, after w k evs) /\
    follows_protocol fi (has_fingerprint w fi) evs = true /\
    downloaded evs = [target fi] /\
    existsb is_state_save evs = false /\
    (has_fingerprint w fi = false -> existsb is_delete evs = false) /\
    (existsb is_rag_write evs = true -> existsb has_text evs = true) /\
    (dry_run w = true -> forallb is_download evs = true) /\
    (dry_run w = true -> k = known_files w) /\
    (k = known_files w \/
     exists content, dl = Ok content /\ r = Ok true /\
                     k = <[fid := compute_file_hash svc content]> (known_files w)) /\
    (dry_run w = false -> r = Ok true ->
     exists content, dl = Ok content /\ content <> [] /\
                     k !! fid = Some (compute_file_hash svc content)) /\
    (forall e, r = Raise e ->
       e = AttributeError /\ metadata_is_object fi = false /\
       k = known_files w /\ evs = [Download (bucket fi) (name fi) dl]) /\
    (metadata_is_object fi = true -> exists b, r = Ok b).
Proof.
  intros fid dl. unfold process_file. unfold bind at 1. rewrite download_file_spec.
  fold dl. unfold has_fingerprint, metadata_is_object.
  destruct dl as [[|c cs]|e] eqn:Ed.
  - eexists (Ok false), (known_files w), [_]. failed_run.
  - run.
    destruct (option_eqb str_eqb _ _) eqn:Ek.
    { eexists (Ok true), (known_files w), [_]. split; [reflexivity|].
      unfold follows_protocol. rewrite !str_eqb_refl.
      repeat split; try reflexivity; try discriminate; try (now left);
        try (eexists; reflexivity).
      intros _ _. exists (c :: cs). repeat split; [discriminate|].
      now apply known_eqb_iff. }
    unfold mime_type_of. destruct (metadata fi) as [m|] eqn:Emeta.
    2:{ eexists (Raise AttributeError), (known_files w), [_]. split; [reflexivity|].
        unfold follows_protocol. rewrite !str_eqb_refl.
        repeat split; try reflexivity; try discriminate; try congruence; now left. }
    destruct (is_mime_type_supported _ _) eqn:Em; red_w.
    2:{ eexists (Ok false), (known_files w), [_]. failed_run. }
    destruct (dry_run w) eqn:Edry; red_w.
    { eexists (Ok true), (known_files w), [_]. failed_run. }
    destruct (known_files w !! file_id_of fi) as [old|] eqn:Eold; red_w.
    + match goal with |- context [delete_document_by_file_id svc ?t ?f] =>
        destruct (delete_document_by_file_id svc t f) as [[]|e1] eqn:Edel end; red_w.
      2:{ eexists (Ok false), (known_files w), [_; _]. failed_run. }
      match goal with |- context [extract_text_from_file svc ?t ?a ?b ?c] =>
        destruct (extract_text_from_file svc t a b c) as [[|t0 ts]|e2] eqn:Eex end; red_w.
      1,3: eexists (Ok false), (known_files w), [_; _; _]; failed_run.
      match goal with |- context [process_file_for_rag svc ?t ?a ?b ?c ?d ?e] =>
        destruct (process_file_for_rag svc t a b c d e) as [[|]|e3] eqn:Erag end; red_w.
      2,3: eexists (Ok false), (known_files w), [_; _; _; _]; failed_run.
      eexists (Ok true), _, [_; _; _; _]. rewrite <- !app_assoc. simpl.
      split; [reflexivity|]. unfold follows_protocol. rewrite !str_eqb_refl. simpl.
      repeat (split; [first [reflexivity | discriminate]|]). split; [|split; [|split]].
      * right. exists (c :: cs). repeat split.
      * intros _ _. exists (c :: cs). repeat split; [discriminate|].
        apply lookup_insert_eq.
      * discriminate.
      * intros _. eexists. reflexivity.
    + match goal with |- context [extract_text_from_file svc ?t ?a ?b ?c] =>
        destruct (extract_text_from_file svc t a b c) as [[|t0 ts]|e2] eqn:Eex end; red_w.
      1,3: eexists (Ok false), (known_files w), [_; _]; failed_run.
      match goal with |- context [process_file_for_rag svc ?t ?a ?b ?c ?d ?e] =>
        destruct (process_file_for_rag svc t a b c d e) as [[|]|e3] eqn:Erag end; red_w.
      2,3: eexists (Ok false), (known_files w), [_; _; _]; failed_run.
      eexists (Ok true), _, [_; _; _]. rewrite <- !app_assoc. simpl.
      split; [reflexivity|]. unfold follows_protocol. rewrite !str_eqb_refl. simpl.
      repeat (split; [first [reflexivity | discriminate]|]). split; [|split; [|split]].
      * right. exists (c :: cs). repeat split.
      * intros _ _. exists (c :: cs). repeat split; [discriminate|].
        apply lookup_insert_eq.
      * discriminate.
      * intros _. eexists. reflexivity.
  - eexists (Ok false), (known_files w), [_]. failed_run.
Qed.

Lemma after_after (w : watcher) (k1 k2 : gmap str str) (evs1 evs2 : trace) :
  after (after w k1 evs1) k2 evs2 = after w k2 (evs1 ++ evs2).
Proof. unfold after. simpl. now rewrite app_assoc. Qed.

Lemma skip_on_equal_hash (fi : file_info) (w : watcher) (content : bytes) :
  storage_download svc (calls w) (bucket fi) (name fi) = Ok content ->
  content <> [] ->
  known_files w !! file_id_of fi = Some (compute_file_hash svc content) ->
  process_file svc fi w =
  (Ok true, after w (known_files w) [Download (bucket fi) (name fi) (Ok content)]).
Proof.
  intros Hdl Hne Hk. destruct content as [|c cs]; [congruence|].
  unfold process_file. unfold bind at 1. rewrite download_file_spec, Hdl.
  run. rewrite Hk. rewrite (proj2 (known_eqb_iff _ _) eq_refl). reflexivity.
Qed.

(** X6: the calls of [process_file] follow one order: the download; the
    deletion of the old version, only for a file with a stored
    fingerprint; the text extraction; the RAG write, only after an
    extraction that returned text.  Each call is made only when the one
    before it succeeded.  The method raises nothing but
    [AttributeError], and that only on a listing entry whose [metadata]
    is not an object and after the download alone; on an entry whose
    [metadata] is an object it returns a truth value. *)
Theorem process_file_follows_protocol (fi : file_info) (w : watcher) :
  exists r k evs,
    process_file svc fi w = (r, after w k evs) /\
    follows_protocol fi (has_fingerprint w fi) evs = true /\
    (has_fingerprint w fi = false -> existsb is_delete evs = false) /\
    (existsb is_rag_write evs = true -> existsb has_text evs = true) /\
    (forall e, r = Raise e ->
       e = AttributeError /\ metadata_is_object fi = false /\
       k = known_files w /\
       evs = [Download (bucket fi) (name fi)
                (storage_download svc (calls w) (bucket fi) (name fi))]) /\
    (metadata_is_object fi = true -> exists b, r = Ok b).
Proof.
  destruct (process_file_run fi w)
    as (r & k & evs & H1 & H2 & _ & _ & H5 & H6 & _ & _ & _ & _ & H11 & H12).
  exists r, k, evs. auto 10.
Qed.

(** X7: outside dry-run mode, when [process_file] returned [True] and
    the next download of the file returns the same answer, the next
    run makes that download only, changes nothing and returns [True]. *)
Theorem processed_file_is_skipped_next_time (fi : file_info) (w w' : watcher) :
  dry_run w = false ->
  process_file svc fi w = (Ok true, w') ->
  storage_download svc (calls w') (bucket fi) (name fi)
  = storage_download svc (calls w) (bucket fi) (name fi) ->
  process_file svc fi w' =
  (Ok true,
   after w' (known_files w')
     [Download (bucket fi) (name fi) (storage_download svc (calls w) (bucket fi) (name fi))]).
Proof.
  intros Hdry Hrun Hsame.
  destruct (process_file_run fi w)
    as (r & k & evs & H1 & _ & _ & _ & _ & _ & _ & _ & _ & Hrec & _).
  rewrite Hrun in H1. injection H1 as <- ->.
  destruct (Hrec Hdry eq_refl) as (content & Hdl & Hne & Hk).
  rewrite Hdl in *. apply skip_on_equal_hash; assumption.
Qed.

Lemma firstn_length_prefix {A} (l l' : list A) :
  l = firstn (length l) (l ++ l').
Proof.
  rewrite firstn_app, Nat.sub_diag, firstn_all. simpl. now rewrite app_nil_r.
Qed.

Lemma process_batch_run (files : list file_info) (w : watcher) :
  exists r k evs,
    process_batch svc files w = (r, after w k evs) /\
    downloaded evs = firstn (length (downloaded evs)) (List.map target files) /\
    (r = Ok tt -> downloaded evs = List.map target files) /\
    existsb is_state_save evs = false /\
    (dry_run w = true -> forallb is_download evs = true /\ k = known_files w) /\
    (forall fid, (forall fi, In fi files -> file_id_of fi <> fid) ->
       k !! fid = known_files w !! fid) /\
    (forall fid, is_Some (known_files w !! fid) -> is_Some (k !! fid)) /\
    (r = Ok tt \/ r = Raise AttributeError) /\
    (forallb metadata_is_object files = true -> r = Ok tt).
Proof.
  revert w. induction files as [|fi files IH]; intros w.
  - exists (Ok tt), (known_files w), []. simpl. unfold ret. rewrite after_id.
    repeat split; try reflexivity; auto.
  - simpl. unfold bind.
    destruct (process_file_run fi w)
      as (r1 & k1 & evs1 & -> & _ & Hd1 & Hs1 & _ & _ & Hdry1 & Hk1 & Hor & _ & Hraise & Hret).
    assert (Hfr1 : forall fid, file_id_of fi <> fid -> k1 !! fid = known_files w !! fid).
    { intros fid Hne. destruct Hor as [->|(content & _ & _ & ->)]; [reflexivity|].
      now apply lookup_insert_ne. }
    assert (Hmono1 : forall fid, is_Some (known_files w !! fid) -> is_Some (k1 !! fid)).
    { intros fid Hin. destruct Hor as [->|(content & _ & _ & ->)]; [exact Hin|].
      destruct (decide (file_id_of fi = fid)) as [<-|Hne].
      - rewrite lookup_insert_eq. eauto.
      - now rewrite lookup_insert_ne. }
    destruct r1 as [b|e].
    + destruct (IH (after w k1 evs1))
        as (r & k2 & evs2 & -> & Hd2 & Hall2 & Hs2 & Hdry2 & Hfr & Hmono & Hr & Hret2).
      exists r, k2, (evs1 ++ evs2). rewrite after_after.
      assert (Hdd : downloaded (evs1 ++ evs2) = target fi :: downloaded evs2).
      { unfold downloaded in *. rewrite flat_map_app, Hd1. reflexivity. }
      split; [reflexivity|]. rewrite Hdd.
      split; [|split; [|split; [|split; [|split; [|split; [|split]]]]]].
      * simpl. f_equal. exact Hd2.
      * intros Hok. f_equal. now apply Hall2.
      * rewrite existsb_app, Hs1, Hs2. reflexivity.
      * intros Hdry. destruct (Hdry2 Hdry) as [Ha Hb]. split.
        -- rewrite forallb_app, (Hdry1 Hdry), Ha. reflexivity.
        -- rewrite Hb. simpl. now apply Hk1.
      * intros fid Hfid. rewrite Hfr by (intros fi' Hin; apply Hfid; now right).
        simpl. apply Hfr1. apply Hfid. now left.
      * intros fid Hin. apply Hmono. simpl. now apply Hmono1.
      * exact Hr.
      * intros Hmeta. apply andb_prop in Hmeta as [_ Hmeta]. now apply Hret2.
    + destruct (Hraise e eq_refl) as (-> & Hmeta & -> & ->).
      eexists (Raise AttributeError), (known_files w), [_].
      split; [reflexivity|]. simpl.
      split; [reflexivity|]. split; [discriminate|]. split; [reflexivity|].
      split; [auto|]. split; [auto|]. split; [auto|]. split; [now right|].
      intros H. apply andb_prop in H as [H _]. congruence.
Qed.

(** X8: a batch, whether it runs to its end or an exception ends it,
    leaves the fingerprint of every file that is not in the batch as it
    was, and forgets no fingerprint.  It runs to its end when the
    [metadata] of every entry is an object. *)
Theorem batch_touches_only_its_own_fingerprints
    (files : list file_info) (w : watcher) :
  exists r k evs,
    process_batch svc files w = (r, after w k evs) /\
    (forall fid, (forall fi, In fi files -> file_id_of fi <> fid) ->
       k !! fid = known_files w !! fid) /\
    (forall fid, is_Some (known_files w !! fid) -> is_Some (k !! fid)) /\
    (forallb metadata_is_object files = true -> r = Ok tt).
Proof.
  destruct (process_batch_run files w)
    as (r & k & evs & H & _ & _ & _ & _ & Hfr & Hmono & _ & Hret).
  exists r, k, evs. auto.
Qed.

Lemma save_state_run (w : watcher) :
  exists evs,
    save_state svc w = (Ok tt, after w (known_files w) evs) /\
    downloaded evs = [] /\
    (dry_run w = true -> evs = []) /\
    (dry_run w = false -> has_state_manager w = true ->
     exists answer, evs = [SaveState (last_check_time w) (known_files w) answer]).
Proof.
  destruct w as [dry sm mimes lct known log].
  unfold save_state, save_last_check_time. run.
  destruct dry; [|destruct sm]; red_w.
  - exists []. rewrite app_nil_r. repeat split; discriminate.
  - eexists [_]. split; [reflexivity|]. repeat split; try discriminate.
    intros _ _. eexists. reflexivity.
  - eexists [_]. split; [reflexivity|]. repeat split; discriminate.
Qed.

Lemma limited_incl (all_files : list file_info) (max_files : option Z) (fi : file_info) :
  In fi (limited all_files max_files) -> In fi all_files.
Proof.
  unfold limited. destruct max_files as [k|]; [|auto].
  destruct (k =? 0); [auto|]. apply In_firstn.
Qed.

Lemma limited_metadata (all_files : list file_info) (max_files : option Z) :
  forallb metadata_is_object all_files = true ->
  forallb metadata_is_object (limited all_files max_files) = true.
Proof.
  rewrite !forallb_forall. intros H fi Hin. apply H. eapply limited_incl, Hin.
Qed.

(** What the limit of [backfill] keeps of the listing. *)
Lemma limited_cases (all_files : list file_info) (max_files : option Z) :
  match max_files with
  | None => limited all_files max_files = all_files
  | Some k =>
    (k = 0 -> limited all_files max_files = all_files) /\
    (0 < k -> limited all_files max_files = firstn (Z.to_nat k) all_files) /\
    (k < 0 -> limited all_files max_files
              = firstn (length all_files - Z.to_nat (- k)) all_files)
  end.
Proof.
  unfold limited. destruct max_files as [k|]; [|reflexivity].
  split; [|split]; intros Hk.
  - subst k. reflexivity.
  - destruct (k =? 0) eqn:E; [apply Z.eqb_eq in E; lia|].
    unfold slice_bound. destruct (k <? 0) eqn:E'; [apply Z.ltb_lt in E'; lia|].
    destruct (Z.le_ge_cases k (Z.of_nat (length all_files))) as [H|H].
    + now rewrite Z.min_l.
    + rewrite Z.min_r, Nat2Z.id by lia.
      rewrite !firstn_all2; [reflexivity|lia|lia].
  - destruct (k =? 0) eqn:E; [apply Z.eqb_eq in E; lia|].
    unfold slice_bound. destruct (k <? 0) eqn:E'; [|apply Z.ltb_ge in E'; lia].
    f_equal. lia.
Qed.

(** X9: [backfill] downloads files in the order of the listing cut to
    [max_files]: its downloads are the targets of the first entries of
    that listing, and of all of them when [backfill] returns, which it
    does when the [metadata] of every entry is an object.  The cut keeps
    the first [max_files] entries for a positive number and the whole
    listing for [None] and [0].  Fingerprints of files that are not
    listed stay as they were. *)
Theorem backfill_downloads_the_listing_in_order
    (all_files : list file_info) (max_files : option Z) (w : watcher) :
  exists r k evs,
    backfill svc all_files max_files w = (r, after w k evs) /\
    downloaded evs
    = firstn (length (downloaded evs)) (List.map target (limited all_files max_files)) /\
    (r = Ok tt -> downloaded evs = List.map target (limited all_files max_files)) /\
    (forallb metadata_is_object all_files = true -> r = Ok tt) /\
    match max_files with
    | None => limited all_files max_files = all_files
    | Some n =>
      (n = 0 -> limited all_files max_files = all_files) /\
      (0 < n -> limited all_files max_files = firstn (Z.to_nat n) all_files) /\
      (n < 0 -> limited all_files max_files
                = firstn (length all_files - Z.to_nat (- n)) all_files)
    end /\
    (forall fid, (forall fi, In fi all_files -> file_id_of fi <> fid) ->
       k !! fid = known_files w !! fid).
Proof.
  unfold backfill. unfold bind.
  destruct (process_batch_run (limited all_files max_files) w)
    as (r & k & evs & -> & Hd & Hall & Hs & Hdry & Hfr & _ & Hr & Hret).
  assert (Hframe : forall fid, (forall fi, In fi all_files -> file_id_of fi <> fid) ->
                               k !! fid = known_files w !! fid).
  { intros fid Hfid. apply Hfr. intros fi Hin. apply Hfid. eapply limited_incl, Hin. }
  destruct Hr as [->| ->].
  - destruct (save_state_run (after w k evs)) as (evs' & -> & Hd' & _).
    rewrite after_after. exists (Ok tt), k, (evs ++ evs').
    assert (Hdd : downloaded (evs ++ evs') = downloaded evs).
    { unfold downloaded in *. rewrite flat_map_app, Hd'. apply app_nil_r. }
    rewrite Hdd. split; [reflexivity|]. split; [exact Hd|]. split; [exact Hall|].
    split; [reflexivity|]. split; [apply limited_cases|exact Hframe].
  - exists (Raise AttributeError), k, evs.
    split; [reflexivity|]. split; [exact Hd|]. split; [discriminate|].
    split; [|split; [apply limited_cases|exact Hframe]].
    intros Hmeta. apply Hret. now apply limited_metadata.
Qed.

(** X10: in dry-run mode [backfill] makes downloads only: it writes
    nothing, leaves the fingerprint map as it is and saves no state,
    whether it returns or an exception ends it; it returns when the
    [metadata] of every entry is an object. *)
Theorem dry_run_backfill_only_downloads
    (all_files : list file_info) (max_files : option Z) (w : watcher) :
  dry_run w = true ->
  exists r evs,
    backfill svc all_files max_files w = (r, after w (known_files w) evs) /\
    forallb is_download evs = true /\
    (forallb metadata_is_object all_files = true -> r = Ok tt).
Proof.
  intros Hdry. unfold backfill. unfold bind.
  destruct (process_batch_run (limited all_files max_files) w)
    as (r & k & evs & -> & _ & _ & _ & Hd & _ & _ & Hr & Hret).
  destruct (Hd Hdry) as [Hall ->].
  destruct Hr as [->| ->].
  - destruct (save_state_run (after w (known_files w) evs)) as (evs' & -> & _ & He & _).
    rewrite (He Hdry), after_after, app_nil_r.
    exists (Ok tt), evs. auto.
  - exists (Raise AttributeError), evs. split; [reflexivity|]. split; [exact Hall|].
    intros Hmeta. apply Hret. now apply limited_metadata.
Qed.

(** X11: outside dry-run mode and with a state manager, a [backfill]
    that returns ends with the call that saves the last check time and
    the fingerprint map as the batch left it, and no state is saved
    before; a [backfill] that an exception ends saves no state at all.
    It returns when the [metadata] of every entry is an object. *)
Theorem backfill_saves_the_final_fingerprints
    (all_files : list file_info) (max_files : option Z) (w : watcher) :
  dry_run w = false -> has_state_manager w = true ->
  exists r k evs,
    backfill svc all_files max_files w = (r, after w k evs) /\
    (r = Ok tt ->
     exists before answer,
       evs = before ++ [SaveState (last_check_time w) k answer] /\
       existsb is_state_save before = false) /\
    (r <> Ok tt -> existsb is_state_save evs = false) /\
    (forallb metadata_is_object all_files = true -> r = Ok tt).
Proof.
  intros Hdry Hsm. unfold backfill. unfold bind.
  destruct (process_batch_run (limited all_files max_files) w)
    as (r & k & evs & -> & _ & _ & Hs & _ & _ & _ & Hr & Hret).
  destruct Hr as [->| ->].
  - destruct (save_state_run (after w k evs)) as (evs' & -> & _ & _ & He).
    destruct (He Hdry Hsm) as [answer ->].
    rewrite after_after. eexists (Ok tt), k, _.
    split; [reflexivity|]. split; [|split; [congruence|reflexivity]].
    intros _. exists evs, answer. split; [reflexivity|exact Hs].
  - exists (Raise AttributeError), k, evs.
    split; [reflexivity|]. split; [discriminate|]. split; [intros _; exact Hs|].
    intros Hmeta. apply Hret. now apply limited_metadata.
Qed.

End MoreRuns.

(** X7 on the text file: the second run after a first successful one. *)
Lemma processed_file_is_skipped_next_time_witness :
  process_file demo_services notes after_first_run
  = (Ok true,
     after after_first_run (known_files after_first_run)
       [Download (bucket notes) (name notes)
          (storage_download demo_services (calls (fresh false)) (bucket notes) (name notes))]).
Proof.
  apply (processed_file_is_skipped_next_time demo_services notes (fresh false)).
  - reflexivity.
  - vm_compute. reflexivity.
  - vm_compute. reflexivity.
Defined.

(** X10 on a listing of two files. *)
Lemma dry_run_backfill_only_downloads_witness :
  exists evs,
    backfill demo_services [notes; blob] None (fresh true)
    = (Ok tt, after (fresh true) (known_files (fresh true)) evs) /\
    forallb is_download evs = true.
Proof.
  destruct (dry_run_backfill_only_downloads demo_services [notes; blob] None (fresh true)
              eq_refl) as (r & evs & Hrun & Hall & Hret).
  exists evs. rewrite <- (Hret eq_refl). split; [exact Hrun|exact Hall].
Defined.

(** X11 on a listing of two files. *)
Lemma backfill_saves_the_final_fingerprints_witness :
  exists k before answer,
    backfill demo_services [notes; blob] None (fresh false)
    = (Ok tt,
       after (fresh false) k
         (before ++ [SaveState (last_check_time (fresh false)) k answer])) /\
    existsb is_state_save before = false.
Proof.
  destruct (backfill_saves_the_final_fingerprints demo_services [notes; blob] None
              (fresh false) eq_refl eq_refl) as (r & k & evs & Hrun & Hok & _ & Hret).
  pose proof (Hret eq_refl) as Hr. subst r.
  destruct (Hok eq_refl) as (before & answer & -> & Hs).
  exists k, before, answer. split; [exact Hrun|exact Hs].
Defined.

End WatcherMore.

(** ** More about the chunkers *)

Module ChunkingMore.

Import TextProcessor Properties MoreProperties PyFacts Examples MoreExamples.
Import ChunkTextFacts ChunkingFacts.

#[local] Set Warnings "-clear-no-such-hyp".

(** X12: [chunk_text] raises only [ValueError], and exactly when the
    text is not empty and the overlap equals the chunk size. *)
Theorem chunk_text_raises_only_on_zero_step (text : str) (chunk_size overlap : Z)
    (e : exn) :
  chunk_text text chunk_size overlap = Raise e <->
  text <> [] /\ chunk_size = overlap /\ e = ValueError.
Proof.
  unfold chunk_text, range. destruct text as [|a t].
  - split; [discriminate|]. intros [H _]. congruence.
  - destruct (Z.eqb_spec (chunk_size - overlap) 0) as [E|E].
    + split.
      * intros [= <-]. repeat split; [discriminate|lia].
      * intros (_ & _ & ->). reflexivity.
    + split; [discriminate|]. intros (_ & H & _). lia.
Qed.

(** X13: for a non-empty text and [0 <= overlap < chunk_size],
    [chunk_text] returns [ceil(n / (chunk_size - overlap))] chunks for the
    [n] characters left without carriage returns; the [k]-th chunk is the
    slice that starts at [k * (chunk_size - overlap)], and what a chunk
    holds behind its first [chunk_size - overlap] characters is the
    first [overlap] characters of the next one. *)
Theorem chunk_text_count_and_overlap (text : str) (chunk_size overlap : Z) :
  text <> [] -> 0 <= overlap < chunk_size ->
  let t := remove_char CR text in
  let step := Z.to_nat (chunk_size - overlap) in
  exists chunks,
    chunk_text text chunk_size overlap = Ok chunks /\
    length chunks = ceil_div (length t) step /\
    (forall k, (k < length chunks)%nat ->
       nth k chunks [] = slice t (Z.of_nat k * (chunk_size - overlap))
                           (Z.of_nat k * (chunk_size - overlap) + chunk_size)) /\
    (forall k, (S k < length chunks)%nat ->
       skipn step (nth k chunks []) = firstn (Z.to_nat overlap) (nth (S k) chunks [])).
Proof.
  intros Hne [H0 Hlt] t step.
  set (ov := Z.to_nat overlap).
  assert (Hov : overlap = Z.of_nat ov) by lia.
  assert (Hcs : chunk_size = Z.of_nat (step + ov)) by lia.
  assert (Hs : (0 < step)%nat) by lia.
  replace (chunk_text text chunk_size overlap)
    with (chunk_text text (Z.of_nat (step + ov)) (Z.of_nat ov))
    by (rewrite <- Hcs, <- Hov; reflexivity).
  rewrite chunk_text_windows by assumption. fold t.
  eexists. split; [reflexivity|]. rewrite length_map, length_seq.
  split; [reflexivity|].
  assert (Hnth : forall k, (k < ceil_div (length t) step)%nat ->
            nth k (List.map (window t (step + ov) step)
                     (seq 0 ((length t + step - 1) / step))) []
            = window t (step + ov) step k).
  { intros k Hk.
    rewrite (nth_indep _ [] (window t (step + ov) step 0))
      by (rewrite length_map, length_seq; exact Hk).
    rewrite map_nth. now rewrite seq_nth by exact Hk. }
  split.
  - intros k Hk. rewrite Hnth by exact Hk.
    replace (Z.of_nat k * (chunk_size - overlap)) with (Z.of_nat (k * step)) by lia.
    replace (Z.of_nat (k * step) + chunk_size)
      with (Z.of_nat (k * step + (step + ov))) by lia.
    rewrite slice_nat by lia. unfold window. f_equal. lia.
  - intros k Hk. rewrite !Hnth by (unfold ceil_div; lia).
    unfold window. rewrite skipn_firstn_comm, skipn_skipn, firstn_firstn.
    f_equal; lia.
Qed.

(** X13 on eight characters, chunks of four with an overlap of one. *)
Lemma chunk_text_count_and_overlap_witness :
  exists chunks,
    chunk_text (lit "abcdefgh") 4 1 = Ok chunks /\ length chunks = 3%nat.
Proof.
  assert (Hne : lit "abcdefgh" <> []) by discriminate.
  destruct (chunk_text_count_and_overlap (lit "abcdefgh") 4 1 Hne ltac:(lia))
    as (chunks & Hrun & Hlen & _).
  exists chunks. split; [exact Hrun|exact Hlen].
Defined.

Lemma save_turn_indexed (st : turn_state) :
  well_indexed (turns st) -> well_indexed (save_turn st).
Proof.
  intros H. unfold save_turn. destruct (current_speaker st) as [sp|]; [|exact H].
  destruct (nonempty sp && nonempty (current_text st)) eqn:E; [|exact H].
  apply andb_true_iff in E as [Hsp _].
  intros i t Hi.
  destruct (Nat.lt_ge_cases i (length (turns st))) as [Hlt|Hge].
  - rewrite nth_error_app1 in Hi by exact Hlt. now apply H.
  - rewrite nth_error_app2 in Hi by exact Hge.
    destruct (i - length (turns st))%nat as [|k] eqn:Ek.
    + injection Hi as <-. simpl. split; [lia|]. now destruct sp.
    + destruct k; discriminate.
Qed.

Lemma turn_step_indexed (st : turn_state) (line : str) :
  well_indexed (turns st) -> well_indexed (turns (turn_step st line)).
Proof.
  intros H. unfold turn_step. destruct (strip line); [exact H|].
  destruct (match_speaker _) as [[sp tx]|].
  - simpl. now apply save_turn_indexed.
  - destruct (current_text st); exact H.
Qed.

Lemma turn_fold_indexed (ls : list str) (st : turn_state) :
  well_indexed (turns st) -> well_indexed (turns (fold_left turn_step ls st)).
Proof.
  revert st. induction ls as [|l ls IH]; intros st H; [exact H|].
  simpl. apply IH. now apply turn_step_indexed.
Qed.

(** X14: the turns that [chunk_by_speaker] extracts are numbered by
    their position, and each has a non-empty speaker. *)
Theorem extracted_turns_are_numbered_and_named (text : str) :
  well_indexed (extract_turns text).
Proof.
  unfold extract_turns. apply save_turn_indexed, turn_fold_indexed.
  intros [|i] t; discriminate.
Qed.

Lemma tiles_snoc (all_turns : list turn) (cs : list chunk) (c : chunk)
    (from mid n : nat) :
  tiles all_turns from cs mid -> (1 <= n)%nat ->
  turn_range c = Some (Z.of_nat mid, Z.of_nat (mid + n) - 1) ->
  speakers c = Some (speakers_of all_turns mid n) ->
  tiles all_turns from (cs ++ [c]) (mid + n).
Proof.
  revert from. induction cs as [|c0 cs IH]; intros from Ht Hn Hr Hs.
  - simpl in Ht. subst from. exists n. repeat split; assumption.
  - destruct Ht as (n0 & H1 & H2 & H3 & H4).
    exists n0. repeat split; try assumption. now apply IH.
Qed.

Section Tiling.
Variable all_turns : list turn.
Variable max_size overlap : Z.

Lemma speakers_of_snoc (done todo : list turn) (t : turn) (s : nat) :
  all_turns = done ++ t :: todo -> (s <= length done)%nat ->
  speakers_of all_turns s (length done - s) ∪ {[ speaker t ]}
  = speakers_of all_turns s (S (length done) - s).
Proof.
  intros Hall Hs. unfold speakers_of. rewrite Hall.
  rewrite <- (firstn_skipn_snoc done todo t s Hs).
  rewrite List.map_app, list_to_set_app_L. simpl.
  apply leibniz_equiv. set_solver.
Qed.

Lemma chunk_step_tiles (done todo : list turn) (t : turn) (st : chunk_state) :
  all_turns = done ++ t :: todo ->
  speaker_inv all_turns max_size overlap (length done) st ->
  tile_inv all_turns (length done) st ->
  tile_inv all_turns (S (length done))
    (chunk_step all_turns max_size overlap st (length done, t)).
Proof.
  intros Hall (Hs & Hcur & Hpos & _) [Ht Hsp].
  assert (Hlen : length (current_chunk st) = (length done - start_turn st)%nat).
  { rewrite Hcur, length_map, length_firstn, length_skipn, Hall, length_app.
    simpl. lia. }
  unfold chunk_step, tile_inv.
  destruct ((max_size <? current_size st + len (turn_text t))
            && nonempty (current_chunk st)) eqn:Eemit.
  - apply andb_true_iff in Eemit as [_ Hne].
    assert (Hlt : (start_turn st < length done)%nat).
    { destruct (current_chunk st); [discriminate|]. simpl in Hlen. lia. }
    cbn [chunks start_turn chunk_speakers]. split.
    + replace (length done) with (start_turn st + (length done - start_turn st))%nat
        at 2 by lia.
      apply tiles_snoc; [exact Ht|lia| |].
      * simpl. do 2 f_equal. lia.
      * simpl. now rewrite Hsp.
    + pose proof (speakers_of_snoc done todo t (length done) Hall (Nat.le_refl _)) as H.
      rewrite Nat.sub_diag in H. rewrite <- H. unfold speakers_of at 1.
      simpl. reflexivity.
  - cbn [chunks start_turn chunk_speakers]. split; [exact Ht|].
    rewrite Hsp. now apply speakers_of_snoc with (todo := todo).
Qed.

Lemma chunk_fold_tiles (todo done : list turn) (st : chunk_state) :
  all_turns = done ++ todo ->
  speaker_inv all_turns max_size overlap (length done) st ->
  tile_inv all_turns (length done) st ->
  tile_inv all_turns (length all_turns)
    (fold_left (chunk_step all_turns max_size overlap)
       (combine (seq (length done) (length todo)) todo) st).
Proof.
  revert done st. induction todo as [|t todo IH]; intros done st Hall Hinv Ht.
  - assert (E : length all_turns = length done) by (now rewrite Hall, app_nil_r).
    simpl. rewrite E. exact Ht.
  - simpl. specialize (IH (done ++ [t])).
    rewrite length_app, Nat.add_1_r in IH. apply IH.
    + now rewrite <- app_assoc.
    + now apply chunk_step_inv with (todo := todo).
    + now apply chunk_step_tiles with (todo := todo).
Qed.

Lemma chunk_turns_tile :
  tiles all_turns 0 (chunk_turns all_turns max_size overlap) (length all_turns).
Proof.
  unfold chunk_turns, enumerate.
  set (st0 := {| chunks := []; current_chunk := []; current_size := 0;
                 chunk_speakers := ∅; start_turn := 0 |}).
  assert (H0 : speaker_inv all_turns max_size overlap 0 st0).
  { unfold speaker_inv. simpl. repeat split; try lia. constructor. }
  assert (T0 : tile_inv all_turns 0 st0) by (split; reflexivity).
  pose proof (chunk_fold_inv all_turns max_size overlap all_turns [] st0 eq_refl H0) as Hinv.
  pose proof (chunk_fold_tiles all_turns [] st0 eq_refl H0 T0) as [Ht Hsp].
  simpl length in Hinv at 2. simpl length in Ht, Hsp.
  set (st := fold_left _ _ _) in *.
  destruct Hinv as (Hs & Hcur & Hpos & _).
  assert (Hlen : length (current_chunk st) = (length all_turns - start_turn st)%nat).
  { rewrite Hcur, length_map, length_firstn, length_skipn. lia. }
  destruct (current_chunk st) as [|x xs] eqn:Ecur.
  - simpl in Hlen. replace (length all_turns) with (start_turn st) by lia. exact Ht.
  - simpl in Hlen.
    replace (length all_turns)
      with (start_turn st + (length all_turns - start_turn st))%nat at 2 by lia.
    apply tiles_snoc; [exact Ht|lia| |].
    + simpl. do 2 f_equal. lia.
    + simpl. now rewrite Hsp.
Qed.
End Tiling.

(** X15: when turns are extracted, the chunks of [chunk_by_speaker]
    hold consecutive blocks of at least one turn that follow one
    another from the first turn to the last; each chunk records the
    range of its block and the set of the speakers of its turns. *)
Theorem speaker_chunks_tile_the_turns (text : str) (max_size overlap : Z) :
  extract_turns text <> [] ->
  exists cs,
    chunk_by_speaker text max_size overlap = Ok cs /\
    tiles (extract_turns text) 0 cs (length (extract_turns text)).
Proof.
  intros Hne. unfold chunk_by_speaker.
  destruct text as [|a text'] eqn:Et.
  { exfalso. apply Hne. reflexivity. }
  rewrite <- Et in *. clear Et.
  destruct (extract_turns text) as [|t ts] eqn:E; [congruence|].
  eexists. split; [reflexivity|]. apply chunk_turns_tile.
Qed.

(** X15 on four turns and a limit of [20]. *)
Lemma speaker_chunks_tile_the_turns_witness :
  exists cs,
    chunk_by_speaker four_turns 20 1 = Ok cs /\
    tiles (extract_turns four_turns) 0 cs (length (extract_turns four_turns)).
Proof.
  apply (speaker_chunks_tile_the_turns four_turns 20 1).
  vm_compute. discriminate.
Defined.

Lemma split_char_nonempty (c : ascii) (s : str) : split_char c s <> [].
Proof.
  induction s as [|a s IH]; [discriminate|].
  rewrite split_char_cons. destruct (ascii_eqb a c); [discriminate|].
  destruct (split_char c s); discriminate.
Qed.

Lemma last_cons {A} (x d : A) (l : list A) : List.last (x :: l) d = List.last l x.
Proof.
  revert x d. induction l as [|y l IH]; intros x d; [reflexivity|].
  change (List.last (x :: y :: l) d) with (List.last (y :: l) d).
  now rewrite !IH.
Qed.

Section Sections.
Variable config : adaptive_config.

Lemma section_step_header_only (st : section_state) (line : str) :
  is_header line = true ->
  s_chunks st = [] ->
  (current_section st = [] \/ s_current_size st < min_chunk_size config) ->
  section_step config st line =
  {| s_chunks := []; current_section := [line]; s_current_size := len line;
     current_header := strip line |}.
Proof.
  intros Hh Hc Hsmall. unfold section_step. unfold is_header in Hh. rewrite Hh.
  rewrite Hc. f_equal.
  destruct Hsmall as [->|Hlt]; [reflexivity|].
  rewrite (proj2 (Z.leb_gt _ _) Hlt). now rewrite andb_false_r.
Qed.

Lemma section_fold_header_only (ls : list str) (st : section_state) (l0 : str) :
  forallb (fun line => is_header line && (len line <? min_chunk_size config)) ls = true ->
  s_chunks st = [] ->
  current_section st = [l0] -> s_current_size st < min_chunk_size config ->
  current_header st = strip l0 -> s_current_size st = len l0 ->
  fold_left (section_step config) ls st =
  {| s_chunks := []; current_section := [List.last ls l0];
     s_current_size := len (List.last ls l0);
     current_header := strip (List.last ls l0) |}.
Proof.
  revert st l0. induction ls as [|l ls IH]; intros st l0 Hall Hc Hs Hlt Hh Hsz.
  - simpl. destruct st. simpl in *. now subst.
  - simpl in Hall. apply andb_true_iff in Hall as [Hl Hall].
    apply andb_true_iff in Hl as [Hhd Hlen]. apply Z.ltb_lt in Hlen.
    simpl fold_left. rewrite section_step_header_only by (auto).
    rewrite (IH _ l) by (simpl; auto).
    now rewrite last_cons.
Qed.

(** X16: when every line of the text opens a section and is shorter
    than [min_chunk_size], [_chunk_structured_document] returns a single
    chunk that holds the last line only: a section below the minimum
    is dropped when the next header arrives. *)
Theorem short_header_sections_are_dropped (text : str) :
  forallb (fun line => is_header line && (len line <? min_chunk_size config))
    (split_char LF text) = true ->
  _chunk_structured_document text config
  = [header_only_chunk (List.last (split_char LF text) [])].
Proof.
  intros Hall. unfold _chunk_structured_document.
  destruct (split_char LF text) as [|l ls] eqn:E.
  { now apply split_char_nonempty in E. }
  simpl in Hall. apply andb_true_iff in Hall as [Hl Hall].
  apply andb_true_iff in Hl as [Hhd Hlen]. apply Z.ltb_lt in Hlen.
  simpl fold_left. rewrite section_step_header_only by (simpl; auto).
  rewrite (section_fold_header_only ls _ l) by (simpl; auto).
  rewrite (last_cons l [] ls).
  destruct (List.last ls l) eqn:El; reflexivity.
Qed.
End Sections.

(** X16 on three bullet points and a minimum of [100]. *)
Lemma short_header_sections_are_dropped_witness :
  _chunk_structured_document bullets default_config
  = [header_only_chunk (lit "- gamma")].
Proof.
  apply (short_header_sections_are_dropped default_config bullets).
  vm_compute. reflexivity.
Defined.

Lemma in_some_chunk_app pars cs cs' j :
  in_some_chunk pars cs j -> in_some_chunk pars (cs ++ cs') j.
Proof.
  intros (c & lo & n & Hin & Hj & Hc). exists c, lo, n.
  split; [apply in_or_app; now left|]. now split.
Qed.

Section Coverage.
Variable config : adaptive_config.
Variable pars : list str.

Lemma para_step_cov (done todo : list str) (p : str) (st : para_state) :
  pars = done ++ p :: todo ->
  para_inv config pars (length done) st ->
  covered_before pars (length done) st ->
  covered_before pars (S (length done)) (para_step config st (length done, p)).
Proof.
  intros Hall (Hle & Hcur & _) Hcov.
  unfold covered_before in *. unfold para_step.
  destruct ((max_chunk_size config <? p_current_size st + len p)
            && nonempty (p_current_chunk st)) eqn:Eemit.
  - assert (Hemit : forall j, (j < length done)%nat ->
               in_some_chunk pars
                 (p_chunks st ++
                  [paragraph_chunk (p_current_chunk st) (p_current_size st)
                     (Z.of_nat (length done) - Z.of_nat (length (p_current_chunk st)))
                     (Z.of_nat (length done) - 1)]) j).
    { intros j Hj.
      destruct (Nat.lt_ge_cases j (length done - length (p_current_chunk st))) as [Hlt|Hge].
      - apply in_some_chunk_app. now apply Hcov.
      - eexists _, (length done - length (p_current_chunk st))%nat,
          (length (p_current_chunk st)).
        split; [apply in_or_app; right; now left|]. split; [lia|].
        simpl. now rewrite <- Hcur. }
    destruct (p_current_chunk st) as [|a [|b l]] eqn:Ecur; simpl;
      intros j Hj; apply Hemit; lia.
  - simpl. intros j Hj. apply Hcov. rewrite length_app in Hj. simpl in Hj. lia.
Qed.

Lemma para_fold_cov (todo done : list str) (st : para_state) :
  pars = done ++ todo ->
  para_inv config pars (length done) st ->
  covered_before pars (length done) st ->
  covered_before pars (length pars)
    (fold_left (para_step config)
       (combine (seq (length done) (length todo)) todo) st).
Proof.
  revert done st. induction todo as [|t todo IH]; intros done st Hall Hinv Hcov.
  - assert (E : length pars = length done) by (now rewrite Hall, app_nil_r).
    simpl. rewrite E. exact Hcov.
  - simpl. specialize (IH (done ++ [t])).
    rewrite length_app, Nat.add_1_r in IH. apply IH.
    + now rewrite <- app_assoc.
    + now apply para_step_inv with (todo := todo).
    + now apply para_step_cov with (todo := todo).
Qed.

Lemma chunk_paragraphs_cover (j : nat) :
  (j < length pars)%nat -> in_some_chunk pars (chunk_paragraphs config pars) j.
Proof.
  intros Hj. unfold chunk_paragraphs, enumerate.
  set (st0 := {| p_chunks := []; p_current_chunk := []; p_current_size := 0 |}).
  assert (H0 : para_inv config pars 0 st0).
  { unfold para_inv. simpl. repeat split; try lia; try congruence.
    constructor. }
  assert (C0 : covered_before pars 0 st0)
    by (unfold covered_before; intros k Hk; simpl in Hk; lia).
  pose proof (para_fold_inv config pars pars [] st0 eq_refl H0) as Hinv.
  pose proof (para_fold_cov pars [] st0 eq_refl H0 C0) as Hcov.
  unfold covered_before in Hcov.
  simpl length in Hinv at 2. simpl length in Hcov.
  set (st := fold_left _ _ _) in *.
  destruct Hinv as (Hle & Hcur & _).
  destruct (Nat.lt_ge_cases j (length pars - length (p_current_chunk st))) as [Hlt|Hge].
  - destruct (p_current_chunk st); [now apply Hcov|].
    apply in_some_chunk_app. now apply Hcov.
  - destruct (p_current_chunk st) as [|a l] eqn:E; [simpl in Hge; lia|].
    rewrite <- E in *.
    eexists _, (length pars - length (p_current_chunk st))%nat,
      (length (p_current_chunk st)).
    split; [apply in_or_app; right; now left|]. split; [lia|].
    simpl. now rewrite <- Hcur.
Qed.
End Coverage.

(** X17: in [_chunk_by_paragraphs_enhanced] every paragraph of the text
    belongs to a block of consecutive paragraphs that makes up the
    content of a chunk. *)
Theorem no_paragraph_is_lost (text : str) (config : adaptive_config) (j : nat) :
  (j < length (paragraphs_of text))%nat ->
  in_some_chunk (paragraphs_of text) (_chunk_by_paragraphs_enhanced text config) j.
Proof.
  intros Hj. unfold _chunk_by_paragraphs_enhanced.
  destruct (paragraphs_of text) as [|p ps] eqn:E; [simpl in Hj; lia|].
  now apply chunk_paragraphs_cover.
Qed.

(** X17 on the third of four paragraphs and a limit of [10]. *)
Lemma no_paragraph_is_lost_witness :
  in_some_chunk (paragraphs_of four_paragraphs)
    (_chunk_by_paragraphs_enhanced four_paragraphs small_config) 2.
Proof.
  apply (no_paragraph_is_lost four_paragraphs small_config 2).
  vm_compute. lia.
Defined.

End ChunkingMore.

(** ** The texts a pattern matches *)

Module RegexFacts.

Import TextProcessor RegexProperties PyFacts.


Lemma reaches_refl (c : cursor) : reaches c c [].
Proof. split; reflexivity. Qed.

Lemma reaches_trans (c1 c2 c3 : cursor) (s1 s2 : str) :
  reaches c1 c2 s1 -> reaches c2 c3 s2 -> reaches c1 c3 (s1 ++ s2).
Proof.
  intros [H1 H2] [H3 H4]. split.
  - rewrite H3, H1, rev_app_distr. now rewrite app_assoc.
  - rewrite H2, H4. now rewrite app_assoc.
Qed.

Lemma reaches_passed (c c' : cursor) (s : str) : reaches c c' s -> passed c c' = s.
Proof.
  intros [H1 _]. unfold passed. rewrite H1, length_app, length_rev.
  replace (length s + length (seen c) - length (seen c))%nat with (length (rev s)).
  - rewrite firstn_app, Nat.sub_diag, firstn_all. simpl.
    now rewrite app_nil_r, rev_involutive.
  - rewrite length_rev. lia.
Qed.

(** Five goals: the continuation, the distance, the text, the captures
    and the groups on record. *)
Ltac give c' new s :=
  exists c', new, s; split; [|split; [|split; [|split]]].

Ltac stay c :=
  give c (@nil (nat * str)) (@nil ascii);
  [assumption || reflexivity
  |apply reaches_refl
  |constructor
  |constructor
  |intros ? Hrec; discriminate Hrec].

Section Soundness.
Variable Q : nat -> str -> Prop.

(** What a successful run of [r] from [c] amounts to. *)
Local Abbreviation sound_at r c g k ans :=
  (exists c' new s,
     k c' (new ++ g) = Some ans /\ reaches c c' s /\ Lang r s /\ captured Q r new).

Lemma star_loop_sound (r : re) (fuel : nat) :
  (forall c g k ans, run_re r c g k = Some ans -> sound_at r c g k ans) ->
  forall c g k ans,
    star_loop (run_re r) fuel c g k = Some ans -> sound_at (Star r) c g k ans.
Proof.
  intros IHr. induction fuel as [|fuel IH]; intros c g k ans H; simpl in H.
  - stay c.
  - destruct (run_re r c g _) as [x|] eqn:E.
    + injection H as ->. apply IHr in E as (c1 & new1 & s1 & Hk & Hr1 & Hl1 & Hc1 & _).
      destruct (progress c c1); [|discriminate].
      apply IH in Hk as (c2 & new2 & s2 & Hk2 & Hr2 & Hl2 & Hc2 & _).
      give c2 (new2 ++ new1) (s1 ++ s2).
      * now rewrite <- app_assoc.
      * eapply reaches_trans; eassumption.
      * now constructor.
      * apply Forall_app_2; assumption.
      * intros n Hn. discriminate.
    + stay c.
Qed.

Lemma lazy_loop_sound (r : re) (fuel : nat) :
  (forall c g k ans, run_re r c g k = Some ans -> sound_at r c g k ans) ->
  forall c g k ans,
    lazy_loop (run_re r) fuel c g k = Some ans -> sound_at (LazyStar r) c g k ans.
Proof.
  intros IHr. induction fuel as [|fuel IH]; intros c g k ans H; simpl in H.
  - stay c.
  - destruct (k c g) as [x|] eqn:E.
    + injection H as ->. stay c.
    + apply IHr in H as (c1 & new1 & s1 & Hk & Hr1 & Hl1 & Hc1 & _).
      destruct (progress c c1); [|discriminate].
      apply IH in Hk as (c2 & new2 & s2 & Hk2 & Hr2 & Hl2 & Hc2 & _).
      give c2 (new2 ++ new1) (s1 ++ s2).
      * now rewrite <- app_assoc.
      * eapply reaches_trans; eassumption.
      * now constructor.
      * apply Forall_app_2; assumption.
      * intros n Hn. discriminate.
Qed.

Lemma run_re_sound (r : re) :
  groups_in Q r ->
  forall c g k ans, run_re r c g k = Some ans -> sound_at r c g k ans.
Proof.
  induction r as [|p|r1 IH1 r2 IH2|r1 IH1 r2 IH2|r IH|r IH|n r IH| | | | |];
    intros HQ c g k ans H; cbn [run_re] in H.
  - stay c.
  - destruct c as [sn [|a t]]; cbn [rest seen] in H; [discriminate|].
    destruct (p a) eqn:Ea; [|discriminate].
    give {| seen := a :: sn; rest := t |} (@nil (nat * str)) [a].
    + exact H.
    + split; reflexivity.
    + now constructor.
    + constructor.
    + intros n Hn. discriminate.
  - destruct HQ as [HQ1 HQ2].
    apply (IH1 HQ1) in H as (c1 & new1 & s1 & Hk & Hr1 & Hl1 & Hc1 & Hrec1).
    apply (IH2 HQ2) in Hk as (c2 & new2 & s2 & Hk2 & Hr2 & Hl2 & Hc2 & Hrec2).
    give c2 (new2 ++ new1) (s1 ++ s2).
    + now rewrite <- app_assoc.
    + eapply reaches_trans; eassumption.
    + now constructor.
    + apply Forall_app_2; assumption.
    + intros n Hn. simpl in Hn. apply orb_true_iff in Hn as [Hn|Hn].
      * destruct (Hrec1 n Hn) as [t Ht]. exists t. apply in_or_app. now right.
      * destruct (Hrec2 n Hn) as [t Ht]. exists t. apply in_or_app. now left.
  - destruct HQ as [HQ1 HQ2]. destruct (run_re r1 c g k) as [x|] eqn:E.
    + injection H as ->.
      apply (IH1 HQ1) in E as (c1 & new1 & s1 & Hk & Hr1 & Hl1 & Hc1 & Hrec1).
      give c1 new1 s1; [exact Hk|exact Hr1| |exact Hc1|].
      * now apply Lang_Alt_l.
      * intros n Hn. simpl in Hn. apply andb_true_iff in Hn as [Hn _]. auto.
    + apply (IH2 HQ2) in H as (c1 & new1 & s1 & Hk & Hr1 & Hl1 & Hc1 & Hrec1).
      give c1 new1 s1; [exact Hk|exact Hr1| |exact Hc1|].
      * now apply Lang_Alt_r.
      * intros n Hn. simpl in Hn. apply andb_true_iff in Hn as [_ Hn]. auto.
  - eapply star_loop_sound; [|exact H]. intros. now apply IH.
  - eapply lazy_loop_sound; [|exact H]. intros. now apply IH.
  - destruct HQ as [HQn HQ].
    apply (IH HQ) in H as (c1 & new1 & s1 & Hk & Hr1 & Hl1 & Hc1 & Hrec1).
    rewrite (reaches_passed c c1 s1 Hr1) in Hk.
    give c1 ((n, s1) :: new1) s1.
    + exact Hk.
    + exact Hr1.
    + now constructor.
    + apply List.Forall_cons; [simpl; now apply HQn|exact Hc1].
    + intros m Hm. simpl in Hm. apply orb_true_iff in Hm as [Hm|Hm].
      * apply Nat.eqb_eq in Hm. subst m. exists s1. now left.
      * destruct (Hrec1 m Hm) as [t Ht]. exists t. now right.
  - destruct (seen c); [|discriminate]. stay c.
  - assert (Hk : k c g = Some ans).
    { destruct (rest c) as [|a [|b t]]; try discriminate; [exact H|].
      destruct (ascii_eqb a LF); [exact H|discriminate]. }
    stay c.
  - assert (Hk : k c g = Some ans).
    { destruct (seen c) as [|a t]; [exact H|].
      destruct (ascii_eqb a LF); [exact H|discriminate]. }
    stay c.
  - assert (Hk : k c g = Some ans).
    { destruct (rest c) as [|a t]; [exact H|].
      destruct (ascii_eqb a LF); [exact H|discriminate]. }
    stay c.
  - destruct (at_word_boundary c); [|discriminate]. stay c.
Qed.

Lemma group_captured (r : re) (new : captures) (n : nat) :
  captured Q r new -> records n r = true -> Q n (group n new).
Proof.
  intros [Hall Hrec] Hn. destruct (Hrec n Hn) as [t Ht].
  unfold group.
  destruct (List.find (fun e => (fst e =? n)%nat) new) as [e|] eqn:E.
  - apply List.find_some in E as [Hin He]. apply Nat.eqb_eq in He.
    rewrite List.Forall_forall in Hall. specialize (Hall e Hin). now rewrite He in Hall.
  - apply (List.find_none _ _ E) in Ht. simpl in Ht. now rewrite Nat.eqb_refl in Ht.
Qed.

(** A match at a position: the text it covers and its captures. *)
Lemma match_at_sound (r : re) (c c' : cursor) (g : captures) :
  groups_in Q r -> match_at r c = Some (c', g) ->
  exists s, reaches c c' s /\ Lang r s /\ captured Q r g.
Proof.
  intros HQ H. unfold match_at in H.
  apply (run_re_sound r HQ) in H as (c1 & new & s & Hk & Hr & Hl & Hc).
  unfold accept in Hk. injection Hk as <- <-. rewrite app_nil_r.
  exists s. auto.
Qed.

Lemma search_from_sound (r : re) (fuel : nat) (c c0 : cursor) (a : answer) :
  search_from r fuel c = Some (c0, a) ->
  match_at r c0 = Some a /\ exists pre, reaches c c0 pre.
Proof.
  revert c. induction fuel as [|fuel IH]; intros c H; simpl in H.
  - destruct (match_at r c) as [x|] eqn:E.
    + injection H as <- <-. split; [exact E|]. exists []. apply reaches_refl.
    + destruct (advance c); discriminate.
  - destruct (match_at r c) as [x|] eqn:E.
    + injection H as <- <-. split; [exact E|]. exists []. apply reaches_refl.
    + unfold advance in H. destruct c as [sn [|x t]]; cbn [rest seen] in H; [discriminate|].
      apply IH in H as [Hm [pre Hp]]. split; [exact Hm|].
      exists (x :: pre). destruct Hp as [H1 H2]. split; simpl in *.
      * rewrite H1. now rewrite <- app_assoc.
      * now rewrite H2.
Qed.

(** [re.search]: the text found lies inside the subject. *)
Lemma re_search_sound (r : re) (s : str) (c0 c' : cursor) (g : captures) :
  groups_in Q r -> re_search r s = Some (c0, (c', g)) ->
  exists pre m post,
    s = pre ++ m ++ post /\ Lang r m /\ captured Q r g.
Proof.
  intros HQ H. unfold re_search in H.
  apply search_from_sound in H as [Hm [pre [Hp1 Hp2]]].
  apply (match_at_sound r c0 c' g HQ) in Hm as (m & [Hr1 Hr2] & Hl & Hc).
  exists pre, m, (rest c'). simpl in Hp2.
  split; [now rewrite Hp2, Hr2|]. split; assumption.
Qed.

(** [re.match]: the text found is a prefix of the subject. *)
Lemma re_match_sound (r : re) (s : str) (c' : cursor) (g : captures) :
  groups_in Q r -> re_match r s = Some (c', g) ->
  exists m post, s = m ++ post /\ Lang r m /\ captured Q r g.
Proof.
  intros HQ H. unfold re_match in H.
  apply (match_at_sound r _ c' g HQ) in H as (m & [Hr1 Hr2] & Hl & Hc).
  exists m, (rest c'). simpl in Hr2. auto.
Qed.
End Soundness.

End RegexFacts.

(** ** The date of a document title *)

Module DateFacts.

Import TextProcessor Dates RegexProperties DateProperties PyFacts RegexFacts.

(** *** Character classes *)

Ltac each_char a :=
  destruct a as [[|] [|] [|] [|] [|] [|] [|] [|]]; try reflexivity; try discriminate.

Lemma digit_or_separator (a : ascii) :
  isdigit a && (one_of (lit "/-") a || one_of (lit "_.") a || isspace a || isalpha a)
  = false.
Proof. each_char a. Qed.

Lemma separator_or_space (a : ascii) :
  one_of (lit "/-") a && (isspace a || one_of (lit "_.") a) = false.
Proof. each_char a. Qed.

Lemma lower_letter_not_digit (a c : ascii) :
  ascii_eqb (lower_char a) (lower_char c) = true -> isalpha c = true -> isdigit a = false.
Proof.
  intros H Hc. apply Ascii.eqb_eq in H.
  assert (Ha : isalpha (lower_char a) = true).
  { rewrite H. revert Hc. clear. each_char c. }
  revert Ha. clear. each_char a.
Qed.

(** *** The texts of the date patterns *)

(** Takes the derivations of sequences, alternatives, groups and single
    characters apart. *)
Ltac inv_lang :=
  repeat match goal with
         | H : Lang (Seq _ _) _ |- _ => inversion H; subst; clear H
         | H : Lang (Alt _ _) _ |- _ => inversion H; subst; clear H
         | H : Lang (Group _ _) _ |- _ => inversion H; subst; clear H
         | H : Lang (Chr _) _ |- _ => inversion H; subst; clear H
         | H : Lang Eps _ |- _ => inversion H; subst; clear H
         end.

Lemma lang_star_class (p : ascii -> bool) (s : str) :
  Lang (Star (Chr p)) s -> forallb p s = true.
Proof.
  intros H. remember (Star (Chr p)) as r eqn:Er.
  induction H; try discriminate; [reflexivity|].
  injection Er as ->. inversion H as [|p' a Ha| | | | | | | | | | | | |]; subst. simpl.
  rewrite IHLang2 by reflexivity. now rewrite Ha.
Qed.

Lemma lang_plus_class (p : ascii -> bool) (s : str) :
  Lang (Plus (Chr p)) s -> exists a t, s = a :: t /\ p a = true /\ forallb p t = true.
Proof.
  unfold Plus. intros H. inversion H; subst. inversion H2; subst.
  apply lang_star_class in H4. exists a, s2. auto.
Qed.

Lemma lang_digits_4 (s : str) :
  Lang (digits 4) s ->
  exists a b c d, s = [a; b; c; d] /\ forallb isdigit [a; b; c; d] = true.
Proof.
  unfold digits, digit. cbn [repeat seq_of]. intros H. inv_lang.
  do 4 eexists. split; [reflexivity|]. simpl.
  repeat match goal with H : isdigit _ = true |- _ => rewrite H; clear H end.
  reflexivity.
Qed.

Lemma lang_digits_2 (s : str) :
  Lang (digits 2) s -> exists a b, s = [a; b] /\ forallb isdigit [a; b] = true.
Proof.
  unfold digits, digit. cbn [repeat seq_of]. intros H. inv_lang.
  do 2 eexists. split; [reflexivity|]. simpl.
  repeat match goal with H : isdigit _ = true |- _ => rewrite H; clear H end.
  reflexivity.
Qed.

Lemma lang_one_or_two_digits (s : str) :
  Lang one_or_two_digits s ->
  (exists a, s = [a] /\ isdigit a = true) \/
  (exists a b, s = [a; b] /\ isdigit a = true /\ isdigit b = true).
Proof.
  unfold one_or_two_digits, digit. cbn [UpTo]. unfold Opt. intros H. inv_lang.
  all: first [ left; eexists; split; [reflexivity|assumption]
             | right; do 2 eexists; split; [reflexivity|auto] ].
Qed.

Lemma lang_literal_i_3 (x y z : ascii) (s : str) :
  Lang (literal_i [x; y; z]) s ->
  exists a b c, s = [a; b; c] /\ ascii_eqb (lower_char a) (lower_char x) = true.
Proof.
  unfold literal_i. cbn [List.map seq_of]. intros H. inv_lang.
  do 3 eexists. split; [reflexivity|assumption].
Qed.

Lemma lang_alt_of (rs : list re) (s : str) :
  rs <> [] -> Lang (alt_of rs) s -> exists r, In r rs /\ Lang r s.
Proof.
  induction rs as [|r rs IH]; [congruence|]. intros _ H.
  destruct rs as [|r' rs].
  - exists r. split; [now left|exact H].
  - change (Lang (Alt r (alt_of (r' :: rs))) s) in H. inversion H; subst.
    + exists r. split; [now left|assumption].
    + destruct IH as (r0 & Hin & Hr0); [congruence|assumption|].
      exists r0. split; [now right|assumption].
Qed.

Lemma lang_month_name (s : str) :
  Lang month_name s ->
  exists a b c, s = [a; b; c] /\ isdigit a = false.
Proof.
  intros H. apply lang_alt_of in H as (r & Hin & Hr); [|discriminate].
  apply in_map_iff in Hin as (name & <- & Hin).
  assert (exists x y z, name = [x; y; z] /\ isalpha x = true) as (x & y & z & -> & Hx).
  { unfold month_names in Hin. simpl in Hin.
    repeat destruct Hin as [<-|Hin]; try contradiction;
      do 3 eexists; (split; [reflexivity|reflexivity]). }
  apply lang_literal_i_3 in Hr as (a & b & c & -> & Ha).
  exists a, b, c. split; [reflexivity|].
  exact (lower_letter_not_digit _ _ Ha Hx).
Qed.

(** Four digits, a separator, two digits, a separator, two digits. *)
Lemma lang_year_month_day (p : ascii -> bool) (s : str) :
  Lang (seq_of [digits 4; Chr p; digits 2; Chr p; digits 2]) s ->
  exists y1 y2 y3 y4 s1 m1 m2 s2 d1 d2,
    s = [y1; y2; y3; y4; s1; m1; m2; s2; d1; d2] /\
    forallb isdigit [y1; y2; y3; y4; m1; m2; d1; d2] = true /\
    p s1 = true /\ p s2 = true.
Proof.
  cbn [seq_of]. intros H. inv_lang.
  repeat match goal with
         | H : Lang (digits 4) _ |- _ =>
           apply lang_digits_4 in H as (? & ? & ? & ? & -> & H)
         | H : Lang (digits 2) _ |- _ => apply lang_digits_2 in H as (? & ? & -> & H)
         end.
  do 10 eexists. split; [reflexivity|]. split; [|split; assumption].
  simpl in *. repeat match goal with
                     | H : _ && _ = true |- _ => apply andb_prop in H as [? H]
                     end.
  repeat match goal with H : isdigit _ = true |- _ => rewrite H; clear H end.
  reflexivity.
Qed.

Lemma lang_iso_date (s : str) : Lang iso_date s -> iso_shaped s = true.
Proof.
  intros H. apply (lang_year_month_day (fun a => ascii_eqb a "-")) in H
    as (y1 & y2 & y3 & y4 & s1 & m1 & m2 & s2 & d1 & d2 & -> & Hd & H1 & H2).
  unfold iso_shaped. now rewrite Hd, H1, H2.
Qed.

Lemma lang_us_date (s : str) :
  Lang us_date s ->
  exists m s1 d s2 y1 y2 y3 y4,
    s = m ++ s1 :: d ++ s2 :: [y1; y2; y3; y4] /\
    Lang one_or_two_digits m /\ Lang one_or_two_digits d /\
    one_of (lit "/-") s1 = true /\ one_of (lit "/-") s2 = true /\
    forallb isdigit [y1; y2; y3; y4] = true.
Proof.
  unfold us_date, slash_or_dash. cbn [seq_of]. intros H. inv_lang.
  match goal with
  | H : Lang (digits 4) _ |- _ => apply lang_digits_4 in H as (? & ? & ? & ? & -> & H)
  end.
  do 8 eexists. split; [reflexivity|]. auto.
Qed.

(** A date with the month first begins with a letter. *)
Lemma lang_month_first (s : str) :
  Lang month_first s -> exists a t, s = a :: t /\ isdigit a = false.
Proof.
  unfold month_first. cbn [seq_of]. intros H.
  inversion H as [| |r1 r2 s1 s2 Hm _| | | | | | | | | | | |]; subst.
  apply lang_month_name in Hm as (a & b & c & -> & Ha).
  do 2 eexists. split; [reflexivity|assumption].
Qed.

(** A date with the day first: one or two digits, then a space. *)
Lemma lang_day_first (s : str) :
  Lang day_first s ->
  exists ds sp t, s = ds ++ sp :: t /\ Lang one_or_two_digits ds /\ isspace sp = true.
Proof.
  unfold day_first. cbn [seq_of]. intros H.
  inversion H as [| |r1 r2 s1 s2 Hd H'| | | | | | | | | | | |]; subst.
  inversion H' as [| |r1 r2 s3 s4 Hs _| | | | | | | | | | | |]; subst.
  apply lang_plus_class in Hs as (sp & t & -> & Hsp & _).
  exists s1, sp, (t ++ s4). split; [reflexivity|]. split; assumption.
Qed.

(** *** [zfill] and the month table *)

Lemma not_a_sign (a : ascii) :
  isdigit a = true -> ascii_eqb a "+" || ascii_eqb a "-" = false.
Proof. each_char a. Qed.

Lemma zfill_day (t : str) :
  Lang one_or_two_digits t ->
  exists a b, zfill 2 t = [a; b] /\ isdigit a = true /\ isdigit b = true.
Proof.
  intros H. apply lang_one_or_two_digits in H as [(a & -> & Ha)|(a & b & -> & Ha & Hb)].
  - exists "0"%char, a. unfold zfill. rewrite (not_a_sign a Ha). simpl. auto.
  - exists a, b. unfold zfill. simpl. destruct (_ || _); auto.
Qed.

Lemma month_number_digits (name month_num : str) :
  month_number name = Some month_num ->
  exists a b, month_num = [a; b] /\ isdigit a = true /\ isdigit b = true.
Proof.
  unfold month_number.
  destruct (List.find _ month_map) as [kv|] eqn:E; [|discriminate].
  intros [= <-]. apply List.find_some in E as [Hin _].
  unfold month_map in Hin. simpl in Hin.
  repeat destruct Hin as [<-|Hin]; try contradiction;
    do 2 eexists; (split; [reflexivity|split; reflexivity]).
Qed.

Lemma year_month_day_shape (y m d : str) :
  Lang (digits 4) y ->
  (exists a b, m = [a; b] /\ isdigit a = true /\ isdigit b = true) ->
  (exists a b, d = [a; b] /\ isdigit a = true /\ isdigit b = true) ->
  iso_shaped (y ++ lit "-" ++ m ++ lit "-" ++ d) = true.
Proof.
  intros Hy (m1 & m2 & -> & Hm1 & Hm2) (d1 & d2 & -> & Hd1 & Hd2).
  apply lang_digits_4 in Hy as (y1 & y2 & y3 & y4 & -> & Hy).
  simpl in Hy.
  repeat match goal with
         | H : _ && _ = true |- _ => apply andb_prop in H as [? H]
         end.
  change (iso_shaped [y1; y2; y3; y4; "-"%char; m1; m2; "-"%char; d1; d2] = true).
  unfold iso_shaped. simpl.
  repeat match goal with H : isdigit _ = true |- _ => rewrite H; clear H end.
  reflexivity.
Qed.

(** *** The forms with a month name *)

(** Whatever the text, a month name with a day and a year comes out
    in the shape of an ISO date. *)
Lemma from_named_month_shape (pattern : re) (month_group day_group : nat)
    (date_str d : str) :
  groups_in (fun n t => (n = day_group -> Lang one_or_two_digits t) /\
                        (n = 3%nat -> Lang (digits 4) t)) pattern ->
  records day_group pattern = true -> records 3 pattern = true ->
  from_named_month pattern month_group day_group date_str = Some d ->
  iso_shaped d = true.
Proof.
  intros Hg Hday Hyear H. unfold from_named_month in H.
  destruct (re_search pattern date_str) as [[c0 [c' g]]|] eqn:E; [|discriminate].
  destruct (month_number (group month_group g)) as [month_num|] eqn:Em; [|discriminate].
  injection H as <-.
  destruct (re_search_sound _ pattern date_str c0 c' g Hg E) as (_ & _ & _ & _ & _ & Hc).
  pose proof (group_captured _ pattern g day_group Hc Hday) as [Hd _].
  pose proof (group_captured _ pattern g 3%nat Hc Hyear) as [_ Hy].
  apply year_month_day_shape.
  - now apply Hy.
  - exact (month_number_digits _ _ Em).
  - apply zfill_day. now apply Hd.
Qed.

Lemma month_day_year_shape (date_str d : str) :
  from_named_month month_day_year 1 2 date_str = Some d -> iso_shaped d = true.
Proof.
  apply from_named_month_shape; [|reflexivity|reflexivity].
  unfold month_day_year. cbn [seq_of groups_in].
  repeat split; try exact I; intros; try discriminate; assumption.
Qed.

Lemma day_month_year_shape (date_str d : str) :
  from_named_month day_month_year 2 1 date_str = Some d -> iso_shaped d = true.
Proof.
  apply from_named_month_shape; [|reflexivity|reflexivity].
  unfold day_month_year. cbn [seq_of groups_in].
  repeat split; try exact I; intros; try discriminate; assumption.
Qed.

(** *** The forms of digits only *)

Lemma matches_prefix (r : re) (s : str) :
  groups_in (fun _ _ => True) r -> matches r s = true ->
  exists m post, s = m ++ post /\ Lang r m.
Proof.
  intros Hg H. unfold matches in H.
  destruct (re_match r s) as [[c' g]|] eqn:E; [|discriminate].
  destruct (re_match_sound _ r s c' g Hg E) as (m & post & Hs & Hm & _). eauto.
Qed.

Lemma split_class_go_app (p : ascii -> bool) (t cur rest : str) :
  forallb (fun a => negb (p a)) t = true ->
  split_class_go p cur (t ++ rest) = split_class_go p (rev t ++ cur) rest.
Proof.
  revert cur. induction t as [|a t IH]; intros cur H; [reflexivity|].
  simpl in H. apply andb_prop in H as [Ha Ht]. apply negb_true_iff in Ha.
  simpl. rewrite Ha, IH by assumption. now rewrite <- app_assoc.
Qed.

Lemma digits_hold_no_separator (t : str) :
  forallb isdigit t = true ->
  forallb (fun a => negb (one_of (lit "/-") a)) t = true.
Proof.
  induction t as [|a t IH]; [reflexivity|]. cbn [forallb]. intros H.
  apply andb_prop in H as [Ha Ht]. rewrite (IH Ht), andb_true_r.
  pose proof (digit_or_separator a) as X. rewrite Ha in X. simpl in X.
  apply orb_false_elim in X as [X _]. apply orb_false_elim in X as [X _].
  apply orb_false_elim in X as [X _]. apply negb_true_iff. exact X.
Qed.

Lemma one_or_two_digits_are_digits (t : str) :
  Lang one_or_two_digits t -> forallb isdigit t = true.
Proof.
  intros H. apply lang_one_or_two_digits in H as [(a & -> & Ha)|(a & b & -> & Ha & Hb)];
    simpl; now rewrite ?Ha, ?Hb.
Qed.

(** Month, day and year between slashes or dashes are split into
    exactly these three. *)
Lemma split_us_date (m d y : str) (s1 s2 : ascii) :
  forallb isdigit m = true -> forallb isdigit d = true -> forallb isdigit y = true ->
  one_of (lit "/-") s1 = true -> one_of (lit "/-") s2 = true ->
  split_class (one_of (lit "/-")) (m ++ s1 :: d ++ s2 :: y) = [m; d; y].
Proof.
  intros Hm Hd Hy H1 H2. unfold split_class.
  rewrite split_class_go_app by now apply digits_hold_no_separator.
  cbn [split_class_go]. rewrite H1.
  rewrite split_class_go_app by now apply digits_hold_no_separator.
  cbn [split_class_go]. rewrite H2.
  rewrite <- (app_nil_r y) at 1.
  rewrite split_class_go_app by now apply digits_hold_no_separator.
  cbn [split_class_go]. now rewrite !app_nil_r, !rev_involutive.
Qed.

Lemma replace_keeps_digit (a : ascii) :
  isdigit a = true ->
  (if ascii_eqb (if ascii_eqb a "_" then "-"%char else a) "." then "-"%char
   else if ascii_eqb a "_" then "-"%char else a) = a.
Proof. each_char a. Qed.

Lemma replace_makes_dash (a : ascii) :
  ascii_eqb a "-" || one_of (lit "_.") a = true ->
  (if ascii_eqb (if ascii_eqb a "_" then "-"%char else a) "." then "-"%char
   else if ascii_eqb a "_" then "-"%char else a) = "-"%char.
Proof. each_char a. Qed.

Lemma replaced_shape (p : ascii -> bool) (s : str) :
  (forall a, p a = true -> ascii_eqb a "-" || one_of (lit "_.") a = true) ->
  Lang (seq_of [digits 4; Chr p; digits 2; Chr p; digits 2]) s ->
  iso_shaped (replace_char "." "-" (replace_char "_" "-" s)) = true.
Proof.
  intros Hp H. apply lang_year_month_day in H
    as (y1 & y2 & y3 & y4 & s1 & m1 & m2 & s2 & d1 & d2 & -> & Hd & H1 & H2).
  apply Hp in H1, H2. unfold replace_char. cbn [List.map].
  cbn [forallb] in Hd.
  repeat match goal with
         | H : _ && _ = true |- _ => apply andb_prop in H as [? H]
         end.
  repeat match goal with
         | H : isdigit ?a = true |- _ =>
           progress rewrite (replace_keeps_digit a H)
         end.
  rewrite (replace_makes_dash s1 H1), (replace_makes_dash s2 H2).
  unfold iso_shaped. simpl.
  repeat match goal with H : isdigit _ = true |- _ => rewrite H; clear H end.
  reflexivity.
Qed.

(** *** Texts of one form never pass for another *)

(** What a text of each form begins with. *)
Ltac heads :=
  repeat match goal with
         | H : Lang iso_date _ |- _ =>
           apply (lang_year_month_day (fun a => ascii_eqb a "-")) in H
             as (? & ? & ? & ? & ? & ? & ? & ? & ? & ? & ? & ? & ? & ?)
         | H : Lang dotted_date _ |- _ =>
           apply (lang_year_month_day (one_of (lit "_."))) in H
             as (? & ? & ? & ? & ? & ? & ? & ? & ? & ? & ? & ? & ? & ?)
         | H : Lang us_date _ |- _ =>
           apply lang_us_date in H as (? & ? & ? & ? & ? & ? & ? & ? & ? & ? & ? & ? & ? & ?)
         | H : Lang month_first _ |- _ => apply lang_month_first in H as (? & ? & ? & ?)
         | H : Lang day_first _ |- _ => apply lang_day_first in H as (? & ? & ? & ? & ? & ?)
         | H : Lang one_or_two_digits _ |- _ =>
           apply lang_one_or_two_digits in H as [(? & ? & ?)|(? & ? & ? & ? & ?)]
         end;
  cbn [forallb] in *;
  repeat match goal with
         | H : _ && _ = true |- _ => apply andb_prop in H as [? H]
         end;
  subst; cbn [app] in *; cbv beta in *; simplify_eq.

Lemma digit_is_no_separator (a : ascii) :
  isdigit a = true ->
  one_of (lit "/-") a = false /\ one_of (lit "_.") a = false /\ isspace a = false.
Proof.
  intros H. pose proof (digit_or_separator a) as X. rewrite H in X. simpl in X.
  apply orb_false_elim in X as [X _]. apply orb_false_elim in X as [X X3].
  apply orb_false_elim in X as [X1 X2]. auto.
Qed.

Lemma separator_is_no_space (a : ascii) :
  one_of (lit "/-") a = true -> isspace a = false /\ one_of (lit "_.") a = false.
Proof.
  intros H. pose proof (separator_or_space a) as X. rewrite H in X. simpl in X.
  now apply orb_false_elim in X.
Qed.

Lemma dash_is_no_dot (a : ascii) :
  ascii_eqb a "-" = true -> one_of (lit "_.") a = false.
Proof. intros H. apply Ascii.eqb_eq in H. now subst. Qed.

(** Two facts about one character that no character satisfies. *)
Ltac clash :=
  exfalso;
  match goal with
  | H1 : isdigit ?a = true, H2 : isdigit ?a = false |- _ => congruence
  | H1 : isdigit ?a = true, H2 : _ ?a = true |- _ =>
    destruct (digit_is_no_separator a H1) as (? & ? & ?); congruence
  | H1 : one_of (lit "/-") ?a = true, H2 : _ ?a = true |- _ =>
    destruct (separator_is_no_space a H1); congruence
  | H1 : ascii_eqb ?a "-" = true, H2 : _ ?a = true |- _ =>
    pose proof (dash_is_no_dot a H1); congruence
  end.

Lemma no_groups_in_the_digit_forms (Q : nat -> str -> Prop) :
  groups_in Q iso_date /\ groups_in Q dotted_date /\ groups_in Q us_date.
Proof. cbv. tauto. Qed.

(** The text of a date pattern, normalised. *)
Lemma normalized_shape (body : re) (date_str d : str) :
  In body date_forms -> Lang body date_str ->
  _normalize_date_string date_str = Some d -> iso_shaped d = true.
Proof.
  intros Hin Ho H.
  destruct (no_groups_in_the_digit_forms (fun _ _ => True)) as (Gi & Gd & Gu).
  unfold _normalize_date_string in H.
  destruct (matches iso_date date_str) eqn:E1.
  { injection H as <-.
    apply matches_prefix in E1 as (m & post & Hs & Hm); [|exact Gi].
    unfold date_forms in Hin. simpl in Hin.
    destruct Hin as [<-|[<-|[<-|[<-|[<-|[]]]]]].
    - now apply lang_iso_date.
    - heads; clash.
    - heads; clash.
    - heads; clash.
    - heads; clash. }
  destruct (matches dotted_date date_str) eqn:E2.
  { injection H as <-.
    apply matches_prefix in E2 as (m & post & Hs & Hm); [|exact Gd].
    unfold date_forms in Hin. simpl in Hin.
    destruct Hin as [<-|[<-|[<-|[<-|[<-|[]]]]]].
    - apply (replaced_shape (fun a => ascii_eqb a "-")); [|exact Ho].
      intros a ->. reflexivity.
    - heads; clash.
    - heads; clash.
    - heads; clash.
    - apply (replaced_shape (one_of (lit "_."))); [|exact Ho].
      intros a ->. apply orb_true_r. }
  destruct (from_us_date date_str) as [d'|] eqn:E3.
  { injection H as <-. unfold from_us_date in E3.
    destruct (matches us_date date_str) eqn:E; [|discriminate].
    apply matches_prefix in E as (m & post & Hs & Hm); [|exact Gu].
    unfold date_forms in Hin. simpl in Hin.
    destruct Hin as [<-|[<-|[<-|[<-|[<-|[]]]]]].
    - heads; clash.
    - clear m post Hs Hm.
      apply lang_us_date in Ho
        as (m & s1 & d & s2 & y1 & y2 & y3 & y4 & -> & Hmo & Hda & H1 & H2 & Hy).
      rewrite split_us_date in E3
        by (assumption || now apply one_or_two_digits_are_digits).
      injection E3 as <-.
      apply (year_month_day_shape [y1; y2; y3; y4] (zfill 2 m) (zfill 2 d));
        try now apply zfill_day.
      unfold digits, digit. cbn [repeat seq_of].
      cbn [forallb] in Hy.
      repeat match goal with
             | H : _ && _ = true |- _ => apply andb_prop in H as [? H]
             end.
      change [y1; y2; y3; y4] with ([y1] ++ [y2] ++ [y3] ++ [y4]).
      repeat constructor; assumption.
    - heads; clash.
    - heads; clash.
    - heads; clash. }
  destruct (from_named_month month_day_year 1 2 date_str) as [d'|] eqn:E4.
  { injection H as <-. exact (month_day_year_shape _ _ E4). }
  exact (day_month_year_shape _ _ H).
Qed.

(** *** The date of a title *)

Lemma find_map_some {A B} (f : A -> option B) (l : list A) (y : B) :
  find_map f l = Some y -> exists x, In x l /\ f x = Some y.
Proof.
  induction l as [|x l IH]; [discriminate|]. simpl.
  destruct (f x) as [y'|] eqn:E.
  - intros [= <-]. exists x. auto.
  - intros H. destruct (IH H) as (x' & Hin & Hx'). exists x'. auto.
Qed.

Lemma no_groups_in_the_date_forms (Q : nat -> str -> Prop) (body : re) :
  In body date_forms -> groups_in Q body.
Proof.
  unfold date_forms. simpl.
  intros [<-|[<-|[<-|[<-|[<-|[]]]]]]; cbv; tauto.
Qed.

(** X18: for a title of ASCII characters, a date that
    [_extract_date_from_title] returns always has the shape YYYY-MM-DD:
    ten characters, of which the fifth and the eighth are dashes and the
    others are digits.  This holds for each of the five patterns and
    whichever branch of [_normalize_date_string] answers. *)
Theorem extracted_date_is_iso_shaped (title d : str) :
  _extract_date_from_title title = Some d -> iso_shaped d = true.
Proof.
  unfold _extract_date_from_title. destruct title as [|a title]; [discriminate|].
  intros H. apply find_map_some in H as (pattern & Hin & H).
  unfold date_patterns in Hin. apply in_map_iff in Hin as (body & <- & Hin).
  unfold date_by in H.
  destruct (re_search (Group 1 body) (a :: title)) as [[c0 [c' g]]|] eqn:E;
    [|discriminate].
  destruct (_normalize_date_string (group 1 g)) as [[|b d']|] eqn:En; try discriminate.
  injection H as <-.
  assert (Hg : groups_in (fun n t => n = 1%nat -> Lang body t) (Group 1 body)).
  { split; [auto|]. now apply no_groups_in_the_date_forms. }
  destruct (re_search_sound _ _ _ _ _ _ Hg E) as (_ & _ & _ & _ & _ & Hc).
  pose proof (group_captured _ _ g 1%nat Hc) as Hd. simpl in Hd.
  exact (normalized_shape body (group 1 g) (b :: d') Hin (Hd eq_refl eq_refl) En).
Qed.

(** X18 on a title with a date between slashes. *)
Lemma extracted_date_is_iso_shaped_witness :
  iso_shaped (lit "2024-03-07") = true.
Proof.
  apply (extracted_date_is_iso_shaped (lit "Kickoff 3/7/2024 notes")).
  vm_compute. reflexivity.
Defined.

End DateFacts.
